(** * pqueue: a sortable bag with minimum query

    Shallow embedding of [pqueue.go] and [algorithms.go].

    - The buffer [pq.data] is a [list T]; its length is the capacity.
    - Go [int] indices and sizes are [Z].  Every slice access is checked:
      an index outside [0, len) is a run-time panic, modelled by [Panic].
    - Element values of an integer queue are 64-bit: arithmetic on them is
      wrapped with [wrap64].
    - [reflect] is modelled by the class [Reflect]: the kind of a value, its
      [Int()] view and the type assertion from an [int].
    - Loops are recursive functions named after the function they belong to.
      [for] loops with a fixed bound recurse on the number of iterations;
      [while]-style loops and recursive functions carry a fuel argument and
      answer [OutOfFuel] when it runs out (the theorems show it never does). *)

From stdpp Require Import base tactics option list numbers sorting strings.
From Stdlib Require Import ZArith Lia.

Local Open Scope Z_scope.

(** ** Results of a computation that may panic *)

Inductive res (A : Type) : Type :=
  | Ok (a : A)
  | Panic
  | OutOfFuel.
Arguments Ok {A} a.
Arguments Panic {A}.
Arguments OutOfFuel {A}.

Definition res_bind {A B} (f : A → res B) (m : res A) : res B :=
  match m with
  | Ok a => f a
  | Panic => Panic
  | OutOfFuel => OutOfFuel
  end.

#[global] Instance res_mret : MRet res := @Ok.
#[global] Instance res_mbind : MBind res := @res_bind.

(** ** Slices *)

(** [d[i]] *)
Definition get {T} (d : list T) (i : Z) : res T :=
  if decide (0 ≤ i) then
    match d !! Z.to_nat i with
    | Some x => Ok x
    | None => Panic
    end
  else Panic.

(** [d[i] = x] *)
Definition set {T} (d : list T) (i : Z) (x : T) : res (list T) :=
  if decide (0 ≤ i < Z.of_nat (length d)) then Ok (<[Z.to_nat i := x]> d)
  else Panic.

(** [d[i], d[j] = d[j], d[i]] *)
Definition swap {T} (d : list T) (i j : Z) : res (list T) :=
  x ← get d i;
  y ← get d j;
  d1 ← set d i y;
  set d1 j x.

(** [len(d)] *)
Definition len {T} (d : list T) : Z := Z.of_nat (length d).

(** [d[:n]]; panics unless [0 <= n <= cap(d)] (the capacity is the length here). *)
Definition slice_to {T} (d : list T) (n : Z) : res (list T) :=
  if decide (0 ≤ n ≤ len d) then Ok (take (Z.to_nat n) d) else Panic.

(** [make([]T, n)] *)
Definition make {T} (zero : T) (n : Z) : res (list T) :=
  if decide (0 ≤ n) then Ok (replicate (Z.to_nat n) zero) else Panic.

(** [copy(dst, src)]: copies [min(len(dst), len(src))] elements. *)
Definition copy {T} (dst src : list T) : list T :=
  take (length dst) src ++ drop (length src) dst.

(** ** 64-bit integers *)

Definition wrap64 (z : Z) : Z := (z + 2 ^ 63) mod 2 ^ 64 - 2 ^ 63.

Definition in_int64 (z : Z) : Prop := - 2 ^ 63 ≤ z < 2 ^ 63.

(** ** Reflection *)

Inductive Kind : Type :=
  | KInt | KInt8 | KInt16 | KInt32 | KInt64
  | KUint | KUint8 | KUint16 | KUint32 | KUint64
  | KFloat32 | KFloat64 | KString | KSlice | KArray | KStruct
  | KMap | KPtr | KInterface | KChan | KFunc | KBool.

#[global] Instance Kind_eq_dec : EqDecision Kind.
Proof. solve_decision. Defined.

(** What the code uses of an element type [T]:
    [zero] is [var zero T]; [kindOf x] is [reflect.ValueOf(x).Kind()]
    (also [reflect.TypeOf(x).Kind()]); [valueInt x] is
    [int(reflect.ValueOf(x).Int())], which panics ([None]) unless the kind
    is a signed integer kind; [assertInt n] is
    [reflect.ValueOf(n).Interface().(T)] for an [int] [n], which panics
    ([None]) unless [T] is [int]. *)
Definition signed_kind (k : Kind) : bool :=
  match k with
  | KInt | KInt8 | KInt16 | KInt32 | KInt64 => true
  | _ => false
  end.

Class Reflect (T : Type) : Type := {
  zero : T;
  kindOf : T → Kind;
  valueInt : T → option Z;
  assertInt : Z → option T;
  (** [Int()] is defined exactly on the signed integer kinds. *)
  valueInt_kind : ∀ x, is_Some (valueInt x) ↔ signed_kind (kindOf x) = true;
  (** [T] is a concrete type: an [int] asserted to be a [T] is that [int]. *)
  assertInt_valueInt : ∀ n x, assertInt n = Some x → valueInt x = Some n;
  valueInt_inj : ∀ x y n, valueInt x = Some n → valueInt y = Some n → x = y;
}.

Definition of_option {A} (o : option A) : res A :=
  match o with
  | Some a => Ok a
  | None => Panic
  end.

(** ** The container *)

Inductive DataType : Type :=
  | IntegerType | FloatType | StringType | SliceType | ArrayType | StructType
  | MapType | PointerType | InterfaceType | ChannelType | FuncType | GenericType.

#[global] Instance DataType_eq_dec : EqDecision DataType.
Proof. solve_decision. Defined.

Inductive SortStrategy : Type :=
  | AutoStrategy | RadixStrategy | CountingStrategy | InsertionStrategy
  | TimsortStrategy | IntrosortStrategy | MergeStrategy | QuickStrategy.

#[global] Instance SortStrategy_eq_dec : EqDecision SortStrategy.
Proof. solve_decision. Defined.

Record PQueue (T : Type) : Type := mkPQueue {
  data : list T;
  less : T → T → bool;
  dataType : DataType;
  size : Z;
}.
Arguments mkPQueue {T} _ _ _ _.
Arguments data {T} _.
Arguments less {T} _.
Arguments dataType {T} _.
Arguments size {T} _.

Definition with_data {T} (pq : PQueue T) (d : list T) : PQueue T :=
  mkPQueue d (less pq) (dataType pq) (size pq).

(** [fmt.Errorf("queue is empty")] *)
Definition error : Type := string.
Definition errQueueEmpty : error := "queue is empty"%string.

Section Container.
Context {T : Type} `{Reflect T}.

Definition inferDataType (d : list T) : DataType :=
  match d with
  | [] => GenericType
  | x :: _ =>
      match kindOf x with
      | KPtr => PointerType
      | KInt | KInt8 | KInt16 | KInt32 | KInt64
      | KUint | KUint8 | KUint16 | KUint32 | KUint64 => IntegerType
      | KFloat32 | KFloat64 => FloatType
      | KString => StringType
      | KSlice => SliceType
      | KArray => ArrayType
      | KStruct => StructType
      | KMap => MapType
      | KInterface => InterfaceType
      | KChan => ChannelType
      | KFunc => FuncType
      | _ => GenericType
      end
  end.

Definition New (d : list T) (lt : T → T → bool) : PQueue T :=
  mkPQueue (copy (replicate (length d) zero) d) lt (inferDataType d) (len d).

Definition Size (pq : PQueue T) : Z := size pq.

Definition IsEmpty (pq : PQueue T) : bool := bool_decide (size pq = 0).

Definition Push (pq : PQueue T) (item : T) : res (PQueue T) :=
  d ← (if decide (len (data pq) ≤ size pq) then
         let newSize := len (data pq) * 2 in
         let newSize := if decide (newSize = 0) then 1 else newSize in
         newData ← make zero newSize;
         live ← slice_to (data pq) (size pq);
         Ok (copy newData live)
       else Ok (data pq));
  d' ← set d (size pq) item;
  Ok (mkPQueue d' (less pq) (dataType pq) (size pq + 1)).

(** The scan shared by [Pop] and [Peek]:
    [for i := 1; i < pq.size; i++ { if less(data[i], data[minIdx]) { minIdx = i } }] *)
Fixpoint minIdx_loop (pq : PQueue T) (n : nat) (i minIdx : Z) : res Z :=
  match n with
  | O => Ok minIdx
  | S n' =>
      x ← get (data pq) i;
      m ← get (data pq) minIdx;
      minIdx_loop pq n' (i + 1) (if less pq x m then i else minIdx)
  end.

Definition Pop (pq : PQueue T) : res ((T * option error) * PQueue T) :=
  if decide (size pq = 0) then Ok ((zero, Some errQueueEmpty), pq)
  else
    minIdx ← minIdx_loop pq (Z.to_nat (size pq - 1)) 1 0;
    result ← get (data pq) minIdx;
    last ← get (data pq) (size pq - 1);
    d' ← set (data pq) minIdx last;
    Ok ((result, None), mkPQueue d' (less pq) (dataType pq) (size pq - 1)).

Definition Peek (pq : PQueue T) : res ((T * option error) * PQueue T) :=
  if decide (size pq = 0) then Ok ((zero, Some errQueueEmpty), pq)
  else
    minIdx ← minIdx_loop pq (Z.to_nat (size pq - 1)) 1 0;
    result ← get (data pq) minIdx;
    Ok ((result, None), pq).

Definition ToSlice (pq : PQueue T) : res (list T) :=
  result ← make zero (size pq);
  live ← slice_to (data pq) (size pq);
  Ok (copy result live).

End Container.

(** ** The sort engine (algorithms.go) *)

Section Algorithms.
Context {T : Type} `{Reflect T}.
Variable lt : T → T → bool.

(** The inner loop of [insertionSort] ([low = 0]) and [insertionSortRange]:
    [for j >= low && less(key, data[j]) { data[j+1] = data[j]; j-- }] *)
Fixpoint shift_loop (fuel : nat) (key : T) (low : Z) (d : list T) (j : Z)
    : res (list T * Z) :=
  match fuel with
  | O => OutOfFuel
  | S f =>
      if decide (low ≤ j) then
        x ← get d j;
        if lt key x then
          d' ← set d (j + 1) x;
          shift_loop f key low d' (j - 1)
        else Ok (d, j)
      else Ok (d, j)
  end.

(** [for i := ...; ...; i++ { key := data[i]; j := i - 1; ...; data[j+1] = key }] *)
Fixpoint insertion_loop (low : Z) (n : nat) (i : Z) (d : list T) : res (list T) :=
  match n with
  | O => Ok d
  | S n' =>
      key ← get d i;
      '(d1, j) ← shift_loop (S (Z.to_nat (i - low))) key low d (i - 1);
      d2 ← set d1 (j + 1) key;
      insertion_loop low n' (i + 1) d2
  end.

Definition insertionSortData (sz : Z) (d : list T) : res (list T) :=
  insertion_loop 0 (Z.to_nat (sz - 1)) 1 d.

Definition insertionSortRange (low high : Z) (d : list T) : res (list T) :=
  insertion_loop low (Z.to_nat (high - low)) (low + 1) d.

(** The partition predicate: [less(x, pivot) || (!less(pivot, x) && !less(x, pivot))] *)
Definition goes_left (x pivot : T) : bool :=
  lt x pivot || (negb (lt pivot x) && negb (lt x pivot)).

Fixpoint partition_loop (pivot : T) (n : nat) (j : Z) (d : list T) (i : Z)
    : res (list T * Z) :=
  match n with
  | O => Ok (d, i)
  | S n' =>
      x ← get d j;
      if goes_left x pivot then
        d' ← swap d (i + 1) j;
        partition_loop pivot n' (j + 1) d' (i + 1)
      else partition_loop pivot n' (j + 1) d i
  end.

Definition partition (low high : Z) (d : list T) : res (list T * Z) :=
  pivot ← get d high;
  '(d1, i) ← partition_loop pivot (Z.to_nat (high - low)) low d (low - 1);
  d2 ← swap d1 (i + 1) high;
  Ok (d2, i + 1).

Fixpoint quickSortRange (fuel : nat) (low high : Z) (d : list T) : res (list T) :=
  match fuel with
  | O => OutOfFuel
  | S f =>
      if decide (low < high) then
        '(d1, pi) ← partition low high d;
        d2 ← quickSortRange f low (pi - 1) d1;
        quickSortRange f (pi + 1) high d2
      else Ok d
  end.

Definition quickSortData (sz : Z) (d : list T) : res (list T) :=
  quickSortRange (S (Z.to_nat sz)) 0 (sz - 1) d.

(** [for i := left; i <= right; i++ { temp[i] = data[i] }] *)
Fixpoint merge_copy (n : nat) (i : Z) (d temp : list T) : res (list T) :=
  match n with
  | O => Ok temp
  | S n' =>
      x ← get d i;
      temp' ← set temp i x;
      merge_copy n' (i + 1) d temp'
  end.

(** [for i <= mid && j <= right { ... k++ }] *)
Fixpoint merge_main (fuel : nat) (mid right : Z) (temp d : list T) (i j k : Z)
    : res (list T * Z * Z * Z) :=
  match fuel with
  | O => OutOfFuel
  | S f =>
      if decide (i ≤ mid ∧ j ≤ right) then
        a ← get temp i;
        b ← get temp j;
        if lt a b then
          d' ← set d k a;
          merge_main f mid right temp d' (i + 1) j (k + 1)
        else if lt b a then
          d' ← set d k b;
          merge_main f mid right temp d' i (j + 1) (k + 1)
        else
          d' ← set d k a;
          merge_main f mid right temp d' (i + 1) j (k + 1)
      else Ok (d, i, j, k)
  end.

(** [for i <= bound { data[k] = temp[i]; i++; k++ }] *)
Fixpoint merge_rest (fuel : nat) (bound : Z) (temp d : list T) (i k : Z)
    : res (list T * Z) :=
  match fuel with
  | O => OutOfFuel
  | S f =>
      if decide (i ≤ bound) then
        a ← get temp i;
        d' ← set d k a;
        merge_rest f bound temp d' (i + 1) (k + 1)
      else Ok (d, k)
  end.

Definition merge (left mid right : Z) (d temp : list T) : res (list T * list T) :=
  let fuel := S (Z.to_nat (right - left + 1)) in
  temp1 ← merge_copy (Z.to_nat (right - left + 1)) left d temp;
  '(d1, i, j, k) ← merge_main fuel mid right temp1 d left (mid + 1) left;
  '(d2, k) ← merge_rest fuel mid temp1 d1 i k;
  '(d3, _) ← merge_rest fuel right temp1 d2 j k;
  Ok (d3, temp1).

Fixpoint mergeSortRange (fuel : nat) (left right : Z) (d temp : list T)
    : res (list T * list T) :=
  match fuel with
  | O => OutOfFuel
  | S f =>
      if decide (left < right) then
        let mid := left + (right - left) `quot` 2 in
        '(d1, temp1) ← mergeSortRange f left mid d temp;
        '(d2, temp2) ← mergeSortRange f (mid + 1) right d1 temp1;
        merge left mid right d2 temp2
      else Ok (d, temp)
  end.

Definition mergeSortData (sz : Z) (d : list T) : res (list T) :=
  if decide (sz ≤ 1) then Ok d
  else
    temp ← make zero sz;
    '(d', _) ← mergeSortRange (S (Z.to_nat sz)) 0 (sz - 1) d temp;
    Ok d'.

Fixpoint heapify (fuel : nat) (base sz root : Z) (d : list T) : res (list T) :=
  match fuel with
  | O => OutOfFuel
  | S f =>
      let left := 2 * (root - base) + 1 + base in
      let right := 2 * (root - base) + 2 + base in
      largest ← (if decide (left < base + sz) then
                   a ← get d root;
                   b ← get d left;
                   Ok (if lt a b then left else root)
                 else Ok root);
      largest ← (if decide (right < base + sz) then
                   a ← get d largest;
                   b ← get d right;
                   Ok (if lt a b then right else largest)
                 else Ok largest);
      if decide (largest ≠ root) then
        d' ← swap d root largest;
        heapify f base sz largest d'
      else Ok d
  end.

(** [for i := size/2 - 1; i >= 0; i-- { heapify(low, size, low+i) }] *)
Fixpoint heap_build (n : nat) (low sz i : Z) (d : list T) : res (list T) :=
  match n with
  | O => Ok d
  | S n' =>
      d' ← heapify (S (Z.to_nat sz)) low sz (low + i) d;
      heap_build n' low sz (i - 1) d'
  end.

(** [for i := size - 1; i > 0; i-- { swap(low, low+i); heapify(low, i, low) }] *)
Fixpoint heap_extract (n : nat) (low i : Z) (d : list T) : res (list T) :=
  match n with
  | O => Ok d
  | S n' =>
      d1 ← swap d low (low + i);
      d2 ← heapify (S (Z.to_nat i)) low i low d1;
      heap_extract n' low (i - 1) d2
  end.

Definition heapSortRange (low high : Z) (d : list T) : res (list T) :=
  let sz := high - low + 1 in
  d1 ← heap_build (Z.to_nat (sz `quot` 2)) low sz (sz `quot` 2 - 1) d;
  heap_extract (Z.to_nat (sz - 1)) low (sz - 1) d1.

Fixpoint introsortRange (fuel : nat) (low high depth : Z) (d : list T)
    : res (list T) :=
  match fuel with
  | O => OutOfFuel
  | S f =>
      let sz := high - low + 1 in
      if decide (sz ≤ 16) then insertionSortRange low high d
      else if decide (depth = 0) then heapSortRange low high d
      else
        '(d1, pi) ← partition low high d;
        d2 ← introsortRange f low (pi - 1) (depth - 1) d1;
        introsortRange f (pi + 1) high (depth - 1) d2
  end.

(** [int(math.Log2(float64(size))) * 2]; the floating-point logarithm is
    taken to be exact, which it is for every size a slice can have. *)
Definition maxDepth (sz : Z) : Z := Z.log2 sz * 2.

Definition introsortData (sz : Z) (d : list T) : res (list T) :=
  introsortRange (S (Z.to_nat sz)) 0 (sz - 1) (maxDepth sz) d.

(** [for start < end { swap(start, end); start++; end-- }] *)
Fixpoint reverse_loop (fuel : nat) (a b : Z) (d : list T) : res (list T) :=
  match fuel with
  | O => OutOfFuel
  | S f =>
      if decide (a < b) then
        d' ← swap d a b;
        reverse_loop f (a + 1) (b - 1) d'
      else Ok d
  end.

Definition reverseRange (a b : Z) (d : list T) : res (list T) :=
  reverse_loop (S (Z.to_nat (b - a))) a b d.

(** [for i < size-1 && less(data[i], data[i+1]) { i++ }] *)
Fixpoint run_ascending (fuel : nat) (sz : Z) (d : list T) (i : Z) : res Z :=
  match fuel with
  | O => OutOfFuel
  | S f =>
      if decide (i < sz - 1) then
        a ← get d i;
        b ← get d (i + 1);
        if lt a b then run_ascending f sz d (i + 1) else Ok i
      else Ok i
  end.

(** [for i < size-1 && (less(data[i+1], data[i]) || (!less(data[i], data[i+1]) && !less(data[i+1], data[i]))) { i++ }] *)
Fixpoint run_descending (fuel : nat) (sz : Z) (d : list T) (i : Z) : res Z :=
  match fuel with
  | O => OutOfFuel
  | S f =>
      if decide (i < sz - 1) then
        a ← get d i;
        b ← get d (i + 1);
        if lt b a || (negb (lt a b) && negb (lt b a))
        then run_descending f sz d (i + 1)
        else Ok i
      else Ok i
  end.

(** The outer loop of [findRuns]. *)
Fixpoint findRuns_loop (fuel : nat) (sz : Z) (d : list T) (runs : list Z) (i : Z)
    : res (list T * list Z) :=
  match fuel with
  | O => OutOfFuel
  | S f =>
      if decide (i < sz - 1) then
        let start := i in
        a ← get d i;
        b ← get d (i + 1);
        '(d1, i1) ←
          (if lt a b then
             i' ← run_ascending (S (Z.to_nat sz)) sz d i;
             Ok (d, i')
           else
             i' ← run_descending (S (Z.to_nat sz)) sz d i;
             d' ← reverseRange start i' d;
             Ok (d', i'));
        let i2 := i1 + 1 in
        findRuns_loop f sz d1 (runs ++ [i2]) i2
      else Ok (d, runs)
  end.

Definition findRuns (sz : Z) (d : list T) : res (list T * list Z) :=
  '(d1, runs) ← findRuns_loop (S (Z.to_nat sz)) sz d [0] 0;
  lastRun ← get runs (len runs - 1);
  Ok (d1, if decide (lastRun ≠ sz) then runs ++ [sz] else runs).

(** [for i := 1; i < len(runs)-1; i += 2 { merge(...); newRuns = append(newRuns, runs[i+1]) }] *)
Fixpoint mergeRuns_pass (fuel : nat) (runs : list Z) (i : Z)
    (d temp : list T) (newRuns : list Z) : res (list T * list T * list Z) :=
  match fuel with
  | O => OutOfFuel
  | S f =>
      if decide (i < len runs - 1) then
        left ← get runs (i - 1);
        r1 ← get runs i;
        r2 ← get runs (i + 1);
        '(d', temp') ← merge left (r1 - 1) (r2 - 1) d temp;
        mergeRuns_pass f runs (i + 2) d' temp' (newRuns ++ [r2])
      else Ok (d, temp, newRuns)
  end.

(** [for len(runs) > 2 { ... runs = newRuns }] *)
Fixpoint mergeRuns_loop (fuel : nat) (runs : list Z) (d temp : list T)
    : res (list T) :=
  match fuel with
  | O => OutOfFuel
  | S f =>
      if decide (2 < len runs) then
        r0 ← get runs 0;
        '(d', temp', newRuns) ← mergeRuns_pass (S (length runs)) runs 1 d temp [r0];
        newRuns ← (if decide (len runs `rem` 2 = 0) then
                     rl ← get runs (len runs - 1);
                     Ok (newRuns ++ [rl])
                   else Ok newRuns);
        mergeRuns_loop f newRuns d' temp'
      else Ok d
  end.

Definition mergeRuns (sz : Z) (runs : list Z) (d : list T) : res (list T) :=
  temp ← make zero sz;
  mergeRuns_loop (S (length runs)) runs d temp.

Definition timsortData (sz : Z) (d : list T) : res (list T) :=
  let minMerge := 32 in
  if decide (sz ≤ minMerge) then insertionSortData sz d
  else
    '(d1, runs) ← findRuns sz d;
    mergeRuns sz runs d1.

(** [for i := 0; i < size-1; i++ { if less(data[i+1], data[i]) { inversions++; if inversions > threshold { return false } } }] *)
Fixpoint isNearlySorted_loop (n : nat) (d : list T) (threshold : Z)
    (i inversions : Z) : res bool :=
  match n with
  | O => Ok true
  | S n' =>
      b ← get d (i + 1);
      a ← get d i;
      if lt b a then
        let inversions := inversions + 1 in
        if decide (threshold < inversions) then Ok false
        else isNearlySorted_loop n' d threshold (i + 1) inversions
      else isNearlySorted_loop n' d threshold (i + 1) inversions
  end.

Definition isNearlySortedData (sz : Z) (d : list T) : res bool :=
  if decide (sz ≤ 1) then Ok true
  else
    let threshold := sz `quot` 10 in
    let threshold := if decide (threshold < 1) then 1 else threshold in
    isNearlySorted_loop (Z.to_nat (sz - 1)) d threshold 0 0.

End Algorithms.

(** ** Integer fast paths (algorithms.go) *)

(** Go's [a / b] on [int]: truncated, panics on a zero divisor. *)
Definition int_div (a b : Z) : res Z :=
  if decide (b = 0) then Panic else Ok (wrap64 (a `quot` b)).

Section IntegerAlgorithms.
Context {T : Type} `{Reflect T}.

(** [val.Kind() == reflect.Int || val.Kind() == reflect.Int64 || val.Kind() == reflect.Int32] *)
Definition getMaxInt_kind (k : Kind) : bool :=
  match k with
  | KInt | KInt64 | KInt32 => true
  | _ => false
  end.

Fixpoint getMaxInt_loop (n : nat) (d : list T) (i max : Z) : res Z :=
  match n with
  | O => Ok max
  | S n' =>
      x ← get d i;
      if getMaxInt_kind (kindOf x) then
        intVal ← of_option (valueInt x);
        getMaxInt_loop n' d (i + 1) (if decide (max < intVal) then intVal else max)
      else getMaxInt_loop n' d (i + 1) max
  end.

Definition getMaxInt (pq : PQueue T) : res Z :=
  if decide (size pq = 0) then Ok 0
  else getMaxInt_loop (Z.to_nat (size pq)) (data pq) 0 0.

Fixpoint getMinMaxInt_loop (n : nat) (d : list T) (i min max : Z) : res (Z * Z) :=
  match n with
  | O => Ok (min, max)
  | S n' =>
      x ← get d i;
      intVal ← of_option (valueInt x);
      let min := if decide (intVal < min) then intVal else min in
      let max := if decide (max < intVal) then intVal else max in
      getMinMaxInt_loop n' d (i + 1) min max
  end.

Definition getMinMaxInt (pq : PQueue T) : res (Z * Z) :=
  if decide (size pq = 0) then Ok (0, 0)
  else
    x ← get (data pq) 0;
    v ← of_option (valueInt x);
    getMinMaxInt_loop (Z.to_nat (size pq - 1)) (data pq) 1 v v.

(** [digit := (int(val.Int()) / exp) % 10] *)
Definition digitOf (exp : Z) (x : T) : res Z :=
  v ← of_option (valueInt x);
  q ← int_div v exp;
  Ok (q `rem` 10).

(** [for i := 0; i < size; i++ { count[digit]++ }] *)
Fixpoint digit_count (n : nat) (exp : Z) (d : list T) (i : Z) (count : list Z)
    : res (list Z) :=
  match n with
  | O => Ok count
  | S n' =>
      x ← get d i;
      digit ← digitOf exp x;
      c ← get count digit;
      count' ← set count digit (c + 1);
      digit_count n' exp d (i + 1) count'
  end.

(** [for i := 1; i < 10; i++ { count[i] += count[i-1] }] *)
Fixpoint digit_prefix (n : nat) (i : Z) (count : list Z) : res (list Z) :=
  match n with
  | O => Ok count
  | S n' =>
      c ← get count i;
      p ← get count (i - 1);
      count' ← set count i (c + p);
      digit_prefix n' (i + 1) count'
  end.

(** [for i := size - 1; i >= 0; i-- { output[count[digit]-1] = data[i]; count[digit]-- }] *)
Fixpoint digit_place (n : nat) (exp : Z) (d : list T) (i : Z)
    (count : list Z) (output : list T) : res (list T) :=
  match n with
  | O => Ok output
  | S n' =>
      x ← get d i;
      digit ← digitOf exp x;
      c ← get count digit;
      output' ← set output (c - 1) x;
      count' ← set count digit (c - 1);
      digit_place n' exp d (i - 1) count' output'
  end.

Definition countingSortByDigit (sz exp : Z) (d : list T) : res (list T) :=
  output ← make zero sz;
  count ← make 0 10;
  count ← digit_count (Z.to_nat sz) exp d 0 count;
  count ← digit_prefix 9 1 count;
  output ← digit_place (Z.to_nat sz) exp d (sz - 1) count output;
  live ← slice_to d sz;
  Ok (copy live output ++ drop (Z.to_nat sz) d).

(** [for exp := 1; maxVal/exp > 0; exp *= 10 { countingSortByDigit(exp) }] *)
Fixpoint radix_loop (fuel : nat) (sz maxVal exp : Z) (d : list T) : res (list T) :=
  match fuel with
  | O => OutOfFuel
  | S f =>
      q ← int_div maxVal exp;
      if decide (0 < q) then
        d' ← countingSortByDigit sz exp d;
        radix_loop f sz maxVal (wrap64 (exp * 10)) d'
      else Ok d
  end.

(** After 64 multiplications by ten [exp] is zero modulo [2^64], so the
    loop cannot take more than 65 steps. *)
Definition radix_fuel : nat := 66.

Definition radixSort (pq : PQueue T) : res (list T) :=
  if decide (dataType pq ≠ IntegerType) then
    quickSortData (less pq) (size pq) (data pq)
  else
    maxVal ← getMaxInt pq;
    if decide (maxVal ≤ 0) then Ok (data pq)
    else radix_loop radix_fuel (size pq) maxVal 1 (data pq).

(** [for i := 0; i < size; i++ { index := int(val.Int()) - minVal; count[index]++ }] *)
Fixpoint counting_count (n : nat) (minVal : Z) (d : list T) (i : Z) (count : list Z)
    : res (list Z) :=
  match n with
  | O => Ok count
  | S n' =>
      x ← get d i;
      v ← of_option (valueInt x);
      let index := wrap64 (v - minVal) in
      c ← get count index;
      count' ← set count index (c + 1);
      counting_count n' minVal d (i + 1) count'
  end.

(** [for count[i] > 0 { data[pos] = T(minVal + i); pos++; count[i]-- }] *)
Fixpoint counting_emit (fuel : nat) (minVal i : Z) (count : list Z)
    (d : list T) (pos : Z) : res (list Z * list T * Z) :=
  match fuel with
  | O => OutOfFuel
  | S f =>
      c ← get count i;
      if decide (0 < c) then
        x ← of_option (assertInt (wrap64 (minVal + i)));
        d' ← set d pos x;
        count' ← set count i (c - 1);
        counting_emit f minVal i count' d' (pos + 1)
      else Ok (count, d, pos)
  end.

(** [for i := 0; i < len(count); i++ { ... }] *)
Fixpoint counting_rebuild (n : nat) (minVal i : Z) (count : list Z)
    (d : list T) (pos : Z) : res (list T) :=
  match n with
  | O => Ok d
  | S n' =>
      c ← get count i;
      '(count', d', pos') ← counting_emit (S (Z.to_nat c)) minVal i count d pos;
      counting_rebuild n' minVal (i + 1) count' d' pos'
  end.

Definition countingSort (pq : PQueue T) : res (list T) :=
  if decide (dataType pq ≠ IntegerType) then
    quickSortData (less pq) (size pq) (data pq)
  else
    '(minVal, maxVal) ← getMinMaxInt pq;
    if decide (10000 < wrap64 (maxVal - minVal)) then
      quickSortData (less pq) (size pq) (data pq)
    else
      count ← make 0 (wrap64 (wrap64 (maxVal - minVal) + 1));
      count ← counting_count (Z.to_nat (size pq)) minVal (data pq) 0 count;
      counting_rebuild (length count) minVal 0 count (data pq) 0.

Definition isNearlySorted (pq : PQueue T) : res bool :=
  isNearlySortedData (less pq) (size pq) (data pq).

Definition hasSmallRange (pq : PQueue T) : res bool :=
  if decide (dataType pq ≠ IntegerType ∨ size pq = 0) then Ok false
  else
    '(min, max) ← getMinMaxInt pq;
    Ok (bool_decide (wrap64 (max - min) ≤ 1000)).

(** ** Strategy selection and dispatch (pqueue.go) *)

Definition chooseOptimalStrategy (pq : PQueue T) : res SortStrategy :=
  let n := size pq in
  if decide (n ≤ 16) then Ok InsertionStrategy
  else
    nearly ← isNearlySorted pq;
    if (nearly : bool) then Ok InsertionStrategy
    else if decide (dataType pq = IntegerType ∧ 100 < n) then
      small ← hasSmallRange pq;
      if (small : bool) then Ok CountingStrategy else Ok RadixStrategy
    else if decide (dataType pq = StringType) then
      if decide (1000 < n) then Ok IntrosortStrategy else Ok TimsortStrategy
    else if decide (dataType pq = SliceType ∨ dataType pq = ArrayType) then
      Ok MergeStrategy
    else if decide (dataType pq = StructType ∨ dataType pq = InterfaceType) then
      if decide (1000 < n) then Ok IntrosortStrategy else Ok TimsortStrategy
    else if decide (dataType pq = PointerType ∨ dataType pq = MapType ∨
                    dataType pq = ChannelType ∨ dataType pq = FuncType) then
      Ok QuickStrategy
    else if decide (1000 < n) then Ok IntrosortStrategy
    else Ok TimsortStrategy.

Definition insertionSort (pq : PQueue T) := insertionSortData (less pq) (size pq) (data pq).
Definition timsort (pq : PQueue T) := timsortData (less pq) (size pq) (data pq).
Definition introsort (pq : PQueue T) := introsortData (less pq) (size pq) (data pq).
Definition mergeSort (pq : PQueue T) := mergeSortData (less pq) (size pq) (data pq).
Definition quickSort (pq : PQueue T) := quickSortData (less pq) (size pq) (data pq).

Definition SortWithStrategy (strategy : SortStrategy) (pq : PQueue T)
    : res (PQueue T) :=
  if decide (size pq ≤ 1) then Ok pq
  else
    actualStrategy ← (if decide (strategy = AutoStrategy)
                      then chooseOptimalStrategy pq else Ok strategy);
    d ← match actualStrategy with
        | InsertionStrategy => insertionSort pq
        | TimsortStrategy => timsort pq
        | IntrosortStrategy => introsort pq
        | MergeStrategy => mergeSort pq
        | QuickStrategy => quickSort pq
        | RadixStrategy =>
            if decide (dataType pq = IntegerType) then radixSort pq
            else quickSort pq
        | CountingStrategy =>
            if decide (dataType pq = IntegerType) then countingSort pq
            else quickSort pq
        | AutoStrategy => quickSort pq
        end;
    Ok (with_data pq d).

Definition Sort (pq : PQueue T) : res (PQueue T) :=
  SortWithStrategy AutoStrategy pq.

End IntegerAlgorithms.

(** ** Element types *)

(** Go's [int]. *)
#[global, refine] Instance int_Reflect : Reflect Z := {|
  zero := 0;
  kindOf := λ _, KInt;
  valueInt := λ x, Some x;
  assertInt := λ n, Some n;
|}.
Proof.
  - intros x. split; [reflexivity | eauto].
  - intros n x [= ->]. reflexivity.
  - intros x y n [= ->] [= ->]. reflexivity.
Defined.

Definition NewInts (d : list Z) : PQueue Z := New d Z.ltb.

(** A record sorted by one of its fields, as in the stability test:
    [type Item struct { Value int; Index int }]. *)
Record Item : Type := mkItem { Value : Z; Index : Z }.

#[global, refine] Instance Item_Reflect : Reflect Item := {|
  zero := mkItem 0 0;
  kindOf := λ _, KStruct;
  valueInt := λ _, None;
  assertInt := λ _, None;
|}.
Proof.
  - intros x. split; [intros [? ?] | intros ?]; discriminate.
  - intros n x ?; discriminate.
  - intros x y n ?; discriminate.
Defined.

Definition lessByValue (a b : Item) : bool := Value a <? Value b.

(** ** Vocabulary of the specification *)

(** The container invariant: the logical size is within the capacity. *)
Definition wf {T} (pq : PQueue T) : Prop := 0 ≤ size pq ≤ len (data pq).

(** The live prefix [data[0..size)]. *)
Definition live {T} (pq : PQueue T) : list T := take (Z.to_nat (size pq)) (data pq).

(** Equal for ordering purposes: neither is less than the other. *)
Definition eqv {T} (lt : T → T → bool) (a b : T) : bool :=
  negb (lt a b) && negb (lt b a).

(** The comparator contract. *)
Record StrictWeakOrder {T} (lt : T → T → bool) : Prop := {
  swo_irrefl : ∀ x, lt x x = false;
  swo_trans : ∀ x y z, lt x y = true → lt y z = true → lt x z = true;
  swo_eqv_trans : ∀ x y z, eqv lt x y = true → eqv lt y z = true → eqv lt x z = true;
}.

(** Non-decreasing under the comparator: no adjacent pair is inverted. *)
Fixpoint sorted_by {T} (lt : T → T → bool) (l : list T) : Prop :=
  match l with
  | [] => True
  | x :: l' =>
      match l' with
      | [] => True
      | y :: _ => lt y x = false ∧ sorted_by lt l'
      end
  end.

(** What the scan of [Pop] and [Peek] has established after looking at
    [data[0..i)]: [m] is the first position of a minimal element. *)
Definition is_first_min {T} (pq : PQueue T) (i m : Z) : Prop :=
  ∃ x, get (data pq) m = Ok x ∧ 0 ≤ m < i ∧
    (∀ j y, 0 ≤ j < i → get (data pq) j = Ok y → less pq y x = false) ∧
    (∀ j y, 0 ≤ j < m → get (data pq) j = Ok y → less pq x y = true).

(** The number of adjacent inversions: positions [i] with
    [less(l[i+1], l[i])]. *)
Fixpoint adjacent_inversions {T} (lt : T → T → bool) (l : list T) : Z :=
  match l with
  | [] => 0
  | x :: l' =>
      match l' with
      | [] => 0
      | y :: _ => (if lt y x then 1 else 0) + adjacent_inversions lt l'
      end
  end.

(** Near-sorted, in the words of the specification: the inversion count
    does not exceed [max(1, n/10)]. *)
Definition near_sorted {T} (lt : T → T → bool) (l : list T) : bool :=
  bool_decide (adjacent_inversions lt l ≤ Z.max 1 (len l `quot` 10)).

(** The integer values of a sequence, as [reflect] reads them. *)
Definition int_values {T} `{Reflect T} (l : list T) : list Z := omap valueInt l.

(** Every element has an integer value (a signed integer kind). *)
Definition all_ints {T} `{Reflect T} (l : list T) : Prop :=
  Forall (λ x, is_Some (valueInt x)) l.

Definition min_value (vs : list Z) : Z :=
  match vs with
  | [] => 0
  | v :: vs' => foldl Z.min v vs'
  end.

Definition max_value (vs : list Z) : Z :=
  match vs with
  | [] => 0
  | v :: vs' => foldl Z.max v vs'
  end.

(** The value range [max - min], in 64-bit arithmetic as the code computes it. *)
Definition value_range {T} `{Reflect T} (l : list T) : Z :=
  wrap64 (max_value (int_values l) - min_value (int_values l)).

(** The selection table, in the words of the specification. *)
Definition strategy_table (n : Z) (nearly : bool) (tag : DataType) (range : Z)
    : SortStrategy :=
  if decide (n ≤ 16) then InsertionStrategy
  else if nearly then InsertionStrategy
  else if decide (tag = IntegerType ∧ 100 < n) then
    if decide (range ≤ 1000) then CountingStrategy else RadixStrategy
  else
    match tag with
    | StringType => if decide (1000 < n) then IntrosortStrategy else TimsortStrategy
    | SliceType | ArrayType => MergeStrategy
    | StructType | InterfaceType =>
        if decide (1000 < n) then IntrosortStrategy else TimsortStrategy
    | PointerType | MapType | ChannelType | FuncType => QuickStrategy
    | _ => if decide (1000 < n) then IntrosortStrategy else TimsortStrategy
    end.

(** Stability: the elements of every class of comparator-equal elements
    appear in the output in the order they had in the input. *)
Definition stable {T} (lt : T → T → bool) (input output : list T) : Prop :=
  ∀ x, List.filter (eqv lt x) output = List.filter (eqv lt x) input.

(** 101 non-positive integers with 50 adjacent inversions and range 1999. *)
Definition alternating_negatives : list Z :=
  concat (replicate 50 [-1; -2000]) ++ [-1].

(** 33 records whose first two keys are equal and begin a descending run:
    keys [5, 5, 1, 6, 7, ..., 35], each with its input position. *)
Definition tied_run_items : list Item :=
  imap (λ i v, mkItem v (Z.of_nat i)) ([5; 5; 1] ++ map Z.of_nat (seq 6 30)).

(** 33 records sorted by key, the first two keys equal:
    keys [1, 1, 2, 3, ..., 32]. *)
Definition sorted_tied_items : list Item :=
  imap (λ i v, mkItem v (Z.of_nat i)) (1 :: map Z.of_nat (seq 1 32)).

(** 40 records with the same key. *)
Definition equal_key_items : list Item :=
  imap (λ i v, mkItem v (Z.of_nat i)) (replicate 40 7).

(** ** List-level views of the algorithms

    The array algorithms are related to these list functions, on which the
    order properties are then proved. *)

(** Insert [key] after the last element that is not greater than it,
    scanning from the right (the list is given reversed). *)
Fixpoint insert_rev {T} (lt : T → T → bool) (key : T) (rl : list T) : list T :=
  match rl with
  | [] => [key]
  | x :: rl' => if lt key x then x :: insert_rev lt key rl' else key :: rl
  end.

Definition insert_last {T} (lt : T → T → bool) (key : T) (l : list T) : list T :=
  reverse (insert_rev lt key (reverse l)).

(** What insertion sort computes on a segment. *)
Definition isort {T} (lt : T → T → bool) (l : list T) : list T :=
  foldl (λ acc x, insert_last lt x acc) [] l.

(** [d'] differs from [d] only by a rearrangement of the positions [a..b). *)
Definition perm_in {T} (a b : nat) (d d' : list T) : Prop :=
  take a d' = take a d ∧ drop b d' = drop b d ∧ d' ≡ₚ d.

(** The positions [low..high] of [d] are sorted pairwise. *)
Definition range_sorted {T} (lt : T → T → bool) (d : list T) (low high : Z) : Prop :=
  ∀ i j x y, low ≤ i → i ≤ j → j ≤ high →
    get d i = Ok x → get d j = Ok y → lt y x = false.

(** The merge of two lists: ties are taken from the left one. *)
Fixpoint lmerge {T} (lt : T → T → bool) (l1 : list T) : list T → list T :=
  fix go (l2 : list T) : list T :=
    match l1, l2 with
    | [], _ => l2
    | _, [] => l1
    | a :: l1', b :: l2' =>
        if lt a b then a :: lmerge lt l1' l2
        else if lt b a then b :: go l2'
        else a :: lmerge lt l1' l2
    end.

(** What top-down merge sort computes on a segment, with the fuel of the
    array version. *)
Fixpoint lmsort {T} (lt : T → T → bool) (fuel : nat) (l : list T) : list T :=
  match fuel with
  | O => l
  | S f =>
      if decide (len l ≤ 1) then l
      else
        let m := Z.to_nat ((len l - 1) `quot` 2 + 1) in
        lmerge lt (lmsort lt f (take m l)) (lmsort lt f (drop m l))
  end.

(** The strategies that leave an already sorted live prefix as it is. *)
Definition keeps_sorted_input {T} (strategy : SortStrategy) (pq : PQueue T) : Prop :=
  strategy = AutoStrategy ∨ strategy = InsertionStrategy ∨
  strategy = MergeStrategy ∨ strategy = QuickStrategy ∨
  (strategy = TimsortStrategy ∧ size pq ≤ 32) ∨
  (strategy = IntrosortStrategy ∧ size pq ≤ 16) ∨
  ((strategy = RadixStrategy ∨ strategy = CountingStrategy) ∧
   dataType pq ≠ IntegerType).

(** The strategies that are stable. *)
Definition stable_strategy {T} (strategy : SortStrategy) (pq : PQueue T) : Prop :=
  strategy = InsertionStrategy ∨ strategy = MergeStrategy ∨
  (strategy = TimsortStrategy ∧ size pq ≤ 32).

(** Run boundaries: strictly increasing positions between [0] and [sz]. *)
Definition runs_ok (sz : Z) (runs : list Z) : Prop :=
  StronglySorted Z.lt runs ∧ Forall (λ r, 0 ≤ r ≤ sz) runs.

(** ** Compositions of the container operations *)

(** [n] successive calls of [Pop], collecting what they return; stops at the
    first call that reports an empty queue. *)
Fixpoint pop_n {T} `{Reflect T} (n : nat) (pq : PQueue T) : res (list T * PQueue T) :=
  match n with
  | O => Ok ([], pq)
  | S n' =>
      '(r, pq1) ← Pop pq;
      match r with
      | (x, None) => '(xs, pq2) ← pop_n n' pq1; Ok (x :: xs, pq2)
      | (_, Some _) => Ok ([], pq1)
      end
  end.

(** [len(pq.data)], the capacity of the buffer. *)
Definition capacity {T} (pq : PQueue T) : Z := len (data pq).

(** Every element at the positions [a..b) of [d] satisfies [P]. *)
Definition range_all {T} (P : T → Prop) (d : list T) (a b : Z) : Prop :=
  ∀ k x, a ≤ k < b → get d k = Ok x → P x.

(** The element at offset [o] of the heap stored at [base] is not less
    than its children, as far as they lie within the heap size [sz]. *)
Definition heap_at {T} (lt : T → T → bool) (d : list T) (base sz o : Z) : Prop :=
  ∀ c x y, c = 2 * o + 1 ∨ c = 2 * o + 2 → c < sz →
    get d (base + o) = Ok x → get d (base + c) = Ok y → lt x y = false.

(** Every run between two consecutive boundaries is a sorted range. *)
Fixpoint runs_sorted {T} (lt : T → T → bool) (d : list T) (runs : list Z) : Prop :=
  match runs with
  | [] => True
  | a :: rest =>
      match rest with
      | [] => True
      | b :: _ => range_sorted lt d a (b - 1) ∧ runs_sorted lt d rest
      end
  end.

(** ** Vocabulary for the sort dispatch *)

(** The result of a sort routine on the first [sz] positions of [d]: it
    returns, the buffer is rearranged within those positions only, and they
    are in order when the comparator is a strict weak order. *)
Definition sorts_result {T} (lt : T → T → bool) (sz : Z) (d : list T)
    (r : res (list T)) : Prop :=
  ∃ d', r = Ok d' ∧ perm_in 0 (Z.to_nat sz) d d' ∧
    (StrictWeakOrder lt → sorted_by lt (take (Z.to_nat sz) d')).

(** The five strategies that only use the comparator. *)
Definition comparison_strategy (strategy : SortStrategy) : Prop :=
  strategy = InsertionStrategy ∨ strategy = TimsortStrategy ∨
  strategy = IntrosortStrategy ∨ strategy = MergeStrategy ∨
  strategy = QuickStrategy.

(** The calls of [SortWithStrategy] that end in a comparison sort: a
    comparison strategy, or any strategy on a queue whose tag is not
    integer, or Auto on at most 100 elements. *)
Definition comparison_sort {T} (strategy : SortStrategy) (pq : PQueue T) : Prop :=
  comparison_strategy strategy ∨ dataType pq ≠ IntegerType ∨
  (strategy = AutoStrategy ∧ size pq ≤ 100).

(** ** Sequences of operations *)

Inductive Op (T : Type) : Type :=
  | OpPush (x : T)
  | OpPop
  | OpPeek
  | OpSort (strategy : SortStrategy).
Arguments OpPush {T} x.
Arguments OpPop {T}.
Arguments OpPeek {T}.
Arguments OpSort {T} strategy.

(** Runs the operations in order; returns the elements popped so far (in
    the order they were popped) and the queue.  [Pop] and [Peek] on an
    empty queue report their error and the run goes on. *)
Fixpoint run_ops {T} `{Reflect T} (ops : list (Op T)) (popped : list T)
    (pq : PQueue T) : res (list T * PQueue T) :=
  match ops with
  | [] => Ok (popped, pq)
  | OpPush x :: ops' => pq' ← Push pq x; run_ops ops' popped pq'
  | OpPop :: ops' =>
      '(r, pq') ← Pop pq;
      match r with
      | (x, None) => run_ops ops' (popped ++ [x]) pq'
      | (_, Some _) => run_ops ops' popped pq'
      end
  | OpPeek :: ops' => '(_, pq') ← Peek pq; run_ops ops' popped pq'
  | OpSort strategy :: ops' => pq' ← SortWithStrategy strategy pq; run_ops ops' popped pq'
  end.

(** The elements pushed by a sequence of operations. *)
Definition pushed {T} (ops : list (Op T)) : list T :=
  omap (λ op, match op with OpPush x => Some x | _ => None end) ops.

(** Every sort of the sequence names a comparison strategy. *)
Definition comparison_ops {T} (ops : list (Op T)) : Prop :=
  Forall (λ op, match op with OpSort s => comparison_strategy s | _ => True end) ops.

(** The values [getMaxInt] looks at: those of the elements whose kind is
    [int], [int32] or [int64]. *)
Definition seen_values {T} `{Reflect T} (l : list T) : list Z :=
  omap (λ x, if getMaxInt_kind (kindOf x) then valueInt x else None) l.

(** Every integer value of the sequence fits in 64 bits. *)
Definition values_in_int64 {T} `{Reflect T} (l : list T) : Prop :=
  Forall (λ x, ∀ v, valueInt x = Some v → in_int64 v) l.

(** Go's [uint]: an integer kind that [reflect]'s [Int()] does not read. *)
Record Uint : Type := mkUint { uint_val : Z }.

#[global, refine] Instance Uint_Reflect : Reflect Uint := {|
  zero := mkUint 0;
  kindOf := λ _, KUint;
  valueInt := λ _, None;
  assertInt := λ _, None;
|}.
Proof.
  - intros x. split; [intros [? ?] | intros ?]; discriminate.
  - intros n x ?; discriminate.
  - intros x y n ?; discriminate.
Defined.

Definition lessUint (a b : Uint) : bool := uint_val a <? uint_val b.

(** 101 unsigned values with many adjacent inversions. *)
Definition scattered_uints : list Uint :=
  map (λ i, mkUint ((Z.of_nat i * 37) `mod` 101)) (seq 0 101).

(** The unsigned integer kinds. *)
Definition unsigned_kind (k : Kind) : bool :=
  match k with
  | KUint | KUint8 | KUint16 | KUint32 | KUint64 => true
  | _ => false
  end.

(** ** Byte and rune slices (pqueue.go)

    A [[]byte] or [[]rune] element is the list of its entries. *)

#[global, refine] Instance slice_Reflect : Reflect (list Z) := {|
  zero := [];
  kindOf := λ _, KSlice;
  valueInt := λ _, None;
  assertInt := λ _, None;
|}.
Proof.
  - intros x. split; [intros [? ?] | intros ?]; discriminate.
  - intros n x ?; discriminate.
  - intros x y n ?; discriminate.
Defined.

(** The comparator of [NewBytes] and [NewRunes]:
    [for i := 0; i < len(a) && i < len(b); i++ { if a[i] != b[i] { return a[i] < b[i] } }; return len(a) < len(b)] *)
Fixpoint sliceLess_loop (n : nat) (a b : list Z) (i : Z) : res bool :=
  match n with
  | O => Ok (bool_decide (len a < len b))
  | S n' =>
      x ← get a i;
      y ← get b i;
      if decide (x ≠ y) then Ok (bool_decide (x < y))
      else sliceLess_loop n' a b (i + 1)
  end.

Definition sliceLess (a b : list Z) : res bool :=
  sliceLess_loop (Nat.min (length a) (length b)) a b 0.

(** The comparator as the total function the queue stores ([sliceLess]
    never panics). *)
Definition lessSlice (a b : list Z) : bool :=
  match sliceLess a b with
  | Ok r => r
  | _ => false
  end.

Definition NewBytes (d : list (list Z)) : PQueue (list Z) := New d lessSlice.
Definition NewRunes (d : list (list Z)) : PQueue (list Z) := New d lessSlice.

(** The lexicographic order: the first difference decides, and a proper
    prefix comes first. *)
Fixpoint lex_lt (a b : list Z) : bool :=
  match a, b with
  | [], [] => false
  | [], _ :: _ => true
  | _ :: _, [] => false
  | x :: a', y :: b' => if decide (x = y) then lex_lt a' b' else bool_decide (x < y)
  end.

(** ** Buckets

    The elements of [l] with key [k], and the concatenation of the buckets
    of a list of keys: what the two counting passes build. *)
Definition bucket {T} (g : T → nat) (k : nat) (l : list T) : list T :=
  List.filter (λ x, Nat.eqb (g x) k) l.

Definition buckets {T} (g : T → nat) (ks : list nat) (l : list T) : list T :=
  concat (map (λ k, bucket g k l) ks).

(** The output buffer of the placing loop when [P] is still to be placed
    and [S] has been placed: each bucket holds its placed elements after
    as many free slots as it has elements left in [P]. *)
Definition blocks {T} (g : T → nat) (z : T) (ks : list nat) (P S : list T) : list T :=
  concat (map (λ k, replicate (length (bucket g k P)) z ++ bucket g k S) ks).

(** The decimal digit of an element as a position of the count table. *)
Definition digit_key {T} `{Reflect T} (exp : Z) (x : T) : nat :=
  match digitOf exp x with
  | Ok k => Z.to_nat k
  | _ => 0%nat
  end.

(** ** Vocabulary for the integer fast paths *)

(** The integer value of an element ([0] when [reflect] reads none). *)
Definition int_value {T} `{Reflect T} (x : T) : Z := default 0 (valueInt x).

(** In non-decreasing order of the integer values. *)
Definition ascending {T} `{Reflect T} (l : list T) : Prop :=
  StronglySorted (λ x y, int_value x ≤ int_value y) l.

(** What the radix sort needs of its input: elements of kind [int],
    [int32] or [int64] with non-negative 64-bit values. *)
Definition radix_ready {T} `{Reflect T} (l : list T) : Prop :=
  Forall (λ x, getMaxInt_kind (kindOf x) = true ∧
               ∃ v, valueInt x = Some v ∧ 0 ≤ v < 2 ^ 63) l.

(** Sorted on the [k] lowest decimal digits. *)
Definition sorted_mod {T} `{Reflect T} (E : Z) (l : list T) : Prop :=
  StronglySorted (λ x y, int_value x `mod` E ≤ int_value y `mod` E) l.

(** The slot of an element in the count table of [countingSort]. *)
Definition count_key {T} `{Reflect T} (minVal : Z) (x : T) : nat :=
  Z.to_nat (int_value x - minVal).

(** The comparator compares the integer values of the elements. *)
Definition int_order {T} `{Reflect T} (lt : T → T → bool) : Prop :=
  ∀ x y, lt x y = true ↔ int_value x < int_value y.

(** 120 values between 0 and 5002, far from sorted. *)
Definition scattered_ints : list Z :=
  map (λ i, (Z.of_nat i * 7919) `mod` 5003) (seq 0 120).

(** 102 values that alternate between [2^62] and [-2^62]. *)
Definition wide_ints : list Z :=
  map (λ i, if Nat.even i then 4611686018427387904 else -4611686018427387904) (seq 0 102).

(** * Properties *)

(** ** Slices *)

Lemma bind_Ok {A B} (m : res A) (f : A → res B) (b : B) :
  (x ← m; f x) = Ok b ↔ ∃ a, m = Ok a ∧ f a = Ok b.
Proof.
  destruct m; simpl; split; try (intros [? [? ?]]); try discriminate; eauto.
  intros; simplify_eq; done.
Qed.

Lemma get_Ok_iff {T} (d : list T) i x :
  get d i = Ok x ↔ 0 ≤ i ∧ d !! Z.to_nat i = Some x.
Proof.
  unfold get. destruct (decide (0 ≤ i)); [|split; [done | lia]].
  destruct (d !! Z.to_nat i); split; intros; simplify_eq; intuition congruence.
Qed.

Lemma get_in_range {T} (d : list T) i :
  0 ≤ i < len d → ∃ x, get d i = Ok x.
Proof.
  intros Hi. unfold get, len in *. rewrite decide_True by lia.
  destruct (lookup_lt_is_Some_2 d (Z.to_nat i)) as [x ->]; [lia | eauto].
Qed.

Lemma get_Ok_range {T} (d : list T) i x : get d i = Ok x → 0 ≤ i < len d.
Proof.
  rewrite get_Ok_iff. intros [? Hl]. apply lookup_lt_Some in Hl. unfold len. lia.
Qed.

Lemma set_in_range {T} (d : list T) i x :
  0 ≤ i < len d → set d i x = Ok (<[Z.to_nat i := x]> d).
Proof. intros. unfold set. by rewrite decide_True. Qed.

(** ** The comparator contract *)

Section Order.
Context {T : Type} (lt : T → T → bool) (Hlt : StrictWeakOrder lt).

Lemma swo_asym x y : lt x y = true → lt y x = false.
Proof.
  intros Hxy. destruct (lt y x) eqn:Hyx; [|done].
  rewrite <- (swo_irrefl lt Hlt x). symmetry. eauto using swo_trans.
Qed.

(** Whatever is below [y] is below everything that is not below [y]. *)
Lemma swo_lt_nlt x y z : lt x y = true → lt z y = false → lt x z = true.
Proof.
  intros Hxy Hzy. destruct (lt x z) eqn:Hxz; [done|].
  destruct (lt y z) eqn:Hyz; [by rewrite (swo_trans lt Hlt x y z) in Hxz|].
  destruct (lt z x) eqn:Hzx; [by rewrite (swo_trans lt Hlt z x y) in Hzy|].
  assert (eqv lt x y = true) as Heq.
  { apply (swo_eqv_trans lt Hlt x z y); unfold eqv; by rewrite ?Hxz, ?Hzx, ?Hzy, ?Hyz. }
  unfold eqv in Heq. by rewrite Hxy in Heq.
Qed.

Lemma swo_nlt_lt x y z : lt y x = false → lt y z = true → lt x z = true.
Proof.
  intros Hyx Hyz. destruct (lt x z) eqn:Hxz; [done|].
  destruct (lt x y) eqn:Hxy; [by rewrite (swo_trans lt Hlt x y z) in Hxz|].
  destruct (lt z x) eqn:Hzx; [by rewrite (swo_trans lt Hlt y z x) in Hyx|].
  assert (eqv lt y z = true) as Heq.
  { apply (swo_eqv_trans lt Hlt y x z); unfold eqv; by rewrite ?Hxz, ?Hzx, ?Hxy, ?Hyx. }
  unfold eqv in Heq. by rewrite Hyz in Heq.
Qed.

Lemma swo_nlt_trans x y z : lt y x = false → lt z y = false → lt z x = false.
Proof.
  intros Hyx Hzy. destruct (lt z x) eqn:Hzx; [|done].
  by rewrite (swo_lt_nlt z x y) in Hzy.
Qed.
End Order.

(** ** Pop and Peek *)

Section PopPeek.
Context {T : Type} `{Reflect T}.
Implicit Types pq : PQueue T.

(** The scan never leaves the live prefix. *)
Lemma minIdx_loop_ok pq n i m :
  wf pq → 0 ≤ m < i → i + Z.of_nat n = size pq →
  ∃ m', minIdx_loop pq n i m = Ok m' ∧ 0 ≤ m' < size pq.
Proof.
  intros Hwf. revert i m. induction n as [|n IH]; intros i m Hm Hn; simpl.
  - exists m. split; [done | lia].
  - unfold wf in Hwf.
    destruct (get_in_range (data pq) i) as [x ->]; [lia|].
    destruct (get_in_range (data pq) m) as [y ->]; [lia|]. simpl.
    apply IH; [|lia]. destruct (less pq x y); lia.
Qed.

Lemma minIdx_loop_min pq n i m m' :
  StrictWeakOrder (less pq) →
  is_first_min pq i m →
  minIdx_loop pq n i m = Ok m' →
  is_first_min pq (i + Z.of_nat n) m'.
Proof.
  intros Hlt. revert i m. induction n as [|n IH]; intros i m Hinv; simpl.
  - intros [= <-]. by replace (i + Z.of_nat 0) with i by lia.
  - intros Hloop. apply bind_Ok in Hloop as (x & Hx & Hloop).
    apply bind_Ok in Hloop as (y & Hy & Hloop).
    apply IH in Hloop; [by replace (i + Z.of_nat (S n)) with (i + 1 + Z.of_nat n) by lia|].
    destruct Hinv as (y' & Hy' & Hm & Hmin & Hfirst).
    assert (y' = y) as -> by congruence.
    destruct (less pq x y) eqn:Hxy.
    + exists x. split; [done|]. split; [apply get_Ok_range in Hx; lia|]. split.
      * intros j z Hj Hz. destruct (decide (j = i)) as [->|].
        -- assert (z = x) as -> by congruence. apply (swo_irrefl _ Hlt).
        -- apply (swo_asym _ Hlt). apply (swo_lt_nlt _ Hlt x y z); [done|].
           apply (Hmin j); [lia | done].
      * intros j z Hj Hz. apply (swo_lt_nlt _ Hlt x y z); [done|].
        apply (Hmin j); [lia | done].
    + exists y. split; [done|]. split; [lia|]. split; [|done].
      intros j z Hj Hz. destruct (decide (j = i)) as [->|].
      * by assert (z = x) as -> by congruence.
      * apply (Hmin j); [lia | done].
Qed.

Lemma is_first_min_start pq x :
  StrictWeakOrder (less pq) → get (data pq) 0 = Ok x → is_first_min pq 1 0.
Proof.
  intros Hlt Hx. exists x. split; [done|]. split; [lia|]. split.
  - intros j y Hj Hy. assert (j = 0) as -> by lia.
    assert (y = x) as -> by congruence. apply (swo_irrefl _ Hlt).
  - intros; lia.
Qed.

(** C2. [Pop] on a non-empty queue returns the comparator-minimal element
    that occurs first in the buffer, overwrites its slot with the last live
    element and decrements the size by one; on an empty queue it returns
    the empty-queue error. *)
Theorem Pop_returns_first_minimum pq :
  StrictWeakOrder (less pq) → wf pq →
  (size pq = 0 → ∃ e, Pop pq = Ok ((zero, Some e), pq) ∧ e = errQueueEmpty) ∧
  (size pq ≠ 0 →
     ∃ m x last,
       get (data pq) m = Ok x ∧ 0 ≤ m < size pq ∧
       (∀ j y, 0 ≤ j < size pq → get (data pq) j = Ok y → less pq y x = false) ∧
       (∀ j y, 0 ≤ j < m → get (data pq) j = Ok y → less pq x y = true) ∧
       get (data pq) (size pq - 1) = Ok last ∧
       Pop pq = Ok ((x, None),
                    mkPQueue (<[Z.to_nat m := last]> (data pq))
                             (less pq) (dataType pq) (size pq - 1))).
Proof.
  intros Hlt Hwf. split; intros Hsz; unfold Pop.
  - rewrite decide_True by done. eauto.
  - rewrite decide_False by done. unfold wf in Hwf.
    destruct (minIdx_loop_ok pq (Z.to_nat (size pq - 1)) 1 0) as (m & Hloop & Hm);
      [done | lia | lia |].
    destruct (get_in_range (data pq) 0) as [x0 Hx0]; [lia|].
    pose proof (minIdx_loop_min pq _ 1 0 m Hlt (is_first_min_start pq x0 Hlt Hx0) Hloop)
      as (x & Hx & _ & Hmin & Hfirst).
    replace (1 + Z.of_nat (Z.to_nat (size pq - 1))) with (size pq) in Hmin by lia.
    destruct (get_in_range (data pq) (size pq - 1)) as [last Hlast]; [lia|].
    exists m, x, last. rewrite Hloop. simpl. rewrite Hx, Hlast. simpl.
    rewrite set_in_range by lia. simpl. done.
Qed.

End PopPeek.

Lemma Z_ltb_swo : StrictWeakOrder Z.ltb.
Proof.
  split; unfold eqv; intros; repeat
    match goal with
    | H : _ && _ = true |- _ => apply andb_true_iff in H as [? ?]
    | H : negb _ = true |- _ => apply negb_true_iff in H
    | |- _ && _ = true => apply andb_true_iff; split
    | |- negb _ = true => apply negb_true_iff
    end; lia.
Qed.

Lemma Pop_returns_first_minimum_witness :
  ∃ x pq', Pop (NewInts [6; 5; 4; 9; 2; 7; 1; 8]) = Ok ((x, None), pq') ∧
    size pq' = 7 ∧
    ∀ y, y ∈ [6; 5; 4; 9; 2; 7; 1; 8] → (y <? x) = false.
Proof.
  destruct (Pop_returns_first_minimum (NewInts [6; 5; 4; 9; 2; 7; 1; 8]))
    as [_ Hpop]; [apply Z_ltb_swo | by vm_compute |].
  destruct Hpop as (m & x & last & Hx & Hm & Hmin & Hfirst & Hlast & ->);
    [by vm_compute|].
  exists x. eexists. split; [reflexivity|]. split; [reflexivity|].
  intros y Hy. apply list_elem_of_lookup_1 in Hy as [j Hj].
  apply (Hmin (Z.of_nat j)).
  - apply lookup_lt_Some in Hj. simpl in Hj.
    change (size (NewInts [6; 5; 4; 9; 2; 7; 1; 8])) with 8. lia.
  - apply get_Ok_iff. rewrite Nat2Z.id. split; [lia | exact Hj].
Defined.


(** ** The live prefix *)

Lemma live_length {T} (pq : PQueue T) : wf pq → len (live pq) = size pq.
Proof. unfold wf, live, len. rewrite length_take. lia. Qed.

Lemma live_lookup {T} (pq : PQueue T) (k : nat) x :
  live pq !! k = Some x → get (data pq) (Z.of_nat k) = Ok x.
Proof.
  unfold live. intros Hk. apply get_Ok_iff. split; [lia|].
  rewrite Nat2Z.id. apply lookup_take_Some in Hk. tauto.
Qed.

Lemma get_live {T} (pq : PQueue T) j x :
  0 ≤ j < size pq → get (data pq) j = Ok x → live pq !! Z.to_nat j = Some x.
Proof.
  intros Hj Hx. apply get_Ok_iff in Hx as [_ Hx]. unfold live.
  rewrite lookup_take_lt by lia. done.
Qed.

(** ** Near-sortedness *)

Section NearlySorted.
Context {T : Type} (lt : T → T → bool).

Lemma adjacent_inversions_nonneg (l : list T) : 0 ≤ adjacent_inversions lt l.
Proof.
  induction l as [|x [|y l] IH]; simpl in *; [lia | lia |].
  destruct (lt y x); lia.
Qed.

Lemma isNearlySorted_loop_spec (d : list T) threshold rest :
  ∀ x i inversions,
    0 ≤ i →
    (∀ (k : nat) y, (x :: rest) !! k = Some y → get d (i + Z.of_nat k) = Ok y) →
    inversions ≤ threshold →
    isNearlySorted_loop lt (length rest) d threshold i inversions =
      Ok (bool_decide (inversions + adjacent_inversions lt (x :: rest) ≤ threshold)).
Proof.
  induction rest as [|y rest IH]; intros x i inv Hi Hget Hinv.
  - simpl. rewrite bool_decide_eq_true_2 by lia. done.
  - cbn [length isNearlySorted_loop].
    assert (get d (i + 1) = Ok y) as -> by apply (Hget 1%nat y eq_refl).
    assert (get d i = Ok x) as ->.
    { pose proof (Hget 0%nat x eq_refl) as Hx. by rewrite Z.add_0_r in Hx. }
    cbn [mbind res_mbind res_bind].
    pose proof (adjacent_inversions_nonneg (y :: rest)) as Hnn.
    assert (∀ (k : nat) z, (y :: rest) !! k = Some z →
              get d (i + 1 + Z.of_nat k) = Ok z) as Hget'.
    { intros k z Hk. replace (i + 1 + Z.of_nat k) with (i + Z.of_nat (S k)) by lia.
      by apply Hget. }
    change (adjacent_inversions lt (x :: y :: rest))
      with ((if lt y x then 1 else 0) + adjacent_inversions lt (y :: rest)).
    destruct (lt y x).
    + destruct (decide (threshold < inv + 1)).
      * rewrite bool_decide_eq_false_2 by lia. done.
      * rewrite (IH y (i + 1) (inv + 1)) by (done || lia).
        apply (f_equal Ok), bool_decide_ext. lia.
    + rewrite (IH y (i + 1) inv) by (done || lia).
      apply (f_equal Ok), bool_decide_ext. lia.
Qed.

End NearlySorted.

Lemma isNearlySorted_near_sorted {T} `{Reflect T} (pq : PQueue T) :
  wf pq → isNearlySorted pq = Ok (near_sorted (less pq) (live pq)).
Proof.
  intros Hwf. pose proof (live_length pq Hwf) as Hlen.
  unfold isNearlySorted, isNearlySortedData, near_sorted.
  destruct (decide (size pq ≤ 1)) as [Hsmall|Hbig].
  - apply (f_equal Ok). symmetry. apply bool_decide_eq_true_2.
    destruct (live pq) as [|x [|y l]]; simpl; [lia | lia |].
    unfold len in Hlen. simpl in Hlen. lia.
  - rewrite Hlen.
    destruct (live pq) as [|x rest] eqn:Hlive; [unfold len in Hlen; simpl in Hlen; lia|].
    replace (Z.to_nat (size pq - 1)) with (length rest)
      by (unfold len in Hlen; simpl in Hlen; lia).
    rewrite (isNearlySorted_loop_spec (less pq) (data pq) _ rest x 0 0).
    + apply (f_equal Ok), bool_decide_ext.
      assert (0 ≤ size pq `quot` 10) by (apply Z.quot_pos; lia).
      destruct (decide (size pq `quot` 10 < 1)); lia.
    + lia.
    + intros k y Hk. rewrite <- Hlive in Hk. rewrite Z.add_0_l.
      by apply live_lookup.
    + destruct (decide (size pq `quot` 10 < 1)); lia.
Qed.

(** C9. The nearly-sorted test answers [true] exactly when the number of
    adjacent inversions of the live prefix is at most [max(1, n/10)]
    (integer division); a queue of at most one element is always
    near-sorted. *)
Theorem isNearlySorted_counts_inversions {T} `{Reflect T} (pq : PQueue T) :
  wf pq →
  isNearlySorted pq = Ok (near_sorted (less pq) (live pq)) ∧
  (size pq ≤ 1 → isNearlySorted pq = Ok true).
Proof.
  intros Hwf. split; [by apply isNearlySorted_near_sorted|].
  intros Hsmall. unfold isNearlySorted, isNearlySortedData.
  by rewrite decide_True.
Qed.

Lemma isNearlySorted_counts_inversions_witness :
  isNearlySorted (NewInts [1; 2; 3; 5; 4; 6; 7]) = Ok true ∧
  adjacent_inversions Z.ltb [1; 2; 3; 5; 4; 6; 7] = 1.
Proof.
  destruct (isNearlySorted_counts_inversions (NewInts [1; 2; 3; 5; 4; 6; 7]))
    as [-> _]; [by vm_compute|].
  split; reflexivity.
Defined.

(** ** Minimum and maximum of an integer queue *)

Section MinMax.
Context {T : Type} `{Reflect T}.

Lemma getMinMaxInt_loop_spec (d : list T) rest :
  ∀ i mn mx,
    (∀ (k : nat) y, rest !! k = Some y → get d (i + Z.of_nat k) = Ok y) →
    all_ints rest →
    getMinMaxInt_loop (length rest) d i mn mx =
      Ok (foldl Z.min mn (int_values rest), foldl Z.max mx (int_values rest)).
Proof.
  induction rest as [|x rest IH]; intros i mn mx Hget Hints; [done|].
  cbn [length getMinMaxInt_loop].
  assert (get d i = Ok x) as ->.
  { pose proof (Hget 0%nat x eq_refl) as Hx. by rewrite Z.add_0_r in Hx. }
  apply Forall_cons in Hints as [[v Hv] Hints].
  unfold int_values. cbn [mbind res_mbind res_bind omap list_omap].
  rewrite Hv. cbn [of_option foldl mbind res_mbind res_bind].
  rewrite IH; [|intros k y Hk;
    replace (i + 1 + Z.of_nat k) with (i + Z.of_nat (S k)) by lia; by apply Hget|done].
  unfold int_values. do 2 f_equal; f_equal.
  - destruct (decide (v < mn)); lia.
  - destruct (decide (mx < v)); lia.
Qed.

Lemma getMinMaxInt_spec (pq : PQueue T) :
  wf pq → all_ints (live pq) →
  getMinMaxInt pq =
    Ok (min_value (int_values (live pq)), max_value (int_values (live pq))).
Proof.
  intros Hwf Hints. pose proof (live_length pq Hwf) as Hlen.
  unfold getMinMaxInt. destruct (live pq) as [|x rest] eqn:Hlive.
  - unfold len in Hlen. simpl in Hlen. by rewrite decide_True by lia.
  - unfold len in Hlen. simpl in Hlen. rewrite decide_False by lia.
    assert (∀ (k : nat) y, (x :: rest) !! k = Some y →
              get (data pq) (Z.of_nat k) = Ok y) as Hget.
    { intros k y Hk. rewrite <- Hlive in Hk. by apply live_lookup. }
    assert (get (data pq) 0 = Ok x) as -> by apply (Hget 0%nat x eq_refl).
    pose proof Hints as Hints'. apply Forall_cons in Hints' as [[v Hv] Hrest].
    cbn [mbind res_mbind res_bind]. rewrite Hv. cbn [of_option mbind res_mbind res_bind].
    replace (Z.to_nat (size pq - 1)) with (length rest) by lia.
    rewrite getMinMaxInt_loop_spec; [|intros k y Hk;
      replace (1 + Z.of_nat k) with (Z.of_nat (S k)) by lia; by apply Hget|done].
    unfold int_values. cbn [omap list_omap]. rewrite Hv. done.
Qed.

Lemma hasSmallRange_spec (pq : PQueue T) :
  wf pq → all_ints (live pq) → dataType pq = IntegerType → size pq ≠ 0 →
  hasSmallRange pq = Ok (bool_decide (value_range (live pq) ≤ 1000)).
Proof.
  intros Hwf Hints Htag Hsz. unfold hasSmallRange.
  rewrite decide_False by (intros [?|?]; done).
  by rewrite getMinMaxInt_spec.
Qed.

End MinMax.

(** ** Strategy selection *)



(** ** Radix sort on non-positive integers *)

Section RadixNonPositive.
Context {T : Type} `{Reflect T}.

Lemma getMaxInt_kind_signed k : getMaxInt_kind k = true → signed_kind k = true.
Proof. by destruct k. Qed.

Lemma getMaxInt_loop_nonpositive (d : list T) rest :
  ∀ i,
    (∀ (k : nat) y, rest !! k = Some y → get d (i + Z.of_nat k) = Ok y) →
    (∀ x v, x ∈ rest → valueInt x = Some v → v ≤ 0) →
    getMaxInt_loop (length rest) d i 0 = Ok 0.
Proof.
  induction rest as [|x rest IH]; intros i Hget Hle; [done|].
  cbn [length getMaxInt_loop].
  assert (get d i = Ok x) as ->.
  { pose proof (Hget 0%nat x eq_refl) as Hx. by rewrite Z.add_0_r in Hx. }
  assert (getMaxInt_loop (length rest) d (i + 1) 0 = Ok 0) as Hrest.
  { apply IH.
    - intros k y Hk. replace (i + 1 + Z.of_nat k) with (i + Z.of_nat (S k)) by lia.
      by apply Hget.
    - intros y v Hy. apply Hle. by right. }
  cbn [mbind res_mbind res_bind].
  destruct (getMaxInt_kind (kindOf x)) eqn:Hkind; [|done].
  apply getMaxInt_kind_signed, valueInt_kind in Hkind as [v Hv].
  rewrite Hv. cbn [of_option mbind res_mbind res_bind].
  rewrite decide_False; [done|]. pose proof (Hle x v ltac:(by left) Hv). lia.
Qed.

Lemma getMaxInt_nonpositive (pq : PQueue T) :
  wf pq →
  (∀ x v, x ∈ live pq → valueInt x = Some v → v ≤ 0) →
  getMaxInt pq = Ok 0.
Proof.
  intros Hwf Hle. unfold getMaxInt. destruct (decide (size pq = 0)); [done|].
  pose proof (live_length pq Hwf) as Hlen.
  replace (Z.to_nat (size pq)) with (length (live pq)) by (unfold len in Hlen; lia).
  apply getMaxInt_loop_nonpositive; [|done].
  intros k y Hk. rewrite Z.add_0_l. by apply live_lookup.
Qed.

(** C10. On an integer-tagged queue whose values are all at most zero,
    [SortWithStrategy(Radix)] returns with the buffer and the size as they
    were: the maximum is computed starting from zero, and no digit pass is
    made when it is not positive. *)
Theorem radix_nonpositive_unchanged (pq : PQueue T) :
  wf pq →
  dataType pq = IntegerType →
  (∀ x v, x ∈ live pq → valueInt x = Some v → v ≤ 0) →
  SortWithStrategy RadixStrategy pq = Ok pq.
Proof.
  intros Hwf Htag Hle. unfold SortWithStrategy.
  destruct (decide (size pq ≤ 1)); [done|].
  destruct (decide (RadixStrategy = AutoStrategy)); [discriminate|].
  cbn [mbind res_mbind res_bind].
  rewrite decide_True by done. unfold radixSort.
  rewrite decide_False by (intros Hne; by apply Hne).
  rewrite getMaxInt_nonpositive by done. cbn [mbind res_mbind res_bind].
  rewrite decide_True by lia. by destruct pq.
Qed.

End RadixNonPositive.

Lemma radix_nonpositive_unchanged_witness :
  SortWithStrategy RadixStrategy (NewInts [-3; -1; -4; 0; -2]) =
    Ok (NewInts [-3; -1; -4; 0; -2]).
Proof.
  apply radix_nonpositive_unchanged; [by vm_compute | done |].
  intros x v Hx [= <-]. change (live (NewInts [-3; -1; -4; 0; -2]))
    with [-3; -1; -4; 0; -2] in Hx.
  rewrite !elem_of_cons in Hx.
  destruct Hx as [->|[->|[->|[->|[->|Hx]]]]]; [lia..|by apply elem_of_nil in Hx].
Defined.

(** ** Inputs on which the engine departs from the specification *)

Lemma lessByValue_swo : StrictWeakOrder lessByValue.
Proof.
  split; unfold eqv, lessByValue; intros; repeat
    match goal with
    | H : _ && _ = true |- _ => apply andb_true_iff in H as [? ?]
    | H : negb _ = true |- _ => apply negb_true_iff in H
    | |- _ && _ = true => apply andb_true_iff; split
    | |- negb _ = true => apply negb_true_iff
    end; lia.
Qed.

Lemma Z_gtb_swo : StrictWeakOrder Z.gtb.
Proof.
  split; unfold eqv; intros; repeat
    match goal with
    | H : _ && _ = true |- _ => apply andb_true_iff in H as [? ?]
    | H : negb _ = true |- _ => apply negb_true_iff in H
    | |- _ && _ = true => apply andb_true_iff; split
    | |- negb _ = true => apply negb_true_iff
    end; lia.
Qed.

(** C1. The natural order on [int] is a strict weak order, but [Sort] on
    101 non-positive integers that are not nearly sorted and span more
    than 1000 selects Radix, which returns at once: the live prefix is left
    as it was, with [-2000] right after [-1]. *)
Theorem Sort_leaves_negatives_unsorted :
  StrictWeakOrder Z.ltb ∧
  chooseOptimalStrategy (NewInts alternating_negatives) = Ok RadixStrategy ∧
  Sort (NewInts alternating_negatives) = Ok (NewInts alternating_negatives) ∧
  live (NewInts alternating_negatives) = alternating_negatives ∧
  ¬ sorted_by Z.ltb alternating_negatives.
Proof.
  split; [apply Z_ltb_swo|]. split; [by vm_compute|]. split; [by vm_compute|].
  split; [by vm_compute|]. intros [Hinv _]. discriminate Hinv.
Qed.

(** C4, counterexample. Timsort-lite is not stable: a descending run is
    extended over equal keys and then reversed, which swaps the two records
    with key 5. *)
Lemma timsort_not_stable :
  StrictWeakOrder lessByValue ∧
  ∃ pq', SortWithStrategy TimsortStrategy (New tied_run_items lessByValue) = Ok pq' ∧
    ¬ stable lessByValue tied_run_items (live pq').
Proof.
  split; [apply lessByValue_swo|]. eexists. split; [by vm_compute|].
  intros Hstable. specialize (Hstable (mkItem 5 0)). vm_compute in Hstable.
  discriminate Hstable.
Qed.


(** ** Slices seen as concatenations *)

Ltac res_simpl := cbn [mbind res_mbind res_bind of_option].

(** Arithmetic on lengths of concatenations. *)
Ltac len_lia :=
  unfold len in *;
  repeat rewrite ?length_app, ?length_cons, ?length_nil, ?length_take,
    ?length_drop, ?length_insert, ?length_replicate, ?length_reverse in *;
  cbn [length] in *; lia.

Lemma len_app {T} (l1 l2 : list T) : len (l1 ++ l2) = len l1 + len l2.
Proof. unfold len. rewrite length_app. lia. Qed.

Lemma len_cons {T} (x : T) (l : list T) : len (x :: l) = 1 + len l.
Proof. unfold len. simpl. lia. Qed.

Lemma len_nil {T} : len (@nil T) = 0.
Proof. done. Qed.

Lemma len_nonneg {T} (l : list T) : 0 ≤ len l.
Proof. unfold len. lia. Qed.

Lemma get_app_mid {T} (pre post : list T) x i :
  i = len pre → get (pre ++ x :: post) i = Ok x.
Proof.
  intros ->. apply get_Ok_iff. split; [apply len_nonneg|].
  unfold len. rewrite Nat2Z.id. by apply list_lookup_middle.
Qed.

Lemma set_app_mid {T} (pre post : list T) x y i :
  i = len pre → set (pre ++ x :: post) i y = Ok (pre ++ y :: post).
Proof.
  intros ->. rewrite set_in_range.
  - unfold len. rewrite Nat2Z.id. f_equal.
    rewrite insert_app_r_alt by lia. by rewrite Nat.sub_diag.
  - rewrite len_app, len_cons. pose proof (len_nonneg pre). pose proof (len_nonneg post). lia.
Qed.

Lemma swap_same {T} (d : list T) i : 0 ≤ i < len d → swap d i i = Ok d.
Proof.
  intros Hi. unfold swap. destruct (get_in_range d i Hi) as [x Hx]. rewrite Hx.
  res_simpl. rewrite set_in_range by done. res_simpl.
  apply get_Ok_iff in Hx as [_ Hx].
  rewrite set_in_range by (unfold len in *; rewrite length_insert; done).
  by rewrite list_insert_insert_eq, list_insert_id.
Qed.

(** ** Insertion sort *)

Section Insertion.
Context {T : Type} (lt : T → T → bool).

Lemma insert_last_nil key : insert_last lt key [] = [key].
Proof. done. Qed.

Lemma insert_last_snoc key l x :
  insert_last lt key (l ++ [x]) =
    if lt key x then insert_last lt key l ++ [x] else l ++ [x; key].
Proof.
  unfold insert_last. rewrite reverse_snoc. simpl. destruct (lt key x).
  - by rewrite reverse_cons.
  - rewrite !reverse_cons, reverse_involutive. by rewrite <- app_assoc.
Qed.

Lemma insert_last_length key l : length (insert_last lt key l) = S (length l).
Proof.
  induction l as [|x l IH] using rev_ind; [done|].
  rewrite insert_last_snoc. destruct (lt key x); rewrite !length_app; simpl; lia.
Qed.

(** The inner loop followed by [data[j+1] = key]. *)
Lemma shift_loop_spec key low l :
  ∀ pre hole post fuel,
    low = len pre → (length l < fuel)%nat →
    ∃ d1 j,
      shift_loop lt fuel key low (pre ++ l ++ hole :: post) (low + len l - 1) = Ok (d1, j) ∧
      set d1 (j + 1) key = Ok (pre ++ insert_last lt key l ++ post).
Proof.
  induction l as [|x l IH] using rev_ind; intros pre hole post fuel Hlow Hfuel.
  - destruct fuel as [|fuel]; [simpl in Hfuel; lia|]. simpl.
    rewrite decide_False by (rewrite len_nil; lia).
    eexists _, _. split; [done|]. rewrite len_nil.
    apply set_app_mid. lia.
  - destruct fuel as [|fuel]; [lia|]. rewrite length_app in Hfuel. simpl in Hfuel.
    cbn [shift_loop]. rewrite len_app, len_cons, len_nil.
    rewrite decide_True by (pose proof (len_nonneg l); lia).
    rewrite <- (app_assoc l [x]). simpl.
    rewrite (app_assoc pre l).
    rewrite get_app_mid by len_lia. res_simpl.
    rewrite insert_last_snoc. destruct (lt key x).
    + destruct (IH pre x (x :: post) fuel Hlow ltac:(lia)) as (d1 & j & Hloop & Hset).
      exists d1, j. split.
      * replace ((pre ++ l) ++ x :: hole :: post)
          with (((pre ++ l) ++ [x]) ++ hole :: post) by (by rewrite <- !app_assoc).
        rewrite set_app_mid by len_lia. res_simpl.
        rewrite <- Hloop. f_equal; [by rewrite <- !app_assoc | lia].
      * rewrite Hset. by rewrite <- !app_assoc.
    + eexists _, _. split; [done|].
      replace ((pre ++ l) ++ x :: hole :: post)
        with (((pre ++ l) ++ [x]) ++ hole :: post) by (by rewrite <- !app_assoc).
      rewrite set_app_mid by len_lia.
      by rewrite <- !app_assoc.
Qed.

Lemma insertion_loop_spec low rest :
  ∀ pre acc post,
    low = len pre →
    insertion_loop lt low (length rest) (low + len acc) (pre ++ acc ++ rest ++ post) =
      Ok (pre ++ foldl (λ a x, insert_last lt x a) acc rest ++ post).
Proof.
  induction rest as [|key rest IH]; intros pre acc post Hlow; [done|].
  cbn [length insertion_loop foldl].
  rewrite (app_assoc pre acc), <- app_comm_cons.
  rewrite get_app_mid by len_lia. res_simpl.
  rewrite <- (app_assoc pre acc).
  destruct (shift_loop_spec key low acc pre key (rest ++ post)
              (S (Z.to_nat (low + len acc - low))) Hlow) as (d1 & j & Hloop & Hset).
  { unfold len. lia. }
  rewrite Hloop. res_simpl. rewrite Hset. res_simpl.
  specialize (IH pre (insert_last lt key acc) post Hlow).
  replace (low + len (insert_last lt key acc)) with (low + len acc + 1) in IH
    by (unfold len; rewrite insert_last_length; lia).
  exact IH.
Qed.

Lemma insertionSortRange_spec (pre seg post : list T) low high :
  low = len pre → high = low + len seg - 1 →
  insertionSortRange lt low high (pre ++ seg ++ post) =
    Ok (pre ++ isort lt seg ++ post).
Proof.
  intros Hlow Hhigh. unfold insertionSortRange, isort.
  destruct seg as [|x seg]; [rewrite len_nil in Hhigh; by replace (high - low) with (-1) by lia|].
  rewrite len_cons in Hhigh.
  replace (Z.to_nat (high - low)) with (length seg) by (unfold len in *; lia).
  pose proof (insertion_loop_spec low seg pre [x] post Hlow) as Hloop.
  rewrite len_cons, len_nil in Hloop.
  replace (low + (1 + 0)) with (low + 1) in Hloop by lia. exact Hloop.
Qed.

Lemma insertionSortData_spec (d : list T) sz :
  0 ≤ sz ≤ len d →
  insertionSortData lt sz d =
    Ok (isort lt (take (Z.to_nat sz) d) ++ drop (Z.to_nat sz) d).
Proof.
  intros Hsz. unfold insertionSortData.
  pose proof (insertionSortRange_spec [] (take (Z.to_nat sz) d) (drop (Z.to_nat sz) d)
                0 (sz - 1) eq_refl) as Hspec.
  unfold insertionSortRange in Hspec. simpl in Hspec. rewrite take_drop in Hspec.
  replace (sz - 1 - 0) with (sz - 1) in Hspec by lia. apply Hspec.
  unfold len in *. rewrite length_take. lia.
Qed.

End Insertion.

(** ** Sortedness *)

Section Sorted.
Context {T : Type} (lt : T → T → bool).

Lemma sorted_by_cons x l :
  sorted_by lt (x :: l) ↔ (∀ y, head l = Some y → lt y x = false) ∧ sorted_by lt l.
Proof.
  destruct l as [|y l]; simpl.
  - split; [intros _; split; [intros ? [=] | done] | done].
  - split.
    + intros [Hyx Hs]. split; [by intros ? [= <-] | done].
    + intros [Hyx Hs]. split; [by apply Hyx | done].
Qed.

Lemma sorted_by_app_r l1 l2 : sorted_by lt (l1 ++ l2) → sorted_by lt l2.
Proof.
  induction l1 as [|x l1 IH]; [done|]. rewrite <- app_comm_cons.
  rewrite sorted_by_cons. intros [_ Hs]. by apply IH.
Qed.

Lemma sorted_by_app_l l1 l2 : sorted_by lt (l1 ++ l2) → sorted_by lt l1.
Proof.
  induction l1 as [|x l1 IH]; [done|]. rewrite <- app_comm_cons.
  rewrite !sorted_by_cons. intros [Hhd Hs]. split; [|by apply IH].
  intros y Hy. apply Hhd. destruct l1; [done|]. exact Hy.
Qed.

Lemma sorted_by_middle l1 x y l2 :
  sorted_by lt (l1 ++ x :: y :: l2) → lt y x = false.
Proof. intros Hs. apply sorted_by_app_r in Hs. simpl in Hs. tauto. Qed.

Lemma sorted_by_no_inversions l : sorted_by lt l → adjacent_inversions lt l = 0.
Proof.
  induction l as [|x [|y l] IH]; [done..|].
  intros [Hyx Hs]. change (adjacent_inversions lt (x :: y :: l))
    with ((if lt y x then 1 else 0) + adjacent_inversions lt (y :: l)).
  rewrite Hyx, IH by done. done.
Qed.

Lemma sorted_by_near_sorted l : sorted_by lt l → near_sorted lt l = true.
Proof.
  intros Hs. unfold near_sorted. rewrite sorted_by_no_inversions by done.
  apply bool_decide_eq_true_2. lia.
Qed.

(** Under the comparator contract a sorted list is sorted pairwise. *)
Lemma sorted_by_pairwise (Hlt : StrictWeakOrder lt) l (i j : nat) x y :
  sorted_by lt l → (i ≤ j)%nat → l !! i = Some x → l !! j = Some y → lt y x = false.
Proof.
  revert i j x y. induction l as [|a l IH]; intros i j x y Hs Hij Hi Hj; [done|].
  apply sorted_by_cons in Hs as [Hhd Hs].
  destruct i as [|i].
  - simpl in Hi. injection Hi as ->.
    destruct j as [|j]; [injection Hj as ->; apply (swo_irrefl _ Hlt)|].
    simpl in Hj. destruct l as [|b l]; [done|].
    apply (swo_nlt_trans lt Hlt x b y); [by apply Hhd|].
    apply (IH 0%nat j b y); [done | lia | done | done].
  - destruct j as [|j]; [lia|]. apply (IH i j); [done | lia | done | done].
Qed.

End Sorted.

(** ** Insertion sort on lists *)

Section InsertionList.
Context {T : Type} (lt : T → T → bool).

Lemma insert_last_perm key l : insert_last lt key l ≡ₚ key :: l.
Proof.
  induction l as [|x l IH] using rev_ind; [done|].
  rewrite insert_last_snoc. destruct (lt key x).
  - rewrite IH. done.
  - change [x; key] with ([x] ++ [key]). rewrite app_assoc.
    symmetry. apply Permutation_cons_append.
Qed.

Lemma isort_acc_perm acc rest :
  foldl (λ a x, insert_last lt x a) acc rest ≡ₚ acc ++ rest.
Proof.
  revert acc. induction rest as [|x rest IH]; intros acc; simpl.
  - by rewrite app_nil_r.
  - rewrite IH, insert_last_perm. simpl. apply Permutation_middle.
Qed.

Lemma isort_perm l : isort lt l ≡ₚ l.
Proof. apply isort_acc_perm. Qed.

Lemma isort_length l : length (isort lt l) = length l.
Proof. apply Permutation_length, isort_perm. Qed.

(** A sorted list is left as it is. *)
Lemma isort_acc_sorted acc rest :
  sorted_by lt (acc ++ rest) →
  foldl (λ a x, insert_last lt x a) acc rest = acc ++ rest.
Proof.
  revert acc. induction rest as [|key rest IH]; intros acc Hs; simpl.
  - by rewrite app_nil_r.
  - assert (insert_last lt key acc = acc ++ [key]) as ->.
    { destruct acc as [|y acc _] using rev_ind; [done|].
      rewrite insert_last_snoc. rewrite <- app_assoc in Hs. simpl in Hs.
      rewrite (sorted_by_middle lt _ _ _ _ Hs). by rewrite <- app_assoc. }
    rewrite IH; rewrite <- app_assoc; done.
Qed.

Lemma isort_sorted_id l : sorted_by lt l → isort lt l = l.
Proof. intros Hs. by apply (isort_acc_sorted []). Qed.

Context (Hlt : StrictWeakOrder lt).

Lemma eqv_sym x y : eqv lt x y = eqv lt y x.
Proof. unfold eqv. apply andb_comm. Qed.

Lemma eqv_not_lt x a b :
  eqv lt x a = true → eqv lt x b = true → lt a b = false.
Proof.
  intros Ha Hb. rewrite eqv_sym in Ha.
  pose proof (swo_eqv_trans lt Hlt a x b Ha Hb) as Hab.
  unfold eqv in Hab. apply andb_true_iff in Hab as [Hab _].
  by apply negb_true_iff in Hab.
Qed.

Lemma insert_last_filter x key l :
  List.filter (eqv lt x) (insert_last lt key l) = List.filter (eqv lt x) (l ++ [key]).
Proof.
  induction l as [|y l IH] using rev_ind; [done|].
  rewrite insert_last_snoc. destruct (lt key y) eqn:Hky; [|by rewrite <- app_assoc].
  rewrite !List.filter_app, IH, List.filter_app, <- !app_assoc. f_equal.
  simpl. destruct (eqv lt x key) eqn:Hk, (eqv lt x y) eqn:Hy; try done.
  by rewrite (eqv_not_lt x key y) in Hky.
Qed.

Lemma isort_acc_filter x acc rest :
  List.filter (eqv lt x) (foldl (λ a y, insert_last lt y a) acc rest) =
    List.filter (eqv lt x) (acc ++ rest).
Proof.
  revert acc. induction rest as [|key rest IH]; intros acc; simpl.
  - by rewrite app_nil_r.
  - rewrite IH, !List.filter_app, insert_last_filter, List.filter_app.
    rewrite <- app_assoc. f_equal. simpl. by destruct (eqv lt x key).
Qed.

Lemma isort_stable l : stable lt l (isort lt l).
Proof. intros x. apply (isort_acc_filter x []). Qed.

End InsertionList.

(** ** Rearrangements within a range *)

Section PermIn.
Context {T : Type}.
Implicit Types d : list T.

Lemma perm_in_refl a b d : perm_in a b d d.
Proof. done. Qed.

Lemma perm_in_trans a b d1 d2 d3 :
  perm_in a b d1 d2 → perm_in a b d2 d3 → perm_in a b d1 d3.
Proof.
  intros (Ht1 & Hd1 & Hp1) (Ht2 & Hd2 & Hp2). split; [congruence|].
  split; [congruence|]. by rewrite Hp2.
Qed.

Lemma perm_in_length a b d d' : perm_in a b d d' → length d' = length d.
Proof. intros (_ & _ & Hp). by apply Permutation_length. Qed.

Lemma perm_in_weaken a b a' b' d d' :
  (a' ≤ a)%nat → (b ≤ b')%nat → perm_in a b d d' → perm_in a' b' d d'.
Proof.
  intros Ha Hb (Ht & Hd & Hp). split; [|split; [|done]].
  - replace a' with (a' `min` a)%nat by lia. by rewrite <- !take_take, Ht.
  - replace b' with (b + (b' - b))%nat by lia. by rewrite <- !drop_drop, Hd.
Qed.

Lemma perm_in_prefix n d d' : perm_in 0 n d d' → take n d' ≡ₚ take n d.
Proof.
  intros (_ & Hd & Hp). apply (Permutation_app_inv_r (drop n d)).
  rewrite take_drop. rewrite <- Hd at 1. by rewrite take_drop.
Qed.

Lemma perm_in_take_drop n d d' :
  perm_in 0 n d d' → d' = take n d' ++ drop n d.
Proof. intros (_ & Hd & _). by rewrite <- Hd, take_drop. Qed.

Lemma swap_Ok d i j :
  0 ≤ i < len d → 0 ≤ j < len d →
  ∃ x y, d !! Z.to_nat i = Some x ∧ d !! Z.to_nat j = Some y ∧
    swap d i j = Ok (<[Z.to_nat j := x]> (<[Z.to_nat i := y]> d)).
Proof.
  intros Hi Hj. unfold swap.
  destruct (get_in_range d i Hi) as [x Hx], (get_in_range d j Hj) as [y Hy].
  rewrite Hx, Hy. res_simpl. rewrite set_in_range by done. res_simpl.
  rewrite set_in_range by len_lia.
  apply get_Ok_iff in Hx as [_ Hx]. apply get_Ok_iff in Hy as [_ Hy]. eauto.
Qed.

Lemma insert_swap_perm d (i j : nat) x y :
  (i < j)%nat → d !! i = Some x → d !! j = Some y →
  <[j := x]> (<[i := y]> d) ≡ₚ d.
Proof.
  intros Hij Hx Hy.
  rewrite <- (take_drop_middle d i x Hx) at 2.
  rewrite <- (take_drop_middle d i x Hx) at 1.
  assert (length (take i d) = i) as Hlen.
  { rewrite length_take. apply lookup_lt_Some in Hx. lia. }
  rewrite insert_app_r_alt, Hlen, Nat.sub_diag by lia. simpl.
  rewrite insert_app_r_alt by lia. rewrite Hlen.
  destruct (j - i)%nat as [|k] eqn:Hk; [lia|]. simpl.
  assert (drop (S i) d !! k = Some y) as Hy'.
  { rewrite lookup_drop. rewrite <- Hy. f_equal. lia. }
  rewrite <- (take_drop_middle _ k y Hy') at 2.
  rewrite <- (take_drop_middle _ k y Hy') at 1.
  assert (length (take k (drop (S i) d)) = k) as Hlen'.
  { rewrite length_take. apply lookup_lt_Some in Hy'. lia. }
  rewrite insert_app_r_alt, Hlen', Nat.sub_diag by lia. simpl.
  apply Permutation_app_head.
  rewrite (Permutation_middle _ _ x), (Permutation_middle _ _ y).
  apply Permutation_app_head, perm_swap.
Qed.

Lemma swap_perm_in (a b : nat) d i j :
  Z.of_nat a ≤ i < Z.of_nat b → Z.of_nat a ≤ j < Z.of_nat b → Z.of_nat b ≤ len d →
  ∃ d', swap d i j = Ok d' ∧ perm_in a b d d'.
Proof.
  intros Hi Hj Hb.
  destruct (swap_Ok d i j) as (x & y & Hx & Hy & ->); [lia..|].
  eexists. split; [done|]. split; [|split].
  - rewrite !take_insert_ge by lia. done.
  - rewrite !drop_insert_lt by lia. done.
  - destruct (decide (Z.to_nat i = Z.to_nat j)) as [Heq|Hne].
    + rewrite Heq in *. rewrite list_insert_insert_eq.
      assert (x = y) as -> by congruence. by rewrite list_insert_id.
    + destruct (decide (Z.to_nat i < Z.to_nat j)%nat).
      * by apply insert_swap_perm.
      * rewrite list_insert_insert_ne by done. apply insert_swap_perm; [lia|done..].
Qed.

End PermIn.

(** ** Quicksort *)

Section Quick.
Context {T : Type} (lt : T → T → bool).

Lemma partition_loop_ok pivot n :
  ∀ j d i low high,
    0 ≤ low → high < len d →
    low - 1 ≤ i → i < j → j + Z.of_nat n = high →
    ∃ d' i', partition_loop lt pivot n j d i = Ok (d', i') ∧
      perm_in (Z.to_nat low) (Z.to_nat high) d d' ∧ low - 1 ≤ i' < high.
Proof.
  induction n as [|n IH]; intros j d i low high Hlow Hhigh Hi Hij Hn; simpl.
  - exists d, i. split; [done|]. split; [apply perm_in_refl | lia].
  - destruct (get_in_range d j) as [x ->]; [lia|]. res_simpl.
    destruct (goes_left lt x pivot).
    + destruct (swap_perm_in (Z.to_nat low) (Z.to_nat high) d (i + 1) j)
        as (d1 & -> & Hp1); [lia..|]. res_simpl.
      destruct (IH (j + 1) d1 (i + 1) low high) as (d' & i' & -> & Hp & Hi');
        [lia | apply perm_in_length in Hp1; len_lia | lia..|].
      exists d', i'. split; [done|]. split; [by eapply perm_in_trans | lia].
    + destruct (IH (j + 1) d i low high) as (d' & i' & -> & Hp & Hi'); [lia..|].
      by exists d', i'.
Qed.

Lemma partition_ok low high d :
  0 ≤ low → low ≤ high → high < len d →
  ∃ d' pi, partition lt low high d = Ok (d', pi) ∧
    perm_in (Z.to_nat low) (Z.to_nat (high + 1)) d d' ∧ low ≤ pi ≤ high.
Proof.
  intros Hlow Hle Hhigh. unfold partition.
  destruct (get_in_range d high) as [pivot ->]; [lia|]. res_simpl.
  destruct (partition_loop_ok pivot (Z.to_nat (high - low)) low d (low - 1) low high)
    as (d1 & i & -> & Hp1 & Hi); [lia..|]. res_simpl.
  destruct (swap_perm_in (Z.to_nat low) (Z.to_nat (high + 1)) d1 (i + 1) high)
    as (d2 & -> & Hp2); [lia | lia | apply perm_in_length in Hp1; len_lia|]. res_simpl.
  exists d2, (i + 1). split; [done|]. split; [|lia].
  eapply perm_in_trans; [|done]. eapply perm_in_weaken; [| |done]; lia.
Qed.

(** Quicksort terminates within its fuel, never leaves its range, and
    rearranges it. *)
Lemma quickSortRange_ok fuel :
  ∀ low high d,
    0 ≤ low → high < len d → (Z.to_nat (high - low + 1) < fuel)%nat →
    ∃ d', quickSortRange lt fuel low high d = Ok d' ∧
      perm_in (Z.to_nat low) (Z.to_nat (high + 1)) d d'.
Proof.
  induction fuel as [|fuel IH]; intros low high d Hlow Hhigh Hfuel; [lia|].
  simpl. destruct (decide (low < high)); [|by exists d].
  destruct (partition_ok low high d) as (d1 & pi & -> & Hp1 & Hpi); [lia..|].
  res_simpl. pose proof (perm_in_length _ _ _ _ Hp1) as Hlen1.
  destruct (IH low (pi - 1) d1) as (d2 & -> & Hp2); [lia | len_lia | lia |].
  res_simpl. pose proof (perm_in_length _ _ _ _ Hp2) as Hlen2.
  destruct (IH (pi + 1) high d2) as (d3 & -> & Hp3); [lia | len_lia | lia |].
  exists d3. split; [done|].
  eapply perm_in_trans; [done|]. eapply perm_in_trans.
  - eapply perm_in_weaken; [| |done]; lia.
  - eapply perm_in_weaken; [| |done]; lia.
Qed.

Lemma quickSortData_ok sz d :
  0 ≤ sz ≤ len d →
  ∃ d', quickSortData lt sz d = Ok d' ∧ perm_in 0 (Z.to_nat sz) d d'.
Proof.
  intros Hsz. unfold quickSortData.
  destruct (quickSortRange_ok (S (Z.to_nat sz)) 0 (sz - 1) d) as (d' & -> & Hp);
    [lia | lia | lia |].
  exists d'. split; [done|]. by replace (sz - 1 + 1) with sz in Hp by lia.
Qed.

(** On a sorted range every element goes to the left of the pivot, each
    swap exchanges a position with itself, and nothing moves. *)
Context (Hlt : StrictWeakOrder lt).

Lemma partition_loop_sorted pivot d high n :
  ∀ j,
    0 ≤ j → high < len d → j + Z.of_nat n = high →
    (∀ k x, j ≤ k < high → get d k = Ok x → lt pivot x = false) →
    partition_loop lt pivot n j d (j - 1) = Ok (d, high - 1).
Proof.
  induction n as [|n IH]; intros j Hj Hhigh Hn Hpiv; simpl.
  - do 2 f_equal. lia.
  - destruct (get_in_range d j) as [x Hx]; [lia|]. rewrite Hx. res_simpl.
    unfold goes_left. rewrite (Hpiv j x) by (done || lia).
    replace (lt x pivot || negb false && negb (lt x pivot)) with true
      by (by destruct (lt x pivot)).
    replace (j - 1 + 1) with j by lia. rewrite swap_same by lia. res_simpl.
    replace j with (j + 1 - 1) at 2 by lia. apply IH; [lia..|].
    intros k y Hk. apply Hpiv. lia.
Qed.

Lemma partition_sorted low high d :
  0 ≤ low → low ≤ high → high < len d → range_sorted lt d low high →
  partition lt low high d = Ok (d, high).
Proof.
  intros Hlow Hle Hhigh Hs. unfold partition.
  destruct (get_in_range d high) as [pivot Hpivot]; [lia|]. rewrite Hpivot. res_simpl.
  rewrite (partition_loop_sorted pivot d high); [|lia..|].
  - res_simpl. replace (high - 1 + 1) with high by lia.
    rewrite swap_same by lia. done.
  - intros k x Hk Hx. apply (Hs k high); (done || lia).
Qed.

Lemma range_sorted_weaken d low high low' high' :
  low ≤ low' → high' ≤ high → range_sorted lt d low high → range_sorted lt d low' high'.
Proof. intros Hl Hh Hs i j x y Hi Hij Hj. apply Hs; lia. Qed.

Lemma quickSortRange_sorted fuel :
  ∀ low high d,
    0 ≤ low → high < len d → (Z.to_nat (high - low + 1) < fuel)%nat →
    range_sorted lt d low high →
    quickSortRange lt fuel low high d = Ok d.
Proof.
  induction fuel as [|fuel IH]; intros low high d Hlow Hhigh Hfuel Hs; [lia|].
  simpl. destruct (decide (low < high)); [|done].
  rewrite partition_sorted by (done || lia). res_simpl.
  rewrite IH; [|lia..|by eapply range_sorted_weaken; [| |done]; lia]. res_simpl.
  apply IH; [lia..|]. intros i j x y Hi Hij Hj. lia.
Qed.

End Quick.

(** ** Merging *)

Section MergeArray.
Context {T : Type} (lt : T → T → bool).

Lemma lmerge_nil_l l : lmerge lt [] l = l.
Proof. by destruct l. Qed.

Lemma lmerge_nil_r l : lmerge lt l [] = l.
Proof. by destruct l. Qed.

Lemma lmerge_cons a l1 b l2 :
  lmerge lt (a :: l1) (b :: l2) =
    if lt a b then a :: lmerge lt l1 (b :: l2)
    else if lt b a then b :: lmerge lt (a :: l1) l2
    else a :: lmerge lt l1 (b :: l2).
Proof. done. Qed.

Lemma merge_copy_spec (seg : list T) :
  ∀ i (pre post tpre tseg tpost : list T),
    i = len pre → i = len tpre → length tseg = length seg →
    merge_copy (length seg) i (pre ++ seg ++ post) (tpre ++ tseg ++ tpost) =
      Ok (tpre ++ seg ++ tpost).
Proof.
  induction seg as [|x seg IH]; intros i pre post tpre tseg tpost Hi Hti Hlen.
  - by destruct tseg.
  - destruct tseg as [|t tseg]; [done|]. cbn [length merge_copy].
    rewrite <- !app_comm_cons.
    rewrite get_app_mid by done. res_simpl.
    rewrite set_app_mid by done. res_simpl.
    specialize (IH (i + 1) (pre ++ [x]) post (tpre ++ [x]) tseg tpost).
    rewrite <- !app_assoc in IH. cbn [app] in IH. apply IH; [len_lia | len_lia |].
    simpl in Hlen. lia.
Qed.

Lemma merge_rest_spec (rest : list T) :
  ∀ fuel bound i k (tl tr dl junk dr : list T),
    i = len tl → k = len dl → bound = i + len rest - 1 →
    length junk = length rest → (length rest < fuel)%nat →
    merge_rest fuel bound (tl ++ rest ++ tr) (dl ++ junk ++ dr) i k =
      Ok (dl ++ rest ++ dr, k + len rest).
Proof.
  induction rest as [|x rest IH];
    intros fuel bound i k tl tr dl junk dr Hi Hk Hb Hlen Hfuel.
  - destruct junk; [|done]. destruct fuel; [simpl in Hfuel; lia|]. simpl.
    rewrite decide_False by len_lia. do 2 f_equal. len_lia.
  - destruct junk as [|y junk]; [done|]. destruct fuel; [simpl in Hfuel; lia|].
    cbn [merge_rest]. rewrite decide_True by len_lia.
    rewrite <- !app_comm_cons.
    rewrite get_app_mid by done. res_simpl.
    rewrite set_app_mid by done. res_simpl.
    specialize (IH fuel bound (i + 1) (k + 1) (tl ++ [x]) tr (dl ++ [x]) junk dr).
    rewrite <- !app_assoc in IH. cbn [app] in IH. rewrite IH.
    + do 2 f_equal. len_lia.
    + len_lia.
    + len_lia.
    + len_lia.
    + simpl in Hlen. lia.
    + simpl in Hfuel. lia.
Qed.

Lemma merge_rest_done fuel bound (temp d : list T) i k :
  (0 < fuel)%nat → bound < i → merge_rest fuel bound temp d i k = Ok (d, k).
Proof.
  intros Hfuel Hi. destruct fuel; [lia|]. simpl. by rewrite decide_False by lia.
Qed.

(** The three loops of [merge], started anywhere in the two runs. *)
Lemma merge_loops_spec {R} (kont : list T → res R)
    mid right tpre tpost pre post fuel2 A0 B0 :
  mid = len tpre + len A0 - 1 → right = mid + len B0 →
  len pre = len tpre →
  ∀ A1 A2, A0 = A1 ++ A2 →
  ∀ B1 B2, B0 = B1 ++ B2 →
  ∀ fuel1 out junk,
    length out = (length A1 + length B1)%nat →
    length junk = (length A2 + length B2)%nat →
    (length A2 + length B2 < fuel1)%nat →
    (length A2 < fuel2)%nat → (length B2 < fuel2)%nat →
    ('(d1, i, j, k) ← merge_main lt fuel1 mid right (tpre ++ A0 ++ B0 ++ tpost)
                        (pre ++ out ++ junk ++ post)
                        (len tpre + len A1) (mid + 1 + len B1)
                        (len pre + len out);
     '(d2, k) ← merge_rest fuel2 mid (tpre ++ A0 ++ B0 ++ tpost) d1 i k;
     '(d3, _) ← merge_rest fuel2 right (tpre ++ A0 ++ B0 ++ tpost) d2 j k;
     kont d3) = kont (pre ++ out ++ lmerge lt A2 B2 ++ post).
Proof.
  intros Hmid Hright Hpre A1 A2. revert A1.
  induction A2 as [|a A2 IHA]; intros A1 HA B1 B2; revert B1.
  - (* the left run is exhausted: the second drain copies the right one *)
    intros B1 HB fuel1 out junk Hout Hjunk Hf1 HfA HfB.
    rewrite lmerge_nil_l. rewrite app_nil_r in HA. subst A0.
    destruct fuel1; [lia|]. cbn [merge_main].
    rewrite decide_False by len_lia. res_simpl.
    rewrite (merge_rest_done fuel2 mid) by len_lia. res_simpl.
    subst B0.
    pose proof (merge_rest_spec B2 fuel2 right (mid + 1 + len B1)
                  (len pre + len out) (tpre ++ A1 ++ B1) tpost (pre ++ out) junk post)
      as Hrest.
    rewrite <- !app_assoc in Hrest. rewrite <- !app_assoc.
    rewrite Hrest; [done|len_lia|len_lia|len_lia|len_lia|done].
  - induction B2 as [|b B2 IHB]; intros B1 HB fuel1 out junk Hout Hjunk Hf1 HfA HfB.
    + (* the right run is exhausted: the first drain copies the left one *)
      rewrite lmerge_nil_r. rewrite app_nil_r in HB. subst B0.
      destruct fuel1; [lia|]. cbn [merge_main].
      rewrite decide_False by len_lia. res_simpl.
      subst A0.
      pose proof (merge_rest_spec (a :: A2) fuel2 mid (len tpre + len A1)
                    (len pre + len out) (tpre ++ A1) (B1 ++ tpost) (pre ++ out) junk post)
        as Hrest.
      rewrite <- !app_assoc in Hrest. rewrite <- !app_assoc.
      rewrite Hrest; [|len_lia|len_lia|len_lia|len_lia|done].
      res_simpl. by rewrite (merge_rest_done fuel2 right) by len_lia.
    + (* both runs have an element *)
      pose proof (f_equal length HA) as HlA. pose proof (f_equal length HB) as HlB.
      destruct fuel1; [lia|]. cbn [merge_main].
      rewrite decide_True by len_lia.
      destruct junk as [|y junk]; [simpl in Hjunk; lia|].
      assert (get (tpre ++ A0 ++ B0 ++ tpost) (len tpre + len A1) = Ok a) as ->.
      { subst A0. rewrite <- !app_assoc, <- app_comm_cons.
        rewrite (app_assoc tpre A1). apply get_app_mid. len_lia. }
      assert (get (tpre ++ A0 ++ B0 ++ tpost) (mid + 1 + len B1) = Ok b) as ->.
      { subst B0. rewrite <- !app_assoc, <- app_comm_cons.
        rewrite (app_assoc A0 B1), (app_assoc tpre). apply get_app_mid. len_lia. }
      res_simpl. rewrite lmerge_cons.
      assert (∀ x, set (pre ++ out ++ (y :: junk) ++ post) (len pre + len out) x =
                Ok (pre ++ (out ++ [x]) ++ junk ++ post)) as Hset.
      { intros x. rewrite <- app_comm_cons, (app_assoc pre out).
        rewrite set_app_mid by len_lia. by rewrite <- !app_assoc. }
      assert (len pre + len out + 1 = len pre + len (out ++ [a])) as Hka by len_lia.
      assert (len pre + len out + 1 = len pre + len (out ++ [b])) as Hkb by len_lia.
      assert (len tpre + len A1 + 1 = len tpre + len (A1 ++ [a])) as Hia by len_lia.
      assert (mid + 1 + len B1 + 1 = mid + 1 + len (B1 ++ [b])) as Hjb by len_lia.
      destruct (lt a b); [|destruct (lt b a)].
      * rewrite Hset. res_simpl. rewrite Hka, Hia.
        rewrite (IHA (A1 ++ [a]) ltac:(by rewrite <- app_assoc) B1 (b :: B2) HB
                   fuel1 (out ++ [a]) junk); [by rewrite <- !app_assoc|len_lia..].
      * rewrite Hset. res_simpl. rewrite Hkb, Hjb.
        rewrite (IHB (B1 ++ [b]) ltac:(by rewrite <- app_assoc)
                   fuel1 (out ++ [b]) junk); [by rewrite <- !app_assoc|len_lia..].
      * rewrite Hset. res_simpl. rewrite Hka, Hia.
        rewrite (IHA (A1 ++ [a]) ltac:(by rewrite <- app_assoc) B1 (b :: B2) HB
                   fuel1 (out ++ [a]) junk); [by rewrite <- !app_assoc|len_lia..].
Qed.

Lemma lmerge_perm l1 l2 : lmerge lt l1 l2 ≡ₚ l1 ++ l2.
Proof.
  revert l2. induction l1 as [|a l1 IH1]; intros l2; [by rewrite lmerge_nil_l|].
  induction l2 as [|b l2 IH2]; [by rewrite lmerge_nil_r, app_nil_r|].
  rewrite lmerge_cons. destruct (lt a b); [|destruct (lt b a)].
  - by rewrite IH1.
  - rewrite IH2. by rewrite <- Permutation_middle.
  - by rewrite IH1.
Qed.

Lemma lmerge_length l1 l2 : length (lmerge lt l1 l2) = (length l1 + length l2)%nat.
Proof. rewrite lmerge_perm. apply length_app. Qed.

(** [merge] puts the merge of the two runs in place of them and leaves a
    copy of the runs in the scratch buffer. *)
Lemma merge_spec left mid right pre A B post tpre tseg tpost :
  left = len pre → left = len tpre →
  mid = left + len A - 1 → right = mid + len B →
  length tseg = (length A + length B)%nat →
  merge lt left mid right (pre ++ A ++ B ++ post) (tpre ++ tseg ++ tpost) =
    Ok (pre ++ lmerge lt A B ++ post, tpre ++ (A ++ B) ++ tpost).
Proof.
  intros Hleft Htleft Hmid Hright Hlen. unfold merge.
  replace (Z.to_nat (right - left + 1)) with (length (A ++ B)) by len_lia.
  rewrite (app_assoc A B post).
  rewrite merge_copy_spec by (done || len_lia). res_simpl.
  pose proof (merge_loops_spec (λ d3, Ok (d3, tpre ++ (A ++ B) ++ tpost))
                mid right tpre tpost pre post
                (S (length (A ++ B))) A B ltac:(lia) ltac:(lia) ltac:(lia)
                [] A eq_refl [] B eq_refl (S (length (A ++ B))) [] (A ++ B)) as Hloops.
  rewrite !len_nil, !Z.add_0_r in Hloops. cbn [app] in Hloops.
  rewrite <- !app_assoc. rewrite <- !app_assoc in Hloops.
  replace (len pre) with left in Hloops by done.
  replace (len tpre) with left in Hloops by done.
  apply Hloops; len_lia.
Qed.

End MergeArray.

(** ** Merge sort *)

Section MergeSort.
Context {T : Type} (lt : T → T → bool).

Lemma lmsort_perm fuel : ∀ l, lmsort lt fuel l ≡ₚ l.
Proof.
  induction fuel as [|fuel IH]; intros l; [done|]. simpl.
  destruct (decide (len l ≤ 1)); [done|].
  rewrite lmerge_perm, !IH. by rewrite take_drop.
Qed.

Lemma lmsort_length fuel l : length (lmsort lt fuel l) = length l.
Proof. apply Permutation_length, lmsort_perm. Qed.

(** The array version computes [lmsort] on its segment; the scratch buffer
    keeps its length. *)
Lemma mergeSortRange_spec fuel :
  ∀ left right pre seg post tpre tseg tpost,
    left = len pre → left = len tpre → right = left + len seg - 1 →
    length tseg = length seg → (length seg < fuel)%nat →
    ∃ tseg',
      length tseg' = length seg ∧
      mergeSortRange lt fuel left right (pre ++ seg ++ post) (tpre ++ tseg ++ tpost) =
        Ok (pre ++ lmsort lt fuel seg ++ post, tpre ++ tseg' ++ tpost).
Proof.
  induction fuel as [|fuel IH];
    intros left right pre seg post tpre tseg tpost Hl Htl Hr Hlen Hfuel; [lia|].
  cbn [mergeSortRange lmsort].
  destruct (decide (left < right)) as [Hlt|Hge].
  - rewrite decide_False by len_lia.
    set (q := (len seg - 1) `quot` 2).
    assert (0 ≤ q ∧ q + 1 < len seg) as Hq.
    { unfold q. pose proof (Z.quot_pos (len seg - 1) 2).
      pose proof (Z.quot_lt (len seg - 1) 2). lia. }
    replace ((right - left) `quot` 2) with q by (unfold q; f_equal; lia).
    set (m := Z.to_nat (q + 1)).
    assert (0 < m < length seg)%nat as Hm by (unfold m; len_lia).
    assert (length (take m seg) = m) as HlenA by (rewrite length_take; len_lia).
    assert (length (drop m seg) = (length seg - m)%nat) as HlenB by apply length_drop.
    assert (length (take m tseg) = m) as HlentA by (rewrite length_take; len_lia).
    assert (length (drop m tseg) = (length seg - m)%nat) as HlentB
      by (rewrite length_drop; lia).
    replace (pre ++ seg ++ post) with (pre ++ take m seg ++ drop m seg ++ post)
      by (by rewrite (app_assoc (take m seg)), take_drop).
    replace (tpre ++ tseg ++ tpost) with (tpre ++ take m tseg ++ drop m tseg ++ tpost)
      by (by rewrite (app_assoc (take m tseg)), take_drop).
    destruct (IH left (left + q) pre (take m seg) (drop m seg ++ post)
                tpre (take m tseg) (drop m tseg ++ tpost)) as (tA & HtA & ->);
      [done | done | len_lia | lia | len_lia |]. res_simpl.
    rewrite (app_assoc pre), (app_assoc tpre).
    destruct (IH (left + q + 1) right (pre ++ lmsort lt fuel (take m seg))
                (drop m seg) post (tpre ++ tA) (drop m tseg) tpost)
      as (tB & HtB & ->).
    { rewrite len_app. unfold len. rewrite lmsort_length. len_lia. }
    { len_lia. }
    { len_lia. }
    { lia. }
    { len_lia. }
    res_simpl. rewrite <- !app_assoc.
    replace (tpre ++ tA ++ tB ++ tpost) with (tpre ++ (tA ++ tB) ++ tpost)
      by (by rewrite <- app_assoc).
    rewrite (merge_spec lt left (left + q) right pre (lmsort lt fuel (take m seg))
               (lmsort lt fuel (drop m seg)) post tpre (tA ++ tB) tpost).
    + eexists. split; [|done]. rewrite !length_app, !lmsort_length. lia.
    + done.
    + done.
    + unfold len. rewrite lmsort_length. len_lia.
    + unfold len. rewrite lmsort_length. len_lia.
    + rewrite length_app, !lmsort_length. lia.
  - rewrite decide_True by len_lia. by exists tseg.
Qed.

Lemma mergeSortData_spec `{Reflect T} sz (d : list T) :
  0 ≤ sz ≤ len d →
  mergeSortData lt sz d =
    Ok (lmsort lt (S (Z.to_nat sz)) (take (Z.to_nat sz) d) ++ drop (Z.to_nat sz) d).
Proof.
  intros Hsz. unfold mergeSortData.
  assert (len (take (Z.to_nat sz) d) = sz) as Hlen by len_lia.
  destruct (decide (sz ≤ 1)).
  - cbn [lmsort]. rewrite decide_True by lia. by rewrite take_drop.
  - unfold make. rewrite decide_True by lia. res_simpl.
    destruct (mergeSortRange_spec (S (Z.to_nat sz)) 0 (sz - 1) []
                (take (Z.to_nat sz) d) (drop (Z.to_nat sz) d)
                [] (replicate (Z.to_nat sz) zero) []) as (tseg' & _ & Hspec);
      [done | done | lia | len_lia | len_lia |].
    cbn [app] in Hspec. rewrite take_drop, app_nil_r in Hspec.
    rewrite Hspec. done.
Qed.

(** *** Order properties of the merge *)

Context (Hlt : StrictWeakOrder lt).

Lemma lmerge_sorted_id l1 l2 :
  sorted_by lt (l1 ++ l2) → lmerge lt l1 l2 = l1 ++ l2.
Proof.
  revert l2. induction l1 as [|a l1 IH]; intros l2 Hs; [by rewrite lmerge_nil_l|].
  destruct l2 as [|b l2]; [by rewrite lmerge_nil_r, app_nil_r|].
  rewrite lmerge_cons.
  assert (lt b a = false) as ->.
  { apply (sorted_by_pairwise lt Hlt _ 0%nat (S (length l1)) a b Hs); [lia|done|].
    rewrite <- app_comm_cons. simpl. by rewrite list_lookup_middle. }
  assert (lmerge lt l1 (b :: l2) = l1 ++ b :: l2) as ->.
  { apply IH. rewrite <- app_comm_cons in Hs. by apply sorted_by_cons in Hs as [_ Hs]. }
  by destruct (lt a b).
Qed.

Lemma lmsort_sorted_id fuel : ∀ l, sorted_by lt l → lmsort lt fuel l = l.
Proof.
  induction fuel as [|fuel IH]; intros l Hs; [done|]. simpl.
  destruct (decide (len l ≤ 1)); [done|].
  rewrite <- (take_drop (Z.to_nat ((len l - 1) `quot` 2 + 1)) l) in Hs.
  rewrite !IH by eauto using sorted_by_app_l, sorted_by_app_r.
  rewrite lmerge_sorted_id by done. apply take_drop.
Qed.

Lemma lmerge_head l1 l2 y :
  head (lmerge lt l1 l2) = Some y → head l1 = Some y ∨ head l2 = Some y.
Proof.
  destruct l1 as [|a l1]; [rewrite lmerge_nil_l; auto|].
  destruct l2 as [|b l2]; [rewrite lmerge_nil_r; auto|].
  rewrite lmerge_cons. destruct (lt a b); [|destruct (lt b a)]; simpl; auto.
Qed.

Lemma lmerge_sorted l1 :
  ∀ l2, sorted_by lt l1 → sorted_by lt l2 → sorted_by lt (lmerge lt l1 l2).
Proof.
  induction l1 as [|a l1 IH1]; intros l2 Hs1 Hs2; [by rewrite lmerge_nil_l|].
  induction l2 as [|b l2 IH2]; [by rewrite lmerge_nil_r|].
  rewrite lmerge_cons.
  apply sorted_by_cons in Hs1 as [Hhd1 Hs1']. apply sorted_by_cons in Hs2 as [Hhd2 Hs2'].
  destruct (lt a b) eqn:Hab; [|destruct (lt b a) eqn:Hba].
  - apply sorted_by_cons. split; [|apply IH1; [done|by apply sorted_by_cons]].
    intros y Hy. apply lmerge_head in Hy as [Hy|Hy]; [by apply Hhd1|].
    injection Hy as <-. by apply (swo_asym lt Hlt).
  - apply sorted_by_cons. split; [|apply IH2; done].
    intros y Hy. apply lmerge_head in Hy as [Hy|Hy]; [|by apply Hhd2].
    injection Hy as <-. by apply (swo_asym lt Hlt).
  - apply sorted_by_cons. split; [|apply IH1; [done|by apply sorted_by_cons]].
    intros y Hy. apply lmerge_head in Hy as [Hy|Hy]; [by apply Hhd1|].
    by injection Hy as <-.
Qed.

Lemma lmsort_sorted fuel :
  ∀ l, (length l < fuel)%nat → sorted_by lt (lmsort lt fuel l).
Proof.
  induction fuel as [|fuel IH]; intros l Hfuel; [lia|]. simpl.
  destruct (decide (len l ≤ 1)) as [Hle|Hgt].
  - destruct l as [|x [|y l]]; [done..|]. len_lia.
  - assert (0 ≤ (len l - 1) `quot` 2 ∧ (len l - 1) `quot` 2 + 1 < len l) as Hq.
    { pose proof (Z.quot_pos (len l - 1) 2). pose proof (Z.quot_lt (len l - 1) 2). lia. }
    apply lmerge_sorted; apply IH; len_lia.
Qed.

Lemma filter_none (p : T → bool) l :
  (∀ y, y ∈ l → p y = false) → List.filter p l = [].
Proof.
  induction l as [|a l IH]; intros Hp; [done|]. simpl.
  rewrite Hp by left. apply IH. intros y Hy. apply Hp. by right.
Qed.

(** Nothing in a sorted list is below its head. *)
Lemma sorted_by_head_min a l x :
  sorted_by lt (a :: l) → x ∈ a :: l → lt x a = false.
Proof.
  intros Hs Hx. apply list_elem_of_lookup_1 in Hx as [i Hi].
  apply (sorted_by_pairwise lt Hlt _ 0%nat i a x Hs); [lia|done..].
Qed.

Lemma lmerge_filter x l1 :
  ∀ l2, sorted_by lt l1 → sorted_by lt l2 →
    List.filter (eqv lt x) (lmerge lt l1 l2) =
      List.filter (eqv lt x) l1 ++ List.filter (eqv lt x) l2.
Proof.
  induction l1 as [|a l1 IH1]; intros l2 Hs1 Hs2; [by rewrite lmerge_nil_l|].
  induction l2 as [|b l2 IH2]; [by rewrite lmerge_nil_r, app_nil_r|].
  rewrite lmerge_cons.
  pose proof Hs1 as Hs1'. apply sorted_by_cons in Hs1' as [_ Hs1'].
  pose proof Hs2 as Hs2'. apply sorted_by_cons in Hs2' as [_ Hs2'].
  assert (List.filter (eqv lt x) (a :: lmerge lt l1 (b :: l2)) =
          List.filter (eqv lt x) (a :: l1) ++ List.filter (eqv lt x) (b :: l2)) as Hleft.
  { cbn [List.filter]. rewrite IH1 by done. by destruct (eqv lt x a). }
  destruct (lt a b) eqn:Hab; [done|destruct (lt b a) eqn:Hba; [|done]].
  cbn [List.filter]. rewrite IH2 by done.
  destruct (eqv lt x b) eqn:Hxb; [|done].
  (* [b] is in the class of [x] and below [a]: nothing of the left run is *)
  assert (List.filter (eqv lt x) (a :: l1) = []) as Hnone.
  { apply filter_none. intros y Hy.
    destruct (eqv lt x y) eqn:Hxy; [|done]. exfalso.
    assert (lt b y = true) as Hby.
    { apply (swo_lt_nlt lt Hlt b a y); [done|].
      by apply (sorted_by_head_min a l1 y Hs1). }
    by rewrite (eqv_not_lt lt Hlt x b y) in Hby. }
  rewrite Hnone. cbn [List.filter] in Hnone. rewrite Hnone. done.
Qed.

Lemma lmsort_filter x fuel :
  ∀ l, (length l < fuel)%nat →
    List.filter (eqv lt x) (lmsort lt fuel l) = List.filter (eqv lt x) l.
Proof.
  induction fuel as [|fuel IH]; intros l Hfuel; [lia|]. simpl.
  destruct (decide (len l ≤ 1)) as [Hle|Hgt]; [done|].
  assert (0 ≤ (len l - 1) `quot` 2 ∧ (len l - 1) `quot` 2 + 1 < len l) as Hq.
  { pose proof (Z.quot_pos (len l - 1) 2). pose proof (Z.quot_lt (len l - 1) 2). lia. }
  rewrite lmerge_filter by (apply lmsort_sorted; len_lia).
  rewrite !IH by len_lia. by rewrite <- List.filter_app, take_drop.
Qed.

Lemma lmsort_stable fuel l :
  (length l < fuel)%nat → stable lt l (lmsort lt fuel l).
Proof. intros Hfuel x. by apply lmsort_filter. Qed.

End MergeSort.

(** ** Dispatch *)

(** Resolve the test [strategy == AutoStrategy] for a given strategy. *)
Ltac dispatch :=
  repeat match goal with
  | |- context [decide (AutoStrategy = AutoStrategy)] =>
      destruct (decide (AutoStrategy = AutoStrategy)) as [_|?]; [|done]
  | |- context [decide (?s = AutoStrategy)] =>
      destruct (decide (s = AutoStrategy)) as [?|_]; [discriminate|]
  end; res_simpl.

Section Dispatch.
Context {T : Type} `{Reflect T}.
Implicit Types pq : PQueue T.

Lemma with_data_same pq : with_data pq (data pq) = pq.
Proof. by destruct pq. Qed.

Lemma live_with_data pq l :
  wf pq → length l = Z.to_nat (size pq) →
  live (with_data pq (l ++ drop (Z.to_nat (size pq)) (data pq))) = l.
Proof. intros Hwf Hlen. unfold live. simpl. by rewrite take_app_length'. Qed.

Lemma live_drop pq : live pq ++ drop (Z.to_nat (size pq)) (data pq) = data pq.
Proof. apply take_drop. Qed.

Lemma live_sorted_range pq :
  StrictWeakOrder (less pq) → sorted_by (less pq) (live pq) →
  range_sorted (less pq) (data pq) 0 (size pq - 1).
Proof.
  intros Hlt Hs i j x y Hi Hij Hj Hx Hy.
  apply (sorted_by_pairwise (less pq) Hlt (live pq) (Z.to_nat i) (Z.to_nat j));
    [done | lia | apply get_live; (done || lia)..].
Qed.

Lemma insertionSort_spec pq :
  wf pq → insertionSort pq = Ok (isort (less pq) (live pq) ++ drop (Z.to_nat (size pq)) (data pq)).
Proof. intros Hwf. by apply insertionSortData_spec. Qed.

Lemma mergeSort_spec pq :
  wf pq →
  mergeSort pq = Ok (lmsort (less pq) (S (Z.to_nat (size pq))) (live pq)
                       ++ drop (Z.to_nat (size pq)) (data pq)).
Proof. intros Hwf. by apply mergeSortData_spec. Qed.

Lemma timsort_small pq : size pq ≤ 32 → timsort pq = insertionSort pq.
Proof. intros Hsz. unfold timsort, timsortData. by rewrite decide_True. Qed.

Lemma introsort_small pq :
  wf pq → size pq ≤ 16 →
  introsort pq = Ok (isort (less pq) (live pq) ++ drop (Z.to_nat (size pq)) (data pq)).
Proof.
  intros Hwf Hsz. unfold introsort, introsortData. cbn [introsortRange].
  rewrite decide_True by lia.
  rewrite <- (live_drop pq) at 1.
  apply (insertionSortRange_spec (less pq) [] (live pq)); [done|].
  rewrite live_length by done. lia.
Qed.

Lemma quickSort_ok pq :
  wf pq → ∃ d', quickSort pq = Ok d' ∧ perm_in 0 (Z.to_nat (size pq)) (data pq) d'.
Proof. intros Hwf. by apply quickSortData_ok. Qed.

Lemma quickSort_sorted pq :
  StrictWeakOrder (less pq) → wf pq → sorted_by (less pq) (live pq) →
  quickSort pq = Ok (data pq).
Proof.
  intros Hlt Hwf Hs. unfold quickSort, quickSortData.
  apply quickSortRange_sorted; [lia | unfold wf in Hwf; lia | lia |].
  by apply live_sorted_range.
Qed.

Lemma chooseOptimalStrategy_sorted pq :
  wf pq → sorted_by (less pq) (live pq) →
  chooseOptimalStrategy pq = Ok InsertionStrategy.
Proof.
  intros Hwf Hs. unfold chooseOptimalStrategy.
  destruct (decide (size pq ≤ 16)); [done|].
  rewrite (isNearlySorted_near_sorted pq Hwf).
  by rewrite sorted_by_near_sorted.
Qed.



(** C4, as amended. Insertion and Merge (and Timsort-lite up to 32
    elements, where it is insertion sort) are stable: the result is a
    rearrangement of the live prefix in which comparator-equal elements keep
    their input order. *)
Theorem insertion_and_merge_stable pq strategy :
  StrictWeakOrder (less pq) → wf pq →
  stable_strategy strategy pq →
  ∃ pq', SortWithStrategy strategy pq = Ok pq' ∧
    size pq' = size pq ∧
    live pq' ≡ₚ live pq ∧
    stable (less pq) (live pq) (live pq').
Proof.
  intros Hlt Hwf Hstrategy. unfold SortWithStrategy.
  destruct (decide (size pq ≤ 1)); [by exists pq|].
  assert (length (live pq) = Z.to_nat (size pq)) as Hlen
    by (pose proof (live_length pq Hwf); unfold len in *; lia).
  assert (∃ pq', insertionSort pq ≫= (λ d, Ok (with_data pq d)) = Ok pq' ∧
            size pq' = size pq ∧ live pq' ≡ₚ live pq ∧
            stable (less pq) (live pq) (live pq')) as Hins.
  { rewrite insertionSort_spec by done. res_simpl. eexists. split; [done|].
    split; [done|].
    rewrite live_with_data by (done || by rewrite isort_length).
    split; [apply isort_perm | by apply isort_stable]. }
  destruct Hstrategy as [->|[->|[-> Hsz]]]; dispatch.
  - exact Hins.
  - rewrite mergeSort_spec by done. res_simpl. eexists. split; [done|].
    split; [done|].
    rewrite live_with_data by (done || by rewrite lmsort_length).
    split; [apply lmsort_perm | apply lmsort_stable; [done|lia]].
  - rewrite timsort_small by done. exact Hins.
Qed.

End Dispatch.



Lemma insertion_and_merge_stable_witness :
  ∃ pq', SortWithStrategy MergeStrategy
           (New [mkItem 3 0; mkItem 1 1; mkItem 3 2; mkItem 2 3; mkItem 1 4] lessByValue) =
         Ok pq' ∧
    stable lessByValue [mkItem 3 0; mkItem 1 1; mkItem 3 2; mkItem 2 3; mkItem 1 4]
      (live pq').
Proof.
  destruct (insertion_and_merge_stable
              (New [mkItem 3 0; mkItem 1 1; mkItem 3 2; mkItem 2 3; mkItem 1 4] lessByValue)
              MergeStrategy) as (pq' & Hsort & _ & _ & Hstable).
  - apply lessByValue_swo.
  - by vm_compute.
  - unfold stable_strategy. auto.
  - exists pq'. split; [exact Hsort | exact Hstable].
Defined.

(** ** Heapsort and introsort *)

Section Introsort.
Context {T : Type} (lt : T → T → bool).

Lemma perm_in_app (pre seg seg' post : list T) :
  seg' ≡ₚ seg →
  perm_in (length pre) (length pre + length seg) (pre ++ seg ++ post) (pre ++ seg' ++ post).
Proof.
  intros Hp. pose proof (Permutation_length Hp) as Hlen. split; [|split].
  - by rewrite !take_app_length.
  - rewrite !(app_assoc pre).
    rewrite !drop_app_length' by (rewrite length_app; lia). done.
  - by rewrite Hp.
Qed.

Lemma split_range (d : list T) a b :
  0 ≤ a → a ≤ b → b ≤ len d →
  ∃ pre seg post, d = pre ++ seg ++ post ∧ len pre = a ∧ len seg = b - a.
Proof.
  intros Ha Hab Hb.
  exists (take (Z.to_nat a) d), (take (Z.to_nat (b - a)) (drop (Z.to_nat a) d)),
    (drop (Z.to_nat (b - a)) (drop (Z.to_nat a) d)).
  split; [by rewrite !take_drop|]. split; len_lia.
Qed.

Lemma insertionSortRange_ok low high (d : list T) :
  0 ≤ low → low ≤ high + 1 → high < len d →
  ∃ d', insertionSortRange lt low high d = Ok d' ∧
    perm_in (Z.to_nat low) (Z.to_nat (high + 1)) d d'.
Proof.
  intros Hlow Hle Hhigh.
  destruct (split_range d low (high + 1)) as (pre & seg & post & -> & Hpre & Hseg);
    [lia..|].
  rewrite (insertionSortRange_spec lt pre seg post) by lia.
  eexists. split; [done|].
  replace (Z.to_nat low) with (length pre) by len_lia.
  replace (Z.to_nat (high + 1)) with (length pre + length seg)%nat by len_lia.
  apply perm_in_app, isort_perm.
Qed.

Lemma heapify_ok fuel :
  ∀ base sz root (d : list T),
    0 ≤ base → base ≤ root → base + sz ≤ len d →
    (Z.to_nat (base + sz - root) < fuel)%nat →
    ∃ d', heapify lt fuel base sz root d = Ok d' ∧
      perm_in (Z.to_nat base) (Z.to_nat (base + sz)) d d'.
Proof.
  induction fuel as [|fuel IH]; intros base sz root d Hbase Hroot Hsz Hfuel; [lia|].
  cbn [heapify].
  set (left := 2 * (root - base) + 1 + base).
  set (right := 2 * (root - base) + 2 + base).
  assert (∃ largest1,
            (if decide (left < base + sz) then
               a ← get d root; b ← get d left; Ok (if lt a b then left else root)
             else Ok root) = Ok largest1 ∧
            (largest1 = root ∨ (largest1 = left ∧ left < base + sz))) as (l1 & -> & Hl1).
  { destruct (decide (left < base + sz)); [|eauto].
    destruct (get_in_range d root) as [a ->]; [unfold left in *; lia|].
    destruct (get_in_range d left) as [b ->]; [unfold left in *; lia|]. res_simpl.
    destruct (lt a b); eauto. }
  res_simpl.
  assert (∃ largest2,
            (if decide (right < base + sz) then
               a ← get d l1; b ← get d right; Ok (if lt a b then right else l1)
             else Ok l1) = Ok largest2 ∧
            (largest2 = root ∨ (root < largest2 ∧ largest2 < base + sz)))
    as (l2 & -> & Hl2).
  { destruct (decide (right < base + sz)).
    - destruct (get_in_range d l1) as [a ->]; [unfold left, right in *; lia|].
      destruct (get_in_range d right) as [b ->]; [unfold right in *; lia|]. res_simpl.
      destruct (lt a b); eexists; (split; [done|]); unfold left, right in *; lia.
    - eexists. split; [done|]. unfold left in *. lia. }
  res_simpl. destruct (decide (l2 ≠ root)) as [Hne|_]; [|by exists d].
  destruct (swap_perm_in (Z.to_nat base) (Z.to_nat (base + sz)) d root l2)
    as (d1 & -> & Hp1); [lia..|]. res_simpl.
  destruct (IH base sz l2 d1) as (d2 & -> & Hp2);
    [lia | lia | apply perm_in_length in Hp1; len_lia | lia |].
  exists d2. split; [done|]. by eapply perm_in_trans.
Qed.

Lemma heap_build_ok n :
  ∀ low sz i (d : list T),
    0 ≤ low → low + sz ≤ len d → i + 1 = Z.of_nat n →
    ∃ d', heap_build lt n low sz i d = Ok d' ∧
      perm_in (Z.to_nat low) (Z.to_nat (low + sz)) d d'.
Proof.
  induction n as [|n IH]; intros low sz i d Hlow Hsz Hi; [by exists d|].
  cbn [heap_build].
  destruct (heapify_ok (S (Z.to_nat sz)) low sz (low + i) d) as (d1 & -> & Hp1);
    [lia..|]. res_simpl.
  destruct (IH low sz (i - 1) d1) as (d2 & -> & Hp2);
    [lia | apply perm_in_length in Hp1; len_lia | lia |].
  exists d2. split; [done|]. by eapply perm_in_trans.
Qed.

Lemma heap_extract_ok n :
  ∀ low i (d : list T),
    0 ≤ low → low + i < len d → i = Z.of_nat n →
    ∃ d', heap_extract lt n low i d = Ok d' ∧
      perm_in (Z.to_nat low) (Z.to_nat (low + i + 1)) d d'.
Proof.
  induction n as [|n IH]; intros low i d Hlow Hi Hn; [by exists d|].
  cbn [heap_extract].
  destruct (swap_perm_in (Z.to_nat low) (Z.to_nat (low + i + 1)) d low (low + i))
    as (d1 & -> & Hp1); [lia..|]. res_simpl.
  pose proof (perm_in_length _ _ _ _ Hp1) as Hlen1.
  destruct (heapify_ok (S (Z.to_nat i)) low i low d1) as (d2 & -> & Hp2);
    [lia | lia | len_lia | lia |]. res_simpl.
  pose proof (perm_in_length _ _ _ _ Hp2) as Hlen2.
  destruct (IH low (i - 1) d2) as (d3 & -> & Hp3); [lia | len_lia | lia |].
  exists d3. split; [done|].
  eapply perm_in_trans; [done|]. eapply perm_in_trans.
  - eapply perm_in_weaken; [| |done]; lia.
  - eapply perm_in_weaken; [| |done]; lia.
Qed.

Lemma heapSortRange_ok low high (d : list T) :
  0 ≤ low → low ≤ high → high < len d →
  ∃ d', heapSortRange lt low high d = Ok d' ∧
    perm_in (Z.to_nat low) (Z.to_nat (high + 1)) d d'.
Proof.
  intros Hlow Hle Hhigh. unfold heapSortRange.
  assert (0 ≤ (high - low + 1) `quot` 2) as Hq by (apply Z.quot_pos; lia).
  destruct (heap_build_ok (Z.to_nat ((high - low + 1) `quot` 2)) low (high - low + 1)
              ((high - low + 1) `quot` 2 - 1) d) as (d1 & -> & Hp1); [lia..|].
  res_simpl. pose proof (perm_in_length _ _ _ _ Hp1) as Hlen1.
  destruct (heap_extract_ok (Z.to_nat (high - low + 1 - 1)) low (high - low + 1 - 1) d1)
    as (d2 & -> & Hp2); [lia | len_lia | lia |].
  exists d2. split; [done|].
  replace (low + (high - low + 1)) with (high + 1) in Hp1 by lia.
  replace (low + (high - low + 1 - 1) + 1) with (high + 1) in Hp2 by lia.
  by eapply perm_in_trans.
Qed.

Lemma introsortRange_ok fuel :
  ∀ low high depth (d : list T),
    0 ≤ low → low ≤ high + 1 → high < len d →
    (Z.to_nat (high - low + 1) < fuel)%nat →
    ∃ d', introsortRange lt fuel low high depth d = Ok d' ∧
      perm_in (Z.to_nat low) (Z.to_nat (high + 1)) d d'.
Proof.
  induction fuel as [|fuel IH]; intros low high depth d Hlow Hle Hhigh Hfuel; [lia|].
  cbn [introsortRange].
  destruct (decide (high - low + 1 ≤ 16)); [by apply insertionSortRange_ok|].
  destruct (decide (depth = 0)); [apply heapSortRange_ok; lia|].
  destruct (partition_ok lt low high d) as (d1 & pi & -> & Hp1 & Hpi); [lia..|].
  res_simpl. pose proof (perm_in_length _ _ _ _ Hp1) as Hlen1.
  destruct (IH low (pi - 1) (depth - 1) d1) as (d2 & -> & Hp2);
    [lia | lia | len_lia | lia |].
  res_simpl. pose proof (perm_in_length _ _ _ _ Hp2) as Hlen2.
  destruct (IH (pi + 1) high (depth - 1) d2) as (d3 & -> & Hp3);
    [lia | lia | len_lia | lia |].
  exists d3. split; [done|].
  eapply perm_in_trans; [done|]. eapply perm_in_trans.
  - eapply perm_in_weaken; [| |done]; lia.
  - eapply perm_in_weaken; [| |done]; lia.
Qed.

Lemma introsortData_ok sz (d : list T) :
  0 ≤ sz ≤ len d →
  ∃ d', introsortData lt sz d = Ok d' ∧ perm_in 0 (Z.to_nat sz) d d'.
Proof.
  intros Hsz. unfold introsortData.
  destruct (introsortRange_ok (S (Z.to_nat sz)) 0 (sz - 1) (maxDepth sz) d)
    as (d' & -> & Hp); [lia..|].
  exists d'. split; [done|]. by replace (sz - 1 + 1) with sz in Hp by lia.
Qed.

End Introsort.

(** ** Timsort-lite *)

Section Timsort.
Context {T : Type} (lt : T → T → bool).

Lemma reverse_loop_ok fuel :
  ∀ a b (d : list T),
    0 ≤ a → b < len d → (Z.to_nat (b - a) < fuel)%nat →
    ∃ d', reverse_loop fuel a b d = Ok d' ∧
      perm_in (Z.to_nat a) (Z.to_nat (b + 1)) d d'.
Proof.
  induction fuel as [|fuel IH]; intros a b d Ha Hb Hfuel; [lia|].
  cbn [reverse_loop]. destruct (decide (a < b)); [|by exists d].
  destruct (swap_perm_in (Z.to_nat a) (Z.to_nat (b + 1)) d a b)
    as (d1 & -> & Hp1); [lia..|]. res_simpl.
  pose proof (perm_in_length _ _ _ _ Hp1) as Hlen1.
  destruct (IH (a + 1) (b - 1) d1) as (d2 & -> & Hp2); [lia | len_lia | lia |].
  exists d2. split; [done|]. eapply perm_in_trans; [done|].
  eapply perm_in_weaken; [| |done]; lia.
Qed.

Lemma run_ascending_ok fuel :
  ∀ sz (d : list T) i,
    0 ≤ i → sz ≤ len d → (Z.to_nat (sz - i) < fuel)%nat →
    ∃ i', run_ascending lt fuel sz d i = Ok i' ∧ i ≤ i' ∧ (i < sz → i' < sz).
Proof.
  induction fuel as [|fuel IH]; intros sz d i Hi Hsz Hfuel; [lia|].
  cbn [run_ascending]. destruct (decide (i < sz - 1)); [|exists i; split; [done|lia]].
  destruct (get_in_range d i) as [a ->]; [lia|].
  destruct (get_in_range d (i + 1)) as [b ->]; [lia|]. res_simpl.
  destruct (lt a b); [|exists i; split; [done|lia]].
  destruct (IH sz d (i + 1)) as (i' & -> & Hi'); [lia..|].
  exists i'. split; [done|lia].
Qed.

Lemma run_descending_ok fuel :
  ∀ sz (d : list T) i,
    0 ≤ i → sz ≤ len d → (Z.to_nat (sz - i) < fuel)%nat →
    ∃ i', run_descending lt fuel sz d i = Ok i' ∧ i ≤ i' ∧ (i < sz → i' < sz).
Proof.
  induction fuel as [|fuel IH]; intros sz d i Hi Hsz Hfuel; [lia|].
  cbn [run_descending]. destruct (decide (i < sz - 1)); [|exists i; split; [done|lia]].
  destruct (get_in_range d i) as [a ->]; [lia|].
  destruct (get_in_range d (i + 1)) as [b ->]; [lia|]. res_simpl.
  destruct (lt b a || negb (lt a b) && negb (lt b a)); [|exists i; split; [done|lia]].
  destruct (IH sz d (i + 1)) as (i' & -> & Hi'); [lia..|].
  exists i'. split; [done|lia].
Qed.

Lemma runs_ok_snoc sz runs i i2 :
  runs_ok sz runs → Forall (λ r, r ≤ i) runs → i < i2 → 0 ≤ i2 ≤ sz →
  runs_ok sz (runs ++ [i2]).
Proof.
  intros [Hss Hb] Hle Hlt Hi2. split.
  - apply StronglySorted_app. split; [|split; [done|repeat constructor]].
    intros x1 x2 Hx1 Hx2. apply list_elem_of_singleton in Hx2 as ->.
    rewrite Forall_forall in Hle. specialize (Hle x1 Hx1). lia.
  - apply Forall_app. split; [done|]. by apply Forall_singleton.
Qed.

Lemma findRuns_loop_ok fuel :
  ∀ sz (d : list T) runs i,
    0 ≤ i ≤ sz → sz ≤ len d → (Z.to_nat (sz - i) < fuel)%nat →
    runs_ok sz runs → Forall (λ r, r ≤ i) runs → last runs = Some i →
    ∃ d' runs' i',
      findRuns_loop lt fuel sz d runs i = Ok (d', runs') ∧
      perm_in 0 (Z.to_nat sz) d d' ∧
      runs_ok sz runs' ∧ Forall (λ r, r ≤ i') runs' ∧ last runs' = Some i' ∧
      sz - 1 ≤ i' ≤ sz.
Proof.
  induction fuel as [|fuel IH]; intros sz d runs i Hi Hsz Hfuel Hok Hle Hlast; [lia|].
  cbn [findRuns_loop]. destruct (decide (i < sz - 1)).
  2:{ exists d, runs, i. split; [done|]. split; [apply perm_in_refl|].
      split; [done|]. split; [done|]. split; [done|]. lia. }
  destruct (get_in_range d i) as [a ->]; [lia|].
  destruct (get_in_range d (i + 1)) as [b ->]; [lia|]. res_simpl.
  assert (∃ d1 i1,
            (if lt a b
             then i' ← run_ascending lt (S (Z.to_nat sz)) sz d i; Ok (d, i')
             else i' ← run_descending lt (S (Z.to_nat sz)) sz d i;
                  d' ← reverseRange i i' d; Ok (d', i')) = Ok (d1, i1) ∧
            perm_in 0 (Z.to_nat sz) d d1 ∧ i ≤ i1 < sz) as (d1 & i1 & -> & Hp1 & Hi1).
  { destruct (lt a b).
    - destruct (run_ascending_ok (S (Z.to_nat sz)) sz d i) as (i' & -> & Hi'); [lia..|].
      res_simpl. exists d, i'. split; [done|]. split; [apply perm_in_refl | lia].
    - destruct (run_descending_ok (S (Z.to_nat sz)) sz d i) as (i' & -> & Hi'); [lia..|].
      res_simpl. unfold reverseRange.
      destruct (reverse_loop_ok (S (Z.to_nat (i' - i))) i i' d) as (d' & -> & Hp);
        [lia..|]. res_simpl.
      exists d', i'. split; [done|]. split; [|lia].
      eapply perm_in_weaken; [| |done]; lia. }
  res_simpl. pose proof (perm_in_length _ _ _ _ Hp1) as Hlen1.
  destruct (IH sz d1 (runs ++ [i1 + 1]) (i1 + 1))
    as (d' & runs' & i' & -> & Hp & Hok' & Hle' & Hlast' & Hi'); [lia | len_lia | lia | | | |].
  - eapply runs_ok_snoc; [done | done | lia | lia].
  - apply Forall_app. split; [|apply Forall_singleton; lia].
    eapply Forall_impl; [done|]. simpl. lia.
  - by rewrite last_snoc.
  - exists d', runs', i'. split; [done|]. split; [by eapply perm_in_trans|done].
Qed.

Lemma findRuns_ok sz (d : list T) :
  0 ≤ sz ≤ len d →
  ∃ d' runs, findRuns lt sz d = Ok (d', runs) ∧
    perm_in 0 (Z.to_nat sz) d d' ∧ runs_ok sz runs.
Proof.
  intros Hsz. unfold findRuns.
  destruct (findRuns_loop_ok (S (Z.to_nat sz)) sz d [0] 0)
    as (d' & runs & i' & -> & Hp & Hok & Hle & Hlast & Hi'); [lia..| | |done|].
  { split; [repeat constructor | apply Forall_singleton; lia]. }
  { by apply Forall_singleton. }
  res_simpl.
  assert (get runs (len runs - 1) = Ok i') as ->.
  { apply get_Ok_iff. rewrite last_lookup in Hlast.
    assert (0 < length runs)%nat by (destruct runs; [done|simpl; lia]).
    split; [len_lia|]. rewrite <- Hlast. f_equal. len_lia. }
  res_simpl. exists d'. eexists. split; [done|]. split; [done|].
  destruct (decide (i' ≠ sz)); [|done].
  eapply runs_ok_snoc; [done | done | lia | lia].
Qed.

Lemma merge_ok left mid right (d temp : list T) :
  0 ≤ left → left ≤ mid → mid < right → right < len d → right < len temp →
  ∃ d' temp', merge lt left mid right d temp = Ok (d', temp') ∧
    perm_in (Z.to_nat left) (Z.to_nat (right + 1)) d d' ∧
    length temp' = length temp.
Proof.
  intros Hleft Hmid Hright Hd Htemp.
  destruct (split_range d left (mid + 1)) as (pre & A & rest & -> & Hpre & HA); [lia..|len_lia|].
  destruct (split_range rest 0 (right - mid)) as (nil' & B & post & -> & Hnil & HB);
    [lia | lia | len_lia |].
  destruct nil'; [|len_lia]. cbn [app].
  destruct (split_range temp left (right + 1)) as (tpre & tseg & tpost & -> & Htpre & Htseg);
    [lia..|].
  rewrite (merge_spec lt left mid right pre A B post tpre tseg tpost) by len_lia.
  eexists _, _. split; [done|]. split; [|len_lia].
  replace (Z.to_nat left) with (length pre) by len_lia.
  replace (Z.to_nat (right + 1)) with (length pre + length (A ++ B))%nat by len_lia.
  rewrite !(app_assoc A B post), !(app_assoc _ _ post).
  rewrite <- (app_assoc pre). rewrite <- (app_assoc pre).
  apply perm_in_app, lmerge_perm.
Qed.

Lemma runs_ok_delete sz (l1 l2 : list Z) x :
  runs_ok sz (l1 ++ x :: l2) → runs_ok sz (l1 ++ l2).
Proof.
  intros [Hss Hb]. split.
  - apply StronglySorted_app in Hss as (H12 & H1 & H2).
    apply StronglySorted_cons in H2 as [_ H2].
    apply StronglySorted_app. split; [|done].
    intros x1 x2 Hx1 Hx2. apply H12; [done|]. by right.
  - apply Forall_app in Hb as [Hb1 Hb2]. apply Forall_cons in Hb2 as [_ Hb2].
    by apply Forall_app.
Qed.

Lemma runs_ok_lookup_lt sz runs (a b : nat) x y :
  runs_ok sz runs → runs !! a = Some x → runs !! b = Some y → (a < b)%nat → x < y.
Proof.
  intros [Hss _] Ha Hb Hab.
  rewrite <- (take_drop b runs) in Hss.
  apply (StronglySorted_app_1_elem_of _ _ _ x y) in Hss; [done| |].
  - apply list_elem_of_lookup. exists a. by rewrite lookup_take_lt.
  - apply list_elem_of_lookup. exists 0%nat. rewrite lookup_drop. by rewrite Nat.add_0_r.
Qed.

Lemma runs_ok_lookup sz runs (a : nat) x :
  runs_ok sz runs → runs !! a = Some x → 0 ≤ x ≤ sz.
Proof.
  intros [_ Hb] Ha. rewrite Forall_forall in Hb. apply Hb.
  by eapply list_elem_of_lookup_2.
Qed.

(** One pass over the run boundaries: adjacent runs are merged and the
    boundary between them is dropped. *)
Lemma mergeRuns_pass_ok sz runs fuel :
  ∀ i (d temp : list T) newRuns,
    0 ≤ sz → sz ≤ len d → sz ≤ len temp → 1 ≤ i →
    (Z.to_nat (len runs - i) < fuel)%nat →
    runs_ok sz runs →
    runs_ok sz (newRuns ++ drop (Z.to_nat i) runs) →
    ∃ d' temp' newRuns' k,
      mergeRuns_pass lt fuel runs i d temp newRuns = Ok (d', temp', newRuns') ∧
      perm_in 0 (Z.to_nat sz) d d' ∧ length temp' = length temp ∧
      runs_ok sz (newRuns' ++ drop (Z.to_nat (i + 2 * k)) runs) ∧
      0 ≤ k ∧ len runs - 1 ≤ i + 2 * k ∧ (i ≤ len runs → i + 2 * k ≤ len runs) ∧
      (length (newRuns' ++ drop (Z.to_nat (i + 2 * k)) runs) ≤
         length (newRuns ++ drop (Z.to_nat i) runs))%nat ∧
      (i < len runs - 1 →
       (length (newRuns' ++ drop (Z.to_nat (i + 2 * k)) runs) <
          length (newRuns ++ drop (Z.to_nat i) runs))%nat).
Proof.
  induction fuel as [|fuel IH];
    intros i d temp newRuns Hsz Hd Htemp Hi Hfuel Hruns Hnew; [lia|].
  cbn [mergeRuns_pass]. destruct (decide (i < len runs - 1)) as [Hlt|Hge].
  2:{ exists d, temp, newRuns, 0. rewrite Z.add_0_r. split; [done|].
      split; [apply perm_in_refl|]. repeat (split; [done || lia|]). lia. }
  destruct (get_in_range runs (i - 1)) as [left Hleft]; [lia|].
  destruct (get_in_range runs i) as [r1 Hr1]; [lia|].
  destruct (get_in_range runs (i + 1)) as [r2 Hr2]; [lia|].
  rewrite Hleft, Hr1, Hr2. res_simpl.
  apply get_Ok_iff in Hleft as [_ Hleft]. apply get_Ok_iff in Hr1 as [_ Hr1].
  apply get_Ok_iff in Hr2 as [_ Hr2].
  pose proof (runs_ok_lookup_lt sz runs _ _ _ _ Hruns Hleft Hr1 ltac:(lia)).
  pose proof (runs_ok_lookup_lt sz runs _ _ _ _ Hruns Hr1 Hr2 ltac:(lia)).
  pose proof (runs_ok_lookup sz runs _ _ Hruns Hleft).
  pose proof (runs_ok_lookup sz runs _ _ Hruns Hr2).
  destruct (merge_ok left (r1 - 1) (r2 - 1) d temp) as (d1 & temp1 & -> & Hp1 & Ht1);
    [lia..|]. res_simpl.
  pose proof (perm_in_length _ _ _ _ Hp1) as Hlen1.
  assert (drop (Z.to_nat i) runs = r1 :: r2 :: drop (Z.to_nat (i + 2)) runs) as Hdrop.
  { rewrite (drop_S _ r1) by done. f_equal.
    replace (S (Z.to_nat i)) with (Z.to_nat (i + 1)) by lia.
    rewrite (drop_S _ r2) by done. do 2 f_equal. lia. }
  destruct (IH (i + 2) d1 temp1 (newRuns ++ [r2]))
    as (d' & temp' & newRuns' & k & -> & Hp & Ht & Hok & Hk & Hik & Hik' & Hlen & _);
    [lia | len_lia | len_lia | lia | lia | done | |].
  { rewrite Hdrop in Hnew. apply runs_ok_delete in Hnew.
    by rewrite <- app_assoc. }
  exists d', temp', newRuns', (k + 1).
  replace (i + 2 * (k + 1)) with (i + 2 + 2 * k) by lia.
  split; [done|]. split.
  { eapply perm_in_trans; [|done]. eapply perm_in_weaken; [| |done]; lia. }
  split; [congruence|]. split; [done|]. split; [lia|]. split; [lia|].
  split; [lia|].
  rewrite Hdrop. rewrite <- app_assoc in Hlen. cbn [app] in Hlen.
  rewrite !length_app in *. cbn [length] in *. lia.
Qed.

Lemma mergeRuns_loop_ok sz fuel :
  ∀ runs (d temp : list T),
    0 ≤ sz → sz ≤ len d → sz ≤ len temp →
    (length runs < fuel)%nat → runs_ok sz runs →
    ∃ d', mergeRuns_loop lt fuel runs d temp = Ok d' ∧
      perm_in 0 (Z.to_nat sz) d d'.
Proof.
  induction fuel as [|fuel IH]; intros runs d temp Hsz Hd Htemp Hfuel Hruns; [lia|].
  cbn [mergeRuns_loop]. destruct (decide (2 < len runs)) as [Hlen|_]; [|by exists d].
  destruct (get_in_range runs 0) as [r0 Hr0]; [lia|]. rewrite Hr0. res_simpl.
  apply get_Ok_iff in Hr0 as [_ Hr0]. change (Z.to_nat 0) with 0%nat in Hr0.
  assert (runs = [r0] ++ drop (Z.to_nat 1) runs) as Hsplit.
  { change (Z.to_nat 1) with 1%nat. destruct runs as [|r runs']; [done|].
    cbn in Hr0. injection Hr0 as ->. done. }
  destruct (mergeRuns_pass_ok sz runs (S (length runs)) 1 d temp [r0])
    as (d1 & temp1 & newRuns & k & -> & Hp1 & Ht1 & Hok & Hk & Hik & Hik' & _ & Hshort);
    [lia | lia | lia | lia | len_lia | done | by rewrite <- Hsplit |].
  res_simpl. specialize (Hik' ltac:(lia)). specialize (Hshort ltac:(lia)).
  rewrite <- Hsplit in Hshort.
  pose proof (perm_in_length _ _ _ _ Hp1) as Hlen1.
  assert (∃ newRuns',
            (if decide (len runs `rem` 2 = 0)
             then rl ← get runs (len runs - 1); Ok (newRuns ++ [rl])
             else Ok newRuns) = Ok newRuns' ∧
            newRuns' = newRuns ++ drop (Z.to_nat (1 + 2 * k)) runs) as (nr & -> & ->).
  { destruct (decide (len runs `rem` 2 = 0)) as [Heven|Hodd].
    - assert (1 + 2 * k = len runs - 1) as Hk'.
      { rewrite Z.rem_divide in Heven by lia. destruct Heven as [c Hc]. lia. }
      destruct (get_in_range runs (len runs - 1)) as [rl Hrl]; [lia|]. rewrite Hrl.
      res_simpl. eexists. split; [done|]. f_equal. rewrite Hk'.
      apply get_Ok_iff in Hrl as [_ Hrl].
      rewrite (drop_S _ rl) by done. rewrite drop_ge by len_lia. done.
    - assert (1 + 2 * k = len runs) as Hk'.
      { destruct (decide (1 + 2 * k = len runs)); [done|]. exfalso. apply Hodd.
        apply Z.rem_divide; [lia|]. exists (k + 1). lia. }
      eexists. split; [done|]. rewrite Hk', drop_ge by len_lia. by rewrite app_nil_r. }
  res_simpl.
  destruct (IH (newRuns ++ drop (Z.to_nat (1 + 2 * k)) runs) d1 temp1)
    as (d' & -> & Hp'); [lia | len_lia | len_lia | lia | done |].
  exists d'. split; [done|]. by eapply perm_in_trans.
Qed.

Lemma timsortData_ok `{Reflect T} sz (d : list T) :
  0 ≤ sz ≤ len d →
  ∃ d', timsortData lt sz d = Ok d' ∧ perm_in 0 (Z.to_nat sz) d d'.
Proof.
  intros Hsz. unfold timsortData. destruct (decide (sz ≤ 32)).
  - rewrite insertionSortData_spec by done. eexists. split; [done|].
    rewrite <- (take_drop (Z.to_nat sz) d) at 1.
    pose proof (perm_in_app [] (take (Z.to_nat sz) d)
                  (isort lt (take (Z.to_nat sz) d)) (drop (Z.to_nat sz) d)
                  (isort_perm lt _)) as Hp.
    cbn [app length] in Hp. rewrite length_take in Hp.
    replace (0 + Z.to_nat sz `min` length d)%nat with (Z.to_nat sz) in Hp by len_lia.
    exact Hp.
  - destruct (findRuns_ok sz d Hsz) as (d1 & runs & -> & Hp1 & Hruns). res_simpl.
    pose proof (perm_in_length _ _ _ _ Hp1) as Hlen1.
    unfold mergeRuns, make. rewrite decide_True by lia. res_simpl.
    destruct (mergeRuns_loop_ok sz (S (length runs)) runs d1
                (replicate (Z.to_nat sz) zero)) as (d' & -> & Hp');
      [lia | len_lia | len_lia | lia | done |].
    exists d'. split; [done|]. by eapply perm_in_trans.
Qed.

End Timsort.

(** ** The container operations *)

Section ContainerOps.
Context {T : Type} `{Reflect T}.
Implicit Types pq : PQueue T.

Lemma copy_fresh (n : nat) (z : T) (l : list T) :
  length l = n → copy (replicate n z) l = l.
Proof.
  intros Hn. unfold copy. rewrite length_replicate, <- Hn, firstn_all.
  rewrite drop_ge by (rewrite length_replicate; lia). apply app_nil_r.
Qed.

Lemma New_data (d : list T) lt : data (New d lt) = d.
Proof. apply copy_fresh. reflexivity. Qed.

Lemma New_wf (d : list T) lt : wf (New d lt).
Proof. unfold wf. rewrite New_data. cbn. unfold len. lia. Qed.

Lemma New_live (d : list T) lt : live (New d lt) = d.
Proof.
  unfold live. rewrite New_data. cbn. unfold len.
  rewrite Nat2Z.id. apply firstn_all.
Qed.

Lemma ToSlice_live pq : wf pq → ToSlice pq = Ok (live pq).
Proof.
  intros [H0 H1]. unfold ToSlice, make, slice_to.
  rewrite decide_True by done. res_simpl.
  rewrite decide_True by done. res_simpl.
  f_equal. apply copy_fresh. unfold live. rewrite length_take. unfold len in *. lia.
Qed.

Lemma Push_spec pq x :
  wf pq →
  ∃ pq', Push pq x = Ok pq' ∧ wf pq' ∧
    size pq' = size pq + 1 ∧ live pq' = live pq ++ [x] ∧
    less pq' = less pq ∧ dataType pq' = dataType pq ∧
    capacity pq' =
      (if decide (size pq = capacity pq)
       then Z.max 1 (2 * capacity pq) else capacity pq).
Proof.
  intros [H0 H1]. unfold Push, capacity.
  destruct (decide (len (data pq) ≤ size pq)) as [Hfull|Hroom].
  - assert (size pq = len (data pq)) as Hsz by lia.
    set (newSize := if decide (len (data pq) * 2 = 0) then 1 else len (data pq) * 2).
    assert (newSize = Z.max 1 (2 * len (data pq))) as HnewSize.
    { unfold newSize. pose proof (len_nonneg (data pq)). case_decide; lia. }
    assert (len (data pq) < newSize) as Hgrow.
    { pose proof (len_nonneg (data pq)). lia. }
    unfold make, slice_to.
    rewrite decide_True by lia. res_simpl.
    rewrite decide_True by lia. res_simpl.
    set (d := copy _ _).
    assert (d = data pq ++ replicate (Z.to_nat newSize - length (data pq)) zero) as Hd.
    { unfold d, copy. rewrite length_replicate, length_take.
      rewrite Hsz. unfold len. rewrite Nat2Z.id, firstn_all, Nat.min_id.
      rewrite take_ge by (unfold len in *; lia).
      f_equal. rewrite drop_replicate. done. }
    assert (len d = newSize) as Hlen.
    { rewrite Hd. unfold len in *. rewrite length_app, length_replicate. lia. }
    rewrite set_in_range by lia. res_simpl.
    eexists. split; [reflexivity|]. cbn [size data less dataType].
    unfold wf, live; cbn [size data].
    split_and!; try done.
    + lia.
    + unfold len in *. rewrite length_insert. lia.
    + rewrite Hd, Hsz. unfold len. rewrite Nat2Z.id.
      replace (Z.to_nat (Z.of_nat (length (data pq)) + 1)) with (S (length (data pq))) by lia.
      rewrite firstn_all.
      destruct (Z.to_nat newSize - length (data pq))%nat as [|k] eqn:Hk;
        [unfold len in *; lia|].
      cbn [replicate].
      rewrite insert_app_r_alt by lia. rewrite Nat.sub_diag. cbn [insert list_insert].
      change (data pq ++ x :: replicate k zero) with (data pq ++ [x] ++ replicate k zero).
      rewrite app_assoc. apply take_app_length'. rewrite length_app. cbn. lia.
    + rewrite decide_True by done. unfold len in *. rewrite length_insert. lia.
  - res_simpl. rewrite set_in_range by lia. res_simpl.
    eexists. split; [reflexivity|]. cbn [size data less dataType].
    unfold wf, live; cbn [size data].
    split_and!; try done.
    + lia.
    + unfold len in *. rewrite length_insert. lia.
    + replace (Z.to_nat (size pq + 1)) with (S (Z.to_nat (size pq))) by lia.
      destruct (get_in_range (data pq) (size pq)) as [y Hy]; [lia|].
      apply get_Ok_iff in Hy as [_ Hy].
      rewrite (take_S_r _ _ x).
      * rewrite take_insert_ge by lia. done.
      * rewrite list_lookup_insert_eq; [done|]. unfold len in *. lia.
    + rewrite decide_False by lia. unfold len. rewrite length_insert. done.
Qed.


Lemma remove_by_last (l : list T) (m : nat) x y :
  l !! m = Some x → last l = Some y →
  x :: take (length l - 1) (<[m := y]> l) ≡ₚ l.
Proof.
  intros Hm Hlast.
  destruct (last_Some l y) as [[l' ->] _]; [done|].
  rewrite length_app. cbn [length].
  replace (length l' + 1 - 1)%nat with (length l') by lia.
  destruct (decide (m < length l')%nat) as [Hlt|Hge].
  - rewrite lookup_app_l in Hm by done.
    rewrite insert_app_l by done.
    rewrite take_app_length' by (by rewrite length_insert).
    apply list_elem_of_split_length in Hm as (l1 & l2 & -> & ->).
    rewrite insert_app_r_alt by lia. rewrite Nat.sub_diag. cbn [insert list_insert].
    rewrite <- !app_assoc. cbn [app].
    rewrite <- (Permutation_middle l1 (l2 ++ [y]) x).
    apply Permutation_cons; [done|]. apply Permutation_app_head.
    apply Permutation_cons_append.
  - apply lookup_lt_Some in Hm as Hlen. rewrite length_app in Hlen. cbn in Hlen.
    assert (m = length l') as -> by lia.
    rewrite list_lookup_middle in Hm by done. injection Hm as <-.
    rewrite take_insert_ge by lia. rewrite take_app_length.
    apply Permutation_cons_append.
Qed.

Lemma Pop_spec pq :
  wf pq → size pq ≠ 0 →
  ∃ x pq', Pop pq = Ok ((x, None), pq') ∧ wf pq' ∧
    size pq' = size pq - 1 ∧ x :: live pq' ≡ₚ live pq ∧
    less pq' = less pq ∧ dataType pq' = dataType pq ∧
    capacity pq' = capacity pq ∧
    (StrictWeakOrder (less pq) → ∀ y, y ∈ live pq → less pq y x = false).
Proof.
  intros Hwf Hsz. pose proof Hwf as [H0 H1]. unfold Pop.
  rewrite decide_False by done.
  destruct (minIdx_loop_ok pq (Z.to_nat (size pq - 1)) 1 0) as (m & Hloop & Hm);
    [done | lia | lia |].
  rewrite Hloop. res_simpl.
  destruct (get_in_range (data pq) m) as [x Hx]; [lia|].
  destruct (get_in_range (data pq) (size pq - 1)) as [lst Hlast]; [lia|].
  rewrite Hx, Hlast. res_simpl. rewrite set_in_range by lia. res_simpl.
  eexists _, _. split; [reflexivity|].
  cbn [size data less dataType]. unfold wf, live, capacity. cbn [size data].
  split_and!; try done.
  - lia.
  - unfold len in *. rewrite length_insert. lia.
  - assert (length (take (Z.to_nat (size pq)) (data pq)) = Z.to_nat (size pq)) as Hlen.
    { rewrite length_take. unfold len in *. lia. }
    rewrite <- (remove_by_last (take (Z.to_nat (size pq)) (data pq)) (Z.to_nat m) x lst).
    + rewrite Hlen. apply Permutation_cons; [done|].
      replace (Z.to_nat (size pq) - 1)%nat with (Z.to_nat (size pq - 1)) by lia.
      rewrite <- take_insert_lt by lia.
      rewrite take_take. by rewrite Nat.min_l by lia.
    + apply get_Ok_iff in Hx as [_ Hx]. rewrite lookup_take_lt by lia. done.
    + rewrite last_lookup, Hlen. apply get_Ok_iff in Hlast as [_ Hlast].
      rewrite lookup_take_lt by lia.
      by replace (Init.Nat.pred (Z.to_nat (size pq))) with (Z.to_nat (size pq - 1)) by lia.
  - unfold len. by rewrite length_insert.
  - intros Hlt y Hy.
    destruct (get_in_range (data pq) 0) as [x0 Hx0]; [lia|].
    pose proof (minIdx_loop_min pq _ 1 0 m Hlt (is_first_min_start pq x0 Hlt Hx0) Hloop)
      as (x' & Hx' & _ & Hmin & _).
    assert (x' = x) as -> by congruence.
    apply list_elem_of_lookup_1 in Hy as [j Hj].
    apply (Hmin (Z.of_nat j)).
    + apply lookup_lt_Some in Hj. fold (live pq) in Hj.
      pose proof (live_length pq Hwf). unfold len in *. lia.
    + by apply live_lookup.
Qed.

Lemma Pop_empty pq : size pq = 0 → Pop pq = Ok ((zero, Some errQueueEmpty), pq).
Proof. intros Hsz. unfold Pop. by rewrite decide_True. Qed.

Lemma pop_n_spec (n : nat) :
  ∀ pq, wf pq → StrictWeakOrder (less pq) → size pq = Z.of_nat n →
    ∃ out pq', pop_n n pq = Ok (out, pq') ∧
      out ≡ₚ live pq ∧ sorted_by (less pq) out ∧ size pq' = 0 ∧
      less pq' = less pq ∧ capacity pq' = capacity pq.
Proof.
  induction n as [|n IH]; intros pq Hwf Hlt Hsz.
  - exists [], pq. cbn [pop_n]. split_and!; try done.
    unfold live. rewrite Hsz. by rewrite take_0.
  - destruct (Pop_spec pq Hwf) as (x & pq1 & Hpop & Hwf1 & Hsz1 & Hperm & Hless & _ & Hcap & Hmin);
      [lia|].
    cbn [pop_n]. rewrite Hpop. res_simpl.
    destruct (IH pq1) as (xs & pq2 & Hrest & Hperm2 & Hsorted & Hsz2 & Hless2 & Hcap2);
      [done | by rewrite Hless | lia |].
    rewrite Hrest. res_simpl. exists (x :: xs), pq2.
    split_and!; try done; try congruence.
    + by rewrite Hperm2.
    + apply sorted_by_cons. split; [|by rewrite <- Hless].
      intros y Hy. apply Hmin; [done|].
      rewrite <- Hperm, <- Hperm2. right.
      destruct xs; [done|]. injection Hy as ->. by left.
Qed.

End ContainerOps.

(** ** Ranges of the buffer *)

Section Ranges.
Context {T : Type}.
Implicit Types d : list T.

Lemma get_insert d (i : nat) k x :
  (i < length d)%nat →
  get (<[i := x]> d) k = if decide (k = Z.of_nat i) then Ok x else get d k.
Proof.
  intros Hi. unfold get. destruct (decide (0 ≤ k)) as [Hk|Hk].
  - destruct (decide (k = Z.of_nat i)) as [->|Hne].
    + rewrite Nat2Z.id, list_lookup_insert_eq by done. done.
    + rewrite list_lookup_insert_ne by lia. done.
  - rewrite decide_False by lia. done.
Qed.

Lemma set_Ok d i x d' : set d i x = Ok d' → 0 ≤ i < len d ∧ d' = <[Z.to_nat i := x]> d.
Proof. unfold set. case_decide; [|done]. by intros [= <-]. Qed.

Lemma swap_get d i j d' k :
  swap d i j = Ok d' →
  get d' k = if decide (k = j) then get d i
             else if decide (k = i) then get d j else get d k.
Proof.
  unfold swap. intros Hswap.
  apply bind_Ok in Hswap as (x & Hx & Hswap).
  apply bind_Ok in Hswap as (y & Hy & Hswap).
  apply bind_Ok in Hswap as (d1 & Hd1 & Hswap).
  apply set_Ok in Hd1 as [Hi ->]. apply set_Ok in Hswap as [Hj ->].
  unfold len in Hj. rewrite length_insert in Hj.
  rewrite get_insert by (rewrite length_insert; unfold len in *; lia).
  rewrite get_insert by (unfold len in *; lia).
  rewrite !Z2Nat.id by lia.
  destruct (decide (k = j)); [done|]. by destruct (decide (k = i)).
Qed.

Lemma perm_in_middle (a b : nat) d d' :
  (a ≤ b)%nat → perm_in a b d d' → drop a (take b d') ≡ₚ drop a (take b d).
Proof.
  intros Hab (Ht & Hd & Hp).
  assert (∀ l : list T, l = take a l ++ drop a (take b l) ++ drop b l) as Hsplit.
  { intros l. rewrite <- (take_drop b l) at 1. rewrite <- (take_drop a (take b l)) at 1.
    rewrite take_take, Nat.min_l by done. by rewrite <- app_assoc. }
  rewrite (Hsplit d), (Hsplit d') in Hp. rewrite Ht, Hd in Hp.
  apply Permutation_app_inv_l in Hp. by apply Permutation_app_inv_r in Hp.
Qed.

Lemma range_all_Forall (P : T → Prop) d (a b : nat) :
  range_all P d (Z.of_nat a) (Z.of_nat b) ↔ Forall P (drop a (take b d)).
Proof.
  rewrite Forall_lookup. split.
  - intros Hall i x Hi. rewrite lookup_drop in Hi.
    apply lookup_take_Some in Hi as [Hi Hlt].
    apply (Hall (Z.of_nat (a + i))); [lia|].
    apply get_Ok_iff. rewrite Nat2Z.id. split; [lia|done].
  - intros Hall k x Hk Hx. apply get_Ok_iff in Hx as [_ Hx].
    apply (Hall (Z.to_nat k - a)%nat). rewrite lookup_drop.
    apply lookup_take_Some. split; [|lia].
    by replace (a + (Z.to_nat k - a))%nat with (Z.to_nat k) by lia.
Qed.

Lemma perm_in_range_all (P : T → Prop) (a b : nat) d d' lo hi :
  perm_in a b d d' → lo = Z.of_nat a → hi = Z.of_nat b →
  range_all P d lo hi → range_all P d' lo hi.
Proof.
  intros Hp -> ->. destruct (decide (a ≤ b)%nat) as [Hab|Hab].
  - rewrite !range_all_Forall. by rewrite (perm_in_middle a b d d').
  - intros _ k x Hk. lia.
Qed.

Lemma perm_in_get_outside (a b : nat) d d' k :
  perm_in a b d d' → k < Z.of_nat a ∨ Z.of_nat b ≤ k → get d' k = get d k.
Proof.
  intros (Ht & Hd & _) Hk. unfold get. destruct (decide (0 ≤ k)); [|done].
  assert (d' !! Z.to_nat k = d !! Z.to_nat k) as ->; [|done].
  destruct Hk as [Hk|Hk].
  - rewrite <- (lookup_take_lt d' a), <- (lookup_take_lt d a) by lia. by rewrite Ht.
  - replace (Z.to_nat k) with (b + (Z.to_nat k - b))%nat by lia.
    rewrite <- !lookup_drop. by rewrite Hd.
Qed.

Lemma range_all_weaken (P : T → Prop) d a b a' b' :
  a ≤ a' → b' ≤ b → range_all P d a b → range_all P d a' b'.
Proof. intros Ha Hb Hall k x Hk. apply Hall. lia. Qed.

Lemma range_all_impl (P Q : T → Prop) d a b :
  (∀ x, P x → Q x) → range_all P d a b → range_all Q d a b.
Proof. intros HPQ Hall k x Hk Hx. by apply HPQ, (Hall k). Qed.

End Ranges.

Section SortedLookup.
Context {T : Type} (lt : T → T → bool).

Lemma sorted_by_lookup (l : list T) :
  sorted_by lt l ↔
  ∀ (i : nat) x y, l !! i = Some x → l !! S i = Some y → lt y x = false.
Proof.
  induction l as [|a l IH].
  - split; [intros _ i x y Hi; done | done].
  - rewrite sorted_by_cons, IH. split.
    + intros [Hhd Htl] [|i] x y Hx Hy.
      * injection Hx as <-. apply Hhd. by destruct l.
      * by apply (Htl i).
    + intros Hall. split.
      * intros y Hy. apply (Hall 0%nat); [done|]. by destruct l.
      * intros i x y Hx Hy. by apply (Hall (S i)).
Qed.

Lemma range_sorted_sorted_by (d : list T) sz :
  range_sorted lt d 0 (sz - 1) → sorted_by lt (take (Z.to_nat sz) d).
Proof.
  intros Hs. apply sorted_by_lookup. intros i x y Hx Hy.
  apply lookup_take_Some in Hx as [Hx Hi]. apply lookup_take_Some in Hy as [Hy Hi'].
  apply (Hs (Z.of_nat i) (Z.of_nat (S i))); [lia..| |];
    apply get_Ok_iff; rewrite Nat2Z.id; (split; [lia|done]).
Qed.

End SortedLookup.

(** ** Quicksort sorts *)

Section QuickSorts.
Context {T : Type} (lt : T → T → bool).

Lemma goes_left_false x p : goes_left lt x p = false → lt p x = true.
Proof. unfold goes_left. destruct (lt x p), (lt p x); done. Qed.

Lemma goes_left_true (Hlt : StrictWeakOrder lt) x p :
  goes_left lt x p = true → lt p x = false.
Proof.
  unfold goes_left. destruct (lt x p) eqn:Hxp; [intros _; by apply (swo_asym lt Hlt)|].
  by destruct (lt p x).
Qed.

(** The loop of [partition] keeps the elements that go left of the pivot
    in [low..i] and the others in [i+1..j). *)
Lemma partition_loop_post pivot n :
  ∀ j d i d' i' low,
    partition_loop lt pivot n j d i = Ok (d', i') →
    low - 1 ≤ i → i < j →
    range_all (λ x, goes_left lt x pivot = true) d low (i + 1) →
    range_all (λ x, goes_left lt x pivot = false) d (i + 1) j →
    range_all (λ x, goes_left lt x pivot = true) d' low (i' + 1) ∧
    range_all (λ x, goes_left lt x pivot = false) d' (i' + 1) (j + Z.of_nat n).
Proof.
  induction n as [|n IH]; intros j d i d' i' low Hloop Hi Hij HL HR.
  - injection Hloop as <- <-. by rewrite Z.add_0_r.
  - cbn [partition_loop] in Hloop.
    apply bind_Ok in Hloop as (x & Hx & Hloop).
    replace (j + Z.of_nat (S n)) with (j + 1 + Z.of_nat n) by lia.
    destruct (goes_left lt x pivot) eqn:Hgl.
    + apply bind_Ok in Hloop as (d1 & Hswap & Hloop).
      apply (IH _ _ _ _ _ low) in Hloop; [done | lia | lia | |].
      * intros k y Hk Hy. rewrite (swap_get _ _ _ _ k Hswap) in Hy.
        destruct (decide (k = j)) as [->|Hkj].
        -- destruct (decide (i + 1 = j)) as [Heq|Hne]; [|lia].
           rewrite Heq in Hy. congruence.
        -- destruct (decide (k = i + 1)) as [->|Hki]; [congruence|].
           apply (HL k); [lia|done].
      * intros k y Hk Hy. rewrite (swap_get _ _ _ _ k Hswap) in Hy.
        destruct (decide (k = j)) as [->|Hkj].
        -- apply (HR (i + 1)); [lia|done].
        -- destruct (decide (k = i + 1)) as [->|Hki]; [lia|].
           apply (HR k); [lia|done].
    + apply (IH _ _ _ _ _ low) in Hloop; [done | lia | lia | done |].
      intros k y Hk Hy. destruct (decide (k = j)) as [->|Hkj]; [congruence|].
      apply (HR k); [lia|done].
Qed.

(** [partition] puts the pivot at the returned position, the elements that
    are not greater before it and the greater ones after it. *)
Lemma partition_post low high d d' pi :
  0 ≤ low → low ≤ high → high < len d →
  partition lt low high d = Ok (d', pi) →
  ∃ pivot,
    get d high = Ok pivot ∧ get d' pi = Ok pivot ∧ low ≤ pi ≤ high ∧
    perm_in (Z.to_nat low) (Z.to_nat (high + 1)) d d' ∧
    range_all (λ x, goes_left lt x pivot = true) d' low pi ∧
    range_all (λ x, goes_left lt x pivot = false) d' (pi + 1) (high + 1).
Proof.
  intros Hlow Hle Hhigh Hpart.
  destruct (partition_ok lt low high d) as (d'' & pi' & Hpart' & Hperm & Hpi); [lia..|].
  rewrite Hpart in Hpart'. injection Hpart' as <- <-.
  unfold partition in Hpart.
  apply bind_Ok in Hpart as (pivot & Hpivot & Hpart).
  apply bind_Ok in Hpart as ([d1 i] & Hloop & Hpart).
  apply bind_Ok in Hpart as (d2 & Hswap & Hpart).
  injection Hpart as -> <-.
  exists pivot. split; [done|].
  destruct (partition_loop_ok lt pivot (Z.to_nat (high - low)) low d (low - 1) low high)
    as (d1' & i'' & Hloop' & Hp1 & Hi); [lia..|].
  rewrite Hloop in Hloop'. injection Hloop' as <- <-.
  assert (get d1 high = Ok pivot) as Hpivot1.
  { rewrite (perm_in_get_outside _ _ _ _ high Hp1); [done|lia]. }
  apply (partition_loop_post _ _ _ _ _ _ _ low) in Hloop as [HL HR];
    [|lia|lia|intros k x Hk; lia|intros k x Hk; lia].
  replace (low + Z.of_nat (Z.to_nat (high - low))) with high in HR by lia.
  split; [|split; [done|split; [done|split]]].
  - rewrite (swap_get _ _ _ _ (i + 1) Hswap).
    destruct (decide (i + 1 = high)) as [Heq|Hne]; [by rewrite Heq|].
    by rewrite decide_True.
  - intros k x Hk Hx. rewrite (swap_get _ _ _ _ k Hswap) in Hx.
    rewrite !decide_False in Hx by lia. apply (HL k); [lia|done].
  - intros k x Hk Hx. rewrite (swap_get _ _ _ _ k Hswap) in Hx.
    destruct (decide (k = high)) as [->|Hkh].
    + apply (HR (i + 1)); [lia|done].
    + rewrite decide_False in Hx by lia. apply (HR k); [lia|done].
Qed.

Context (Hlt : StrictWeakOrder lt).

(** Two sorted ranges around a pivot that separates them form a sorted
    range. *)
Lemma range_sorted_join (d : list T) low pi high pivot :
  get d pi = Ok pivot →
  range_all (λ x, lt pivot x = false) d low pi →
  range_all (λ x, lt pivot x = true) d (pi + 1) (high + 1) →
  range_sorted lt d low (pi - 1) → range_sorted lt d (pi + 1) high →
  range_sorted lt d low high.
Proof.
  intros Hpi HL HR HsL HsR i j x y Hi Hij Hj Hx Hy.
  destruct (decide (j < pi)); [apply (HsL i j); (done || lia)|].
  destruct (decide (pi < i)); [apply (HsR i j); (done || lia)|].
  destruct (decide (i = pi)) as [->|Hipi].
  - assert (x = pivot) as -> by congruence.
    destruct (decide (j = pi)) as [->|Hjpi].
    + assert (y = pivot) as -> by congruence. apply (swo_irrefl lt Hlt).
    + apply (swo_asym lt Hlt). apply (HR j); [lia|done].
  - assert (lt pivot x = false) as Hpx by (apply (HL i); [lia|done]).
    destruct (decide (j = pi)) as [->|Hjpi]; [congruence|].
    assert (lt pivot y = true) as Hpy by (apply (HR j); [lia|done]).
    destruct (lt y x) eqn:Hyx; [|done].
    by rewrite (swo_trans lt Hlt pivot y x) in Hpx.
Qed.

Lemma range_sorted_outside (a b : nat) (d d' : list T) low high :
  perm_in a b d d' → (high < Z.of_nat a ∨ Z.of_nat b ≤ low) →
  range_sorted lt d low high → range_sorted lt d' low high.
Proof.
  intros Hp Hout Hs i j x y Hi Hij Hj Hx Hy.
  rewrite (perm_in_get_outside a b d d') in Hx, Hy by (done || lia).
  by apply (Hs i j).
Qed.

Lemma quickSortRange_sorts fuel :
  ∀ low high d,
    0 ≤ low → high < len d → (Z.to_nat (high - low + 1) < fuel)%nat →
    ∃ d', quickSortRange lt fuel low high d = Ok d' ∧
      perm_in (Z.to_nat low) (Z.to_nat (high + 1)) d d' ∧
      range_sorted lt d' low high.
Proof.
  induction fuel as [|fuel IH]; intros low high d Hlow Hhigh Hfuel; [lia|].
  cbn [quickSortRange]. destruct (decide (low < high)) as [Hlh|Hlh].
  2:{ exists d. split; [done|]. split; [apply perm_in_refl|].
      intros i j x y Hi Hij Hj Hx Hy. assert (i = j) as -> by lia.
      assert (x = y) as -> by congruence. apply (swo_irrefl lt Hlt). }
  destruct (partition_ok lt low high d) as (d1 & pi & Hpart & Hp1 & Hpi); [lia..|].
  rewrite Hpart. res_simpl.
  apply partition_post in Hpart as (pivot & _ & Hpiv1 & _ & _ & HL1 & HR1); [|lia..].
  pose proof (perm_in_length _ _ _ _ Hp1) as Hlen1.
  destruct (IH low (pi - 1) d1) as (d2 & -> & Hp2 & Hs2); [lia | len_lia | lia |].
  res_simpl. pose proof (perm_in_length _ _ _ _ Hp2) as Hlen2.
  destruct (IH (pi + 1) high d2) as (d3 & -> & Hp3 & Hs3); [lia | len_lia | lia |].
  replace (pi - 1 + 1) with pi in Hp2 by lia.
  exists d3. split; [done|]. split.
  { eapply perm_in_trans; [done|]. eapply perm_in_trans.
    - eapply perm_in_weaken; [| |done]; lia.
    - eapply perm_in_weaken; [| |done]; lia. }
  apply (range_sorted_join d3 low pi high pivot).
  - rewrite (perm_in_get_outside _ _ _ _ pi Hp3) by lia.
    rewrite (perm_in_get_outside _ _ _ _ pi Hp2) by lia. done.
  - intros k x Hk Hx. rewrite (perm_in_get_outside _ _ _ _ k Hp3) in Hx by lia.
    revert k x Hk Hx.
    apply (perm_in_range_all _ (Z.to_nat low) (Z.to_nat pi) d1 d2); [done|lia..|].
    eapply range_all_impl; [|exact HL1]. intros x. by apply goes_left_true.
  - apply (perm_in_range_all _ (Z.to_nat (pi + 1)) (Z.to_nat (high + 1)) d2 d3);
      [done|lia..|].
    intros k x Hk Hx. rewrite (perm_in_get_outside _ _ _ _ k Hp2) in Hx by lia.
    apply goes_left_false. by apply (HR1 k).
  - eapply range_sorted_outside; [exact Hp3 | lia | done].
  - done.
Qed.

Lemma quickSortData_sorts sz (d : list T) :
  0 ≤ sz ≤ len d →
  ∃ d', quickSortData lt sz d = Ok d' ∧ perm_in 0 (Z.to_nat sz) d d' ∧
    sorted_by lt (take (Z.to_nat sz) d').
Proof.
  intros Hsz. unfold quickSortData.
  destruct (quickSortRange_sorts (S (Z.to_nat sz)) 0 (sz - 1) d) as (d' & -> & Hp & Hs);
    [lia..|].
  exists d'. split; [done|]. replace (sz - 1 + 1) with sz in Hp by lia.
  split; [done|]. by apply range_sorted_sorted_by.
Qed.

End QuickSorts.

(** ** Insertion sort sorts *)

Section InsertionSorts.
Context {T : Type} (lt : T → T → bool) (Hlt : StrictWeakOrder lt).

Lemma sorted_by_snoc (l : list T) x :
  sorted_by lt (l ++ [x]) ↔ sorted_by lt l ∧ ∀ y, last l = Some y → lt x y = false.
Proof.
  induction l as [|a l IH]; [done|].
  rewrite <- app_comm_cons, !sorted_by_cons, IH. destruct l as [|b l].
  - cbn. split.
    + intros [Hax _]. split; [done|]. intros y [= <-]. by apply Hax.
    + intros [_ Hax]. split; [|done]. intros y [= <-]. by apply Hax.
  - cbn [head app last]. change (last (a :: b :: l)) with (last (b :: l)). tauto.
Qed.

Lemma insert_last_last key (l : list T) z :
  last (insert_last lt key l) = Some z → z = key ∨ last l = Some z.
Proof.
  destruct l as [|a l] using rev_ind.
  - rewrite insert_last_nil. intros [= <-]. by left.
  - rewrite insert_last_snoc. destruct (lt key a).
    + rewrite !last_snoc. by right.
    + replace (l ++ [a; key]) with ((l ++ [a]) ++ [key]) by by rewrite <- app_assoc.
      rewrite last_snoc. intros [= <-]. by left.
Qed.

Lemma insert_last_sorted key (l : list T) :
  sorted_by lt l → sorted_by lt (insert_last lt key l).
Proof.
  induction l as [|a l IH] using rev_ind; intros Hs.
  - by rewrite insert_last_nil.
  - rewrite insert_last_snoc. destruct (lt key a) eqn:Hka.
    + apply sorted_by_snoc in Hs as [Hs Ha]. apply sorted_by_snoc. split; [by apply IH|].
      intros z Hz. apply insert_last_last in Hz as [->|Hz]; [|by apply Ha].
      by apply (swo_asym lt Hlt).
    + replace (l ++ [a; key]) with ((l ++ [a]) ++ [key]) by by rewrite <- app_assoc.
      apply sorted_by_snoc. split; [done|]. rewrite last_snoc. by intros y [= <-].
Qed.

Lemma isort_sorted (l : list T) : sorted_by lt (isort lt l).
Proof.
  unfold isort. assert (sorted_by lt ([] : list T)) as Hacc by done.
  revert Hacc. generalize ([] : list T). induction l as [|x l IH]; intros acc Hacc; [done|].
  cbn [foldl]. by apply IH, insert_last_sorted.
Qed.

(** A sorted segment is a sorted range of the buffer. *)
Lemma range_sorted_app (pre seg post : list T) low high :
  sorted_by lt seg → low = len pre → high = low + len seg - 1 →
  range_sorted lt (pre ++ seg ++ post) low high.
Proof.
  intros Hs -> -> i j x y Hi Hij Hj Hx Hy.
  apply get_Ok_iff in Hx as [_ Hx]. apply get_Ok_iff in Hy as [_ Hy].
  unfold len in *.
  rewrite lookup_app_r in Hx, Hy by lia.
  rewrite lookup_app_l in Hx, Hy by lia.
  apply (sorted_by_pairwise lt Hlt seg (Z.to_nat i - length pre)
           (Z.to_nat j - length pre) x y); [done | lia | done | done].
Qed.

Lemma insertionSortRange_sorts low high (d : list T) :
  0 ≤ low → low ≤ high + 1 → high < len d →
  ∃ d', insertionSortRange lt low high d = Ok d' ∧
    perm_in (Z.to_nat low) (Z.to_nat (high + 1)) d d' ∧
    range_sorted lt d' low high.
Proof.
  intros Hlow Hle Hhigh.
  destruct (split_range d low (high + 1)) as (pre & seg & post & -> & Hpre & Hseg);
    [lia..|].
  rewrite insertionSortRange_spec by lia.
  eexists. split; [done|]. split.
  - replace (Z.to_nat low) with (length pre) by (unfold len in *; lia).
    replace (Z.to_nat (high + 1)) with (length pre + length seg)%nat
      by (unfold len in *; lia).
    apply perm_in_app, isort_perm.
  - apply range_sorted_app; [apply isort_sorted | lia |].
    unfold len in *. rewrite isort_length. lia.
Qed.

End InsertionSorts.

(** ** Heapsort sorts *)

Section HeapSorts.
Context {T : Type} (lt : T → T → bool) (Hlt : StrictWeakOrder lt).

(** The choice of [largest] among the root and its children. *)
Lemma heapify_select (d : list T) base sz root l1 l2 :
  let left := 2 * (root - base) + 1 + base in
  let right := 2 * (root - base) + 2 + base in
  (if decide (left < base + sz) then
     a ← get d root; b ← get d left; Ok (if lt a b then left else root)
   else Ok root) = Ok l1 →
  (if decide (right < base + sz) then
     a ← get d l1; b ← get d right; Ok (if lt a b then right else l1)
   else Ok l1) = Ok l2 →
  (l2 = root ∨ (l2 = left ∧ left < base + sz) ∨ (l2 = right ∧ right < base + sz)) ∧
  ∀ v x y,
    v = root ∨ (v = left ∧ left < base + sz) ∨ (v = right ∧ right < base + sz) →
    get d l2 = Ok x → get d v = Ok y → lt x y = false.
Proof.
  intros left right H1 H2.
  assert (∀ x y, lt x y = true → lt y x = false) as Hasym by apply (swo_asym lt Hlt).
  assert (∀ x, lt x x = false) as Hirr by apply (swo_irrefl lt Hlt).
  assert (∀ x y z, lt x y = true → lt x z = false → lt y z = false) as Hcontra.
  { intros x y z Hxy Hxz. destruct (lt y z) eqn:Hyz; [|done].
    by rewrite (swo_trans lt Hlt x y z) in Hxz. }
  destruct (decide (left < base + sz)) as [Hl|Hl];
    destruct (decide (right < base + sz)) as [Hr|Hr].
  - apply bind_Ok in H1 as (a & Ha & H1). apply bind_Ok in H1 as (b & Hb & H1).
    apply bind_Ok in H2 as (a' & Ha' & H2). apply bind_Ok in H2 as (c & Hc & H2).
    destruct (lt a b) eqn:Hab; injection H1 as <-;
      destruct (lt a' c) eqn:Hac; injection H2 as <-;
      (split; [auto|]); intros v x y [->|[[-> _]|[-> _]]] Hx Hy;
      repeat match goal with
      | G1 : get d ?k = Ok ?u, G2 : get d ?k = Ok ?w |- _ =>
          rewrite G1 in G2; injection G2 as <-
      end;
      first [ done | apply Hirr | by apply Hasym
            | apply Hasym; eapply (swo_trans lt Hlt); eassumption
            | eapply Hcontra; eassumption ].
  - apply bind_Ok in H1 as (a & Ha & H1). apply bind_Ok in H1 as (b & Hb & H1).
    injection H2 as <-.
    destruct (lt a b) eqn:Hab; injection H1 as <-;
      (split; [auto|]); intros v x y [->|[[-> _]|[-> ?]]] Hx Hy; try lia;
      repeat match goal with
      | G1 : get d ?k = Ok ?u, G2 : get d ?k = Ok ?w |- _ =>
          rewrite G1 in G2; injection G2 as <-
      end;
      first [ done | apply Hirr | by apply Hasym ].
  - unfold left, right in *. lia.
  - injection H1 as <-. injection H2 as <-. split; [auto|].
    intros v x y [->|[[-> ?]|[-> ?]]] Hx Hy; [|lia..].
    rewrite Hx in Hy. injection Hy as <-. apply Hirr.
Qed.

(** Sifting down restores the heap below [lo] when only the root breaks
    it and the parent of the root dominates the children of the root. *)
Lemma heapify_heap fuel :
  ∀ base sz root (d d' : list T) lo,
    0 ≤ base → base ≤ root → base + sz ≤ len d →
    heapify lt fuel base sz root d = Ok d' →
    0 ≤ lo ≤ root - base →
    (∀ o, lo ≤ o < sz → o ≠ root - base → heap_at lt d base sz o) →
    (∀ p c x y, lo ≤ p →
       root - base = 2 * p + 1 ∨ root - base = 2 * p + 2 →
       c = 2 * (root - base) + 1 ∨ c = 2 * (root - base) + 2 → c < sz →
       get d (base + p) = Ok x → get d (base + c) = Ok y → lt x y = false) →
    ∀ o, lo ≤ o < sz → heap_at lt d' base sz o.
Proof.
  induction fuel as [|fuel IH];
    intros base sz root d d' lo Hbase Hroot Hsz Hheapify Hlo Hheap Hgrand; [done|].
  cbn [heapify] in Hheapify.
  apply bind_Ok in Hheapify as (l1 & Hl1 & Hheapify).
  apply bind_Ok in Hheapify as (l2 & Hl2 & Hheapify).
  destruct (heapify_select d base sz root l1 l2 Hl1 Hl2) as [Hwhich Hmax].
  clear Hl1 Hl2.
  destruct (decide (l2 ≠ root)) as [Hne|Heq].
  - apply bind_Ok in Hheapify as (d1 & Hswap & Hheapify).
    assert (len d1 = len d) as Hlen1.
    { destruct (swap_perm_in (Z.to_nat base) (Z.to_nat (base + sz)) d root l2)
        as (d1' & Hswap' & Hp); [lia..|].
      assert (d1' = d1) as -> by congruence.
      apply perm_in_length in Hp. unfold len. lia. }
    assert (root < l2 < base + sz) as Hl2 by lia.
    apply (IH base sz l2 d1 d' lo); [lia | lia | lia | done | lia | |].
    + intros o Ho Hne2 c x y Hc Hcsz Hx Hy.
      rewrite (swap_get _ _ _ _ _ Hswap) in Hx. rewrite (swap_get _ _ _ _ _ Hswap) in Hy.
      destruct (decide (base + o = l2)) as [?|_]; [lia|].
      destruct (decide (base + o = root)) as [Hor|Hor].
      * (* the root now holds the largest of the three *)
        destruct (decide (base + c = l2)) as [Hcl|Hcl].
        -- apply (Hmax root x y); auto.
        -- destruct (decide (base + c = root)) as [?|_]; [lia|].
           apply (Hmax (base + c) x y); [|done..].
           right. destruct Hc as [->| ->]; [left|right]; split; lia.
      * destruct (decide (base + c = l2)) as [Hcl|Hcl]; [lia|].
        destruct (decide (base + c = root)) as [Hcr|Hcr].
        -- apply (Hgrand o (l2 - base) x y); [lia | lia | lia | lia | done |].
           by replace (base + (l2 - base)) with l2 by lia.
        -- apply (Hheap o) with (c := c); (done || lia).
    + intros p c x y Hp Hchild Hc Hcsz Hx Hy.
      assert (base + p = root) as Hpr by lia.
      rewrite (swap_get _ _ _ _ _ Hswap) in Hx. rewrite (swap_get _ _ _ _ _ Hswap) in Hy.
      rewrite Hpr in Hx. rewrite decide_False in Hx by lia.
      rewrite decide_True in Hx by done.
      rewrite !decide_False in Hy by lia.
      apply (Hheap (l2 - base)) with (c := c); [lia | lia | lia | lia | |done].
      by replace (base + (l2 - base)) with l2 by lia.
  - injection Hheapify as <-. assert (l2 = root) as -> by (by destruct (decide (l2 = root)); [|exfalso; auto]).
    intros o Ho. destruct (decide (o = root - base)) as [->|Hor]; [|by apply Hheap].
    intros c x y Hc Hcsz Hx Hy.
    replace (base + (root - base)) with root in Hx by lia.
    apply (Hmax (base + c) x y); [|done..].
    right. destruct Hc as [->| ->]; [left|right]; split; lia.
Qed.

(** The root of a heap is not less than any of its elements. *)
Lemma heap_root_max (d : list T) base sz :
  0 ≤ base → base + sz ≤ len d →
  (∀ o, 0 ≤ o < sz → heap_at lt d base sz o) →
  ∀ o x y, 0 ≤ o < sz → get d base = Ok x → get d (base + o) = Ok y → lt x y = false.
Proof.
  intros Hbase Hsz Hheap o. 
  assert (∀ n : nat, ∀ o, (Z.to_nat o < n)%nat → ∀ x y, 0 ≤ o < sz →
            get d base = Ok x → get d (base + o) = Ok y → lt x y = false) as Hind.
  2:{ apply (Hind (S (Z.to_nat o))). lia. }
  clear o. induction n as [|n IH]; intros o Hn x y Ho Hx Hy; [lia|].
  destruct (decide (o = 0)) as [->|Hpos].
  - rewrite Z.add_0_r in Hy. assert (x = y) as -> by congruence.
    apply (swo_irrefl lt Hlt).
  - set (p := (o - 1) `div` 2).
    assert (o = 2 * p + 1 ∨ o = 2 * p + 2) as Hchild.
    { unfold p. pose proof (Z.div_mod (o - 1) 2). pose proof (Z.mod_pos_bound (o - 1) 2). lia. }
    assert (0 ≤ p < o) as Hp by lia.
    destruct (get_in_range d (base + p)) as [z Hz]; [lia|].
    apply (swo_nlt_trans lt Hlt y z x).
    + apply (Hheap p) with (c := o); (done || lia).
    + apply (IH p); (done || lia).
Qed.

Lemma heap_build_heap n :
  ∀ low sz i (d d' : list T),
    0 ≤ low → low + sz ≤ len d → i + 1 = Z.of_nat n →
    heap_build lt n low sz i d = Ok d' →
    (∀ o, i < o < sz → heap_at lt d low sz o) →
    ∀ o, 0 ≤ o < sz → heap_at lt d' low sz o.
Proof.
  induction n as [|n IH]; intros low sz i d d' Hlow Hsz Hi Hbuild Hheap.
  - injection Hbuild as <-. intros o Ho. apply Hheap. lia.
  - cbn [heap_build] in Hbuild. apply bind_Ok in Hbuild as (d1 & Hheapify & Hbuild).
    assert (len d1 = len d) as Hlen1.
    { destruct (heapify_ok lt (S (Z.to_nat sz)) low sz (low + i) d)
        as (d1' & Hheapify' & Hp); [lia..|].
      assert (d1' = d1) as -> by congruence.
      apply perm_in_length in Hp. unfold len. lia. }
    apply (IH low sz (i - 1) d1 d'); [lia | lia | lia | done |].
    intros o Ho.
    apply (heapify_heap (S (Z.to_nat sz)) low sz (low + i) d d1 i); [lia | lia | lia | done | lia | | | lia].
    + intros o' Ho' Hne. apply Hheap. lia.
    + intros p c x y Hp Hchild. lia.
Qed.

(** The extraction loop: the heap shrinks from the right, the maximum goes
    to the freed position, and the part after the heap is sorted and
    dominates the heap. *)
Lemma heap_extract_sorts n :
  ∀ low i high (d d' : list T),
    0 ≤ low → low + i ≤ high → high < len d → i = Z.of_nat n →
    heap_extract lt n low i d = Ok d' →
    (∀ o, 0 ≤ o < i + 1 → heap_at lt d low (i + 1) o) →
    range_sorted lt d (low + i + 1) high →
    range_all (λ x, range_all (λ y, lt y x = false) d (low + i + 1) (high + 1))
      d low (low + i + 1) →
    range_sorted lt d' low high.
Proof.
  induction n as [|n IH]; intros low i high d d' Hlow Hi Hhigh Hn Hextract Hheap Hs Hcross.
  - injection Hextract as <-. subst i.
    intros k1 k2 x y Hk1 Hk12 Hk2 Hx Hy.
    destruct (decide (k1 = low)) as [->|Hne]; [|apply (Hs k1 k2); (done || lia)].
    destruct (decide (k2 = low)) as [->|Hne2].
    + assert (x = y) as -> by congruence. apply (swo_irrefl lt Hlt).
    + apply (Hcross low x) with (k := k2); (done || lia).
  - cbn [heap_extract] in Hextract.
    apply bind_Ok in Hextract as (d1 & Hswap & Hextract).
    apply bind_Ok in Hextract as (d2 & Hheapify & Hextract).
    destruct (swap_perm_in (Z.to_nat low) (Z.to_nat (low + i + 1)) d low (low + i))
      as (d1' & Hswap' & Hp1); [lia..|].
    assert (d1' = d1) as -> by congruence. clear Hswap'.
    pose proof (perm_in_length _ _ _ _ Hp1) as Hlen1.
    destruct (heapify_ok lt (S (Z.to_nat i)) low i low d1) as (d2' & Hheapify' & Hp2);
      [lia | lia | len_lia | lia |].
    assert (d2' = d2) as -> by congruence. clear Hheapify'.
    pose proof (perm_in_length _ _ _ _ Hp2) as Hlen2.
    destruct (get_in_range d low) as [m Hm]; [lia|].
    assert (get d2 (low + i) = Ok m) as Hm2.
    { rewrite (perm_in_get_outside _ _ _ _ _ Hp2) by lia.
      rewrite (swap_get _ _ _ _ _ Hswap). by rewrite decide_True. }
    assert (∀ k, low + i < k → get d2 k = get d k) as Hafter.
    { intros k Hk. rewrite (perm_in_get_outside _ _ _ _ _ Hp2) by lia.
      rewrite (swap_get _ _ _ _ _ Hswap). by rewrite !decide_False by lia. }
    apply (IH low (i - 1) high d2 d'); [lia | lia | len_lia | lia | done | | |].
    + replace (i - 1 + 1) with i by lia. intros o Ho.
      apply (heapify_heap (S (Z.to_nat i)) low i low d1 d2 0); [lia | lia | len_lia | done | lia | | | lia].
      * intros o' Ho' Hne c x y Hc Hcsz Hx Hy.
        rewrite (swap_get _ _ _ _ _ Hswap) in Hx. rewrite (swap_get _ _ _ _ _ Hswap) in Hy.
        rewrite !decide_False in Hx by lia. rewrite !decide_False in Hy by lia.
        apply (Hheap o') with (c := c); (done || lia).
      * intros p c x y Hp Hchild. lia.
    + replace (low + (i - 1) + 1) with (low + i) by lia.
      intros k1 k2 x y Hk1 Hk12 Hk2 Hx Hy.
      destruct (decide (k1 = low + i)) as [->|Hne].
      * assert (x = m) as -> by congruence.
        destruct (decide (k2 = low + i)) as [->|Hne2].
        -- assert (y = m) as -> by congruence. apply (swo_irrefl lt Hlt).
        -- rewrite Hafter in Hy by lia.
           apply (Hcross low m) with (k := k2); (done || lia).
      * rewrite Hafter in Hx, Hy by lia. apply (Hs k1 k2); (done || lia).
    + replace (low + (i - 1) + 1) with (low + i) by lia.
      assert (range_all (λ x, lt m x = false ∧
                range_all (λ y, lt y x = false) d (low + i + 1) (high + 1))
                d low (low + i + 1)) as Hall.
      { intros k x Hk Hx. split; [|by apply (Hcross k)].
        apply (heap_root_max d low (i + 1)) with (o := k - low);
          [lia | lia | done | lia | done |].
        by replace (low + (k - low)) with k by lia. }
      apply (perm_in_range_all _ _ _ _ _ _ _ Hp1) in Hall; [|lia..].
      apply (range_all_weaken _ _ _ _ low (low + i)) in Hall; [|lia..].
      apply (perm_in_range_all _ _ _ _ _ _ _ Hp2) in Hall; [|lia..].
      intros k x Hk Hx. destruct (Hall k x Hk Hx) as [Hmx Hrest].
      intros k2 y Hk2 Hy. destruct (decide (k2 = low + i)) as [->|Hne].
      * by assert (y = m) as -> by congruence.
      * rewrite Hafter in Hy by lia. apply (Hrest k2); [lia|done].
Qed.

Lemma heapSortRange_sorts low high (d : list T) :
  0 ≤ low → low ≤ high → high < len d →
  ∃ d', heapSortRange lt low high d = Ok d' ∧
    perm_in (Z.to_nat low) (Z.to_nat (high + 1)) d d' ∧
    range_sorted lt d' low high.
Proof.
  intros Hlow Hle Hhigh.
  destruct (heapSortRange_ok lt low high d) as (d' & Hsort & Hp); [lia..|].
  exists d'. split; [done|]. split; [done|].
  unfold heapSortRange in Hsort. apply bind_Ok in Hsort as (d1 & Hbuild & Hextract).
  set (sz := high - low + 1) in *.
  assert (0 ≤ sz `quot` 2) as Hq by (apply Z.quot_pos; lia).
  assert (2 * (sz `quot` 2) ≤ sz) as Hq2.
  { rewrite Z.quot_div_nonneg by lia. pose proof (Z.div_mod sz 2).
    pose proof (Z.mod_pos_bound sz 2). lia. }
  assert (sz < 2 * (sz `quot` 2) + 2) as Hq3.
  { rewrite Z.quot_div_nonneg by lia. pose proof (Z.div_mod sz 2).
    pose proof (Z.mod_pos_bound sz 2). lia. }
  destruct (heap_build_ok lt (Z.to_nat (sz `quot` 2)) low sz (sz `quot` 2 - 1) d)
    as (d1' & Hbuild' & Hp1); [unfold sz in *; lia..|].
  assert (d1' = d1) as -> by congruence. clear Hbuild'.
  pose proof (perm_in_length _ _ _ _ Hp1) as Hlen1.
  apply (heap_extract_sorts (Z.to_nat (sz - 1)) low (sz - 1) high d1 d');
    [lia | unfold sz in *; lia | len_lia | lia | done | | |].
  - replace (sz - 1 + 1) with sz by lia.
    apply (heap_build_heap (Z.to_nat (sz `quot` 2)) low sz (sz `quot` 2 - 1) d d1);
      [lia | unfold sz in *; lia | lia | done |].
    intros o Ho c x y Hc Hcsz. lia.
  - intros k1 k2 x y Hk1 Hk12 Hk2. unfold sz in *. lia.
  - intros k x Hk Hx k2 y Hk2. unfold sz in *. lia.
Qed.

End HeapSorts.

(** ** Introsort sorts *)

Section IntroSorts.
Context {T : Type} (lt : T → T → bool) (Hlt : StrictWeakOrder lt).

Lemma introsortRange_sorts fuel :
  ∀ low high depth (d : list T),
    0 ≤ low → low ≤ high + 1 → high < len d →
    (Z.to_nat (high - low + 1) < fuel)%nat →
    ∃ d', introsortRange lt fuel low high depth d = Ok d' ∧
      perm_in (Z.to_nat low) (Z.to_nat (high + 1)) d d' ∧
      range_sorted lt d' low high.
Proof.
  induction fuel as [|fuel IH]; intros low high depth d Hlow Hle Hhigh Hfuel; [lia|].
  cbn [introsortRange].
  destruct (decide (high - low + 1 ≤ 16)); [by apply insertionSortRange_sorts|].
  destruct (decide (depth = 0)); [apply heapSortRange_sorts; (done || lia)|].
  destruct (partition_ok lt low high d) as (d1 & pi & Hpart & Hp1 & Hpi); [lia..|].
  rewrite Hpart. res_simpl.
  apply partition_post in Hpart as (pivot & _ & Hpiv1 & _ & _ & HL1 & HR1); [|lia..].
  pose proof (perm_in_length _ _ _ _ Hp1) as Hlen1.
  destruct (IH low (pi - 1) (depth - 1) d1) as (d2 & -> & Hp2 & Hs2);
    [lia | lia | len_lia | lia |].
  res_simpl. pose proof (perm_in_length _ _ _ _ Hp2) as Hlen2.
  destruct (IH (pi + 1) high (depth - 1) d2) as (d3 & -> & Hp3 & Hs3);
    [lia | lia | len_lia | lia |].
  replace (pi - 1 + 1) with pi in Hp2 by lia.
  exists d3. split; [done|]. split.
  { eapply perm_in_trans; [done|]. eapply perm_in_trans.
    - eapply perm_in_weaken; [| |done]; lia.
    - eapply perm_in_weaken; [| |done]; lia. }
  apply (range_sorted_join lt Hlt d3 low pi high pivot).
  - rewrite (perm_in_get_outside _ _ _ _ pi Hp3) by lia.
    rewrite (perm_in_get_outside _ _ _ _ pi Hp2) by lia. done.
  - intros k x Hk Hx. rewrite (perm_in_get_outside _ _ _ _ k Hp3) in Hx by lia.
    revert k x Hk Hx.
    apply (perm_in_range_all _ (Z.to_nat low) (Z.to_nat pi) d1 d2); [done|lia..|].
    eapply range_all_impl; [|exact HL1]. intros x. by apply goes_left_true.
  - apply (perm_in_range_all _ (Z.to_nat (pi + 1)) (Z.to_nat (high + 1)) d2 d3);
      [done|lia..|].
    intros k x Hk Hx. rewrite (perm_in_get_outside _ _ _ _ k Hp2) in Hx by lia.
    apply (goes_left_false lt). by apply (HR1 k).
  - eapply range_sorted_outside; [exact Hp3 | lia | done].
  - done.
Qed.

Lemma introsortData_sorts sz (d : list T) :
  0 ≤ sz ≤ len d →
  ∃ d', introsortData lt sz d = Ok d' ∧ perm_in 0 (Z.to_nat sz) d d' ∧
    sorted_by lt (take (Z.to_nat sz) d').
Proof.
  intros Hsz. unfold introsortData.
  destruct (introsortRange_sorts (S (Z.to_nat sz)) 0 (sz - 1) (maxDepth sz) d)
    as (d' & -> & Hp & Hs); [lia..|].
  exists d'. split; [done|]. replace (sz - 1 + 1) with sz in Hp by lia.
  split; [done|]. by apply range_sorted_sorted_by.
Qed.

End IntroSorts.

(** ** Timsort-lite sorts *)

Section Reverse.
Context {T : Type}.

(** [reverse] mirrors the range and touches nothing else. *)
Lemma reverse_loop_get fuel :
  ∀ a b (d d' : list T) k,
    reverse_loop fuel a b d = Ok d' →
    get d' k = if decide (a ≤ k ≤ b) then get d (a + b - k) else get d k.
Proof.
  induction fuel as [|fuel IH]; intros a b d d' k Hrev; [done|].
  cbn [reverse_loop] in Hrev. destruct (decide (a < b)) as [Hab|Hab].
  - apply bind_Ok in Hrev as (d1 & Hswap & Hrev).
    rewrite (IH _ _ _ _ k Hrev).
    destruct (decide (a + 1 ≤ k ≤ b - 1)) as [Hin|Hout].
    + rewrite decide_True by lia. rewrite (swap_get _ _ _ _ _ Hswap).
      rewrite !decide_False by lia. f_equal. lia.
    + rewrite (swap_get _ _ _ _ _ Hswap).
      destruct (decide (k = b)) as [->|Hkb].
      * rewrite decide_True by lia. f_equal. lia.
      * destruct (decide (k = a)) as [->|Hka].
        -- rewrite decide_True by lia. f_equal. lia.
        -- by rewrite decide_False by lia.
  - injection Hrev as <-. destruct (decide (a ≤ k ≤ b)); [|done]. f_equal. lia.
Qed.

End Reverse.

Section RunsSorted.
Context {T : Type} (lt : T → T → bool).
Implicit Types d : list T.

Lemma runs_sorted_app d l1 x l2 :
  runs_sorted lt d (l1 ++ x :: l2) ↔
  runs_sorted lt d (l1 ++ [x]) ∧ runs_sorted lt d (x :: l2).
Proof.
  induction l1 as [|a l1 IH]; [cbn; tauto|].
  destruct l1 as [|b l1].
  - cbn [app]. cbn [runs_sorted]. destruct l2; cbn [runs_sorted]; tauto.
  - change (runs_sorted lt d ((a :: b :: l1) ++ x :: l2)) with
      (range_sorted lt d a (b - 1) ∧ runs_sorted lt d ((b :: l1) ++ x :: l2)).
    change (runs_sorted lt d ((a :: b :: l1) ++ [x])) with
      (range_sorted lt d a (b - 1) ∧ runs_sorted lt d ((b :: l1) ++ [x])).
    rewrite IH. tauto.
Qed.

Lemma runs_sorted_cons2 d a b l :
  runs_sorted lt d (a :: b :: l) ↔
  range_sorted lt d a (b - 1) ∧ runs_sorted lt d (b :: l).
Proof. done. Qed.

Lemma runs_sorted_snoc d l a b :
  runs_sorted lt d (l ++ [a; b]) ↔
  runs_sorted lt d (l ++ [a]) ∧ range_sorted lt d a (b - 1).
Proof. rewrite (runs_sorted_app d l a [b]). cbn [runs_sorted]. tauto. Qed.

Lemma runs_sorted_frame d d' runs :
  (∀ a b, a ∈ runs → b ∈ runs → range_sorted lt d a (b - 1) → range_sorted lt d' a (b - 1)) →
  runs_sorted lt d runs → runs_sorted lt d' runs.
Proof.
  induction runs as [|a runs IH]; [done|]. destruct runs as [|b runs]; [done|].
  intros Hframe [Hab Hrest]. split.
  - apply Hframe; [by left | right; by left | done].
  - apply IH; [|done]. intros x y Hx Hy. apply Hframe; by right.
Qed.

Lemma runs_sorted_below (a b : nat) d d' runs :
  perm_in a b d d' → Forall (λ r, r ≤ Z.of_nat a) runs →
  runs_sorted lt d runs → runs_sorted lt d' runs.
Proof.
  intros Hp Hle. apply runs_sorted_frame. intros x y Hx Hy.
  rewrite Forall_forall in Hle. specialize (Hle y Hy).
  apply (range_sorted_outside lt a b); [done|lia].
Qed.

Lemma runs_sorted_above (a b : nat) d d' runs :
  perm_in a b d d' → Forall (λ r, Z.of_nat b ≤ r) runs →
  runs_sorted lt d runs → runs_sorted lt d' runs.
Proof.
  intros Hp Hle. apply runs_sorted_frame. intros x y Hx Hy.
  rewrite Forall_forall in Hle. specialize (Hle x Hx).
  apply (range_sorted_outside lt a b); [done|lia].
Qed.

End RunsSorted.

Section TimSorts.
Context {T : Type} (lt : T → T → bool) (Hlt : StrictWeakOrder lt).
Implicit Types d : list T.

Lemma range_sorted_seg (pre seg post : list T) low high :
  range_sorted lt (pre ++ seg ++ post) low high →
  low = len pre → high = low + len seg - 1 → sorted_by lt seg.
Proof.
  intros Hs -> ->. apply sorted_by_lookup. intros i x y Hx Hy.
  apply (Hs (len pre + Z.of_nat i) (len pre + Z.of_nat (S i))).
  - lia.
  - lia.
  - apply lookup_lt_Some in Hy. unfold len. lia.
  - apply get_Ok_iff. split; [unfold len; lia|]. unfold len.
    rewrite lookup_app_r by lia. rewrite lookup_app_l by (apply lookup_lt_Some in Hx; lia).
    rewrite <- Hx. f_equal. lia.
  - apply get_Ok_iff. split; [unfold len; lia|]. unfold len.
    rewrite lookup_app_r by lia. rewrite lookup_app_l by (apply lookup_lt_Some in Hy; lia).
    rewrite <- Hy. f_equal. lia.
Qed.

(** A range whose adjacent pairs are in order is sorted. *)
Lemma range_sorted_adjacent d low high :
  0 ≤ low → low ≤ high + 1 → high < len d →
  (∀ k x y, low ≤ k < high → get d k = Ok x → get d (k + 1) = Ok y → lt y x = false) →
  range_sorted lt d low high.
Proof.
  intros Hlow Hle Hhigh Hadj.
  destruct (split_range d low (high + 1)) as (pre & seg & post & Hd & Hpre & Hseg);
    [lia..|].
  rewrite Hd. apply range_sorted_app; [done| |lia|lia].
  apply sorted_by_lookup. intros i x y Hx Hy.
  pose proof (lookup_lt_Some _ _ _ Hy) as Hi.
  apply (Hadj (low + Z.of_nat i)).
  - unfold len in *. lia.
  - rewrite Hd. apply get_Ok_iff. split; [lia|]. unfold len in *.
    rewrite lookup_app_r by lia. rewrite lookup_app_l by lia.
    rewrite <- Hx. f_equal. lia.
  - rewrite Hd. apply get_Ok_iff. split; [lia|]. unfold len in *.
    rewrite lookup_app_r by lia. rewrite lookup_app_l by lia.
    rewrite <- Hy. f_equal. lia.
Qed.

Lemma run_ascending_post fuel :
  ∀ sz d i i',
    run_ascending lt fuel sz d i = Ok i' →
    ∀ k x y, i ≤ k < i' → get d k = Ok x → get d (k + 1) = Ok y → lt x y = true.
Proof.
  induction fuel as [|fuel IH]; intros sz d i i' Hrun; [done|].
  cbn [run_ascending] in Hrun.
  destruct (decide (i < sz - 1)); [|injection Hrun as <-; intros; lia].
  apply bind_Ok in Hrun as (a & Ha & Hrun). apply bind_Ok in Hrun as (b & Hb & Hrun).
  destruct (lt a b) eqn:Hab; [|injection Hrun as <-; intros; lia].
  intros k x y Hk Hx Hy. destruct (decide (k = i)) as [->|Hne].
  - congruence.
  - apply (IH _ _ _ _ Hrun k); (done || lia).
Qed.

Lemma run_descending_post fuel :
  ∀ sz d i i',
    run_descending lt fuel sz d i = Ok i' →
    ∀ k x y, i ≤ k < i' → get d k = Ok x → get d (k + 1) = Ok y → lt x y = false.
Proof.
  induction fuel as [|fuel IH]; intros sz d i i' Hrun; [done|].
  cbn [run_descending] in Hrun.
  destruct (decide (i < sz - 1)); [|injection Hrun as <-; intros; lia].
  apply bind_Ok in Hrun as (a & Ha & Hrun). apply bind_Ok in Hrun as (b & Hb & Hrun).
  destruct (lt b a || negb (lt a b) && negb (lt b a)) eqn:Hba;
    [|injection Hrun as <-; intros; lia].
  intros k x y Hk Hx Hy. destruct (decide (k = i)) as [->|Hne].
  - assert (x = a) as -> by congruence. assert (y = b) as -> by congruence.
    destruct (lt b a) eqn:Hba'; [by apply (swo_asym lt Hlt)|].
    by destruct (lt a b).
  - apply (IH _ _ _ _ Hrun k); (done || lia).
Qed.

(** One step of [findRuns]: the run found at [i] is a sorted range when
    the step is over. *)
Lemma findRuns_step sz d i a b :
  0 ≤ i → i < sz - 1 → sz ≤ len d →
  get d i = Ok a → get d (i + 1) = Ok b →
  ∃ d1 i1,
    (if lt a b
     then i' ← run_ascending lt (S (Z.to_nat sz)) sz d i; Ok (d, i')
     else i' ← run_descending lt (S (Z.to_nat sz)) sz d i;
          d' ← reverseRange i i' d; Ok (d', i')) = Ok (d1, i1) ∧
    perm_in (Z.to_nat i) (Z.to_nat sz) d d1 ∧ i ≤ i1 < sz ∧
    range_sorted lt d1 i i1.
Proof.
  intros Hi Hisz Hsz Ha Hb. destruct (lt a b).
  - destruct (run_ascending_ok lt (S (Z.to_nat sz)) sz d i) as (i' & Hrun & Hi');
      [lia..|].
    rewrite Hrun. res_simpl. exists d, i'. split; [done|].
    split; [apply perm_in_refl|]. split; [lia|].
    apply range_sorted_adjacent; [lia..|].
    intros k x y Hk Hx Hy. apply (swo_asym lt Hlt).
    by apply (run_ascending_post _ _ _ _ _ Hrun k).
  - destruct (run_descending_ok lt (S (Z.to_nat sz)) sz d i) as (i' & Hrun & Hi');
      [lia..|].
    rewrite Hrun. res_simpl. unfold reverseRange.
    destruct (reverse_loop_ok (S (Z.to_nat (i' - i))) i i' d) as (d' & Hrev & Hp);
      [lia..|].
    rewrite Hrev. res_simpl. exists d', i'. split; [done|].
    split; [eapply perm_in_weaken; [| |done]; lia|]. split; [lia|].
    pose proof (perm_in_length _ _ _ _ Hp) as Hlen.
    apply range_sorted_adjacent; [lia | lia | len_lia |].
    intros k x y Hk Hx Hy.
    rewrite (reverse_loop_get _ _ _ _ _ k Hrev) in Hx.
    rewrite (reverse_loop_get _ _ _ _ _ (k + 1) Hrev) in Hy.
    rewrite decide_True in Hx by lia. rewrite decide_True in Hy by lia.
    apply (run_descending_post _ _ _ _ _ Hrun (i + i' - (k + 1))); [lia|done|].
    by replace (i + i' - (k + 1) + 1) with (i + i' - k) by lia.
Qed.

Lemma findRuns_loop_sorts fuel :
  ∀ sz d runs i,
    0 ≤ i ≤ sz → sz ≤ len d → (Z.to_nat (sz - i) < fuel)%nat →
    runs_ok sz runs → Forall (λ r, r ≤ i) runs → last runs = Some i →
    runs_sorted lt d runs →
    ∃ d' runs' i',
      findRuns_loop lt fuel sz d runs i = Ok (d', runs') ∧
      perm_in 0 (Z.to_nat sz) d d' ∧
      runs_ok sz runs' ∧ Forall (λ r, r ≤ i') runs' ∧ last runs' = Some i' ∧
      sz - 1 ≤ i' ≤ sz ∧ head runs' = head runs ∧ runs_sorted lt d' runs'.
Proof.
  induction fuel as [|fuel IH];
    intros sz d runs i Hi Hsz Hfuel Hok Hle Hlast Hsorted; [lia|].
  cbn [findRuns_loop]. destruct (decide (i < sz - 1)).
  2:{ exists d, runs, i. split; [done|]. split; [apply perm_in_refl|].
      repeat (split; [done|]). split; [lia|done]. }
  destruct (get_in_range d i) as [a Ha]; [lia|].
  destruct (get_in_range d (i + 1)) as [b Hb]; [lia|].
  rewrite Ha, Hb. res_simpl.
  destruct (findRuns_step sz d i a b) as (d1 & i1 & -> & Hp1 & Hi1 & Hs1); [lia..|done|done|].
  res_simpl. pose proof (perm_in_length _ _ _ _ Hp1) as Hlen1.
  destruct (IH sz d1 (runs ++ [i1 + 1]) (i1 + 1))
    as (d' & runs' & i' & -> & Hp & Hok' & Hle' & Hlast' & Hi' & Hhead & Hsorted');
    [lia | len_lia | lia | | | | |].
  - eapply runs_ok_snoc; [done | done | lia | lia].
  - apply Forall_app. split; [|apply Forall_singleton; lia].
    eapply Forall_impl; [done|]. simpl. lia.
  - by rewrite last_snoc.
  - destruct (last_Some runs i) as [[runs0 ->] _]; [done|].
    rewrite <- app_assoc. cbn [app]. apply runs_sorted_snoc. split.
    + eapply runs_sorted_below; [done| |done].
      eapply Forall_impl; [done|]. simpl. lia.
    + by replace (i1 + 1 - 1) with i1 by lia.
  - exists d', runs', i'. split; [done|]. split.
    { eapply perm_in_trans; [|done]. eapply perm_in_weaken; [| |done]; lia. }
    repeat (split; [done|]). split; [|done].
    rewrite Hhead. by destruct runs.
Qed.

Lemma findRuns_sorts sz d :
  0 < sz ≤ len d →
  ∃ d' runs, findRuns lt sz d = Ok (d', runs) ∧
    perm_in 0 (Z.to_nat sz) d d' ∧ runs_ok sz runs ∧
    head runs = Some 0 ∧ last runs = Some sz ∧ runs_sorted lt d' runs.
Proof.
  intros Hsz. unfold findRuns.
  destruct (findRuns_loop_sorts (S (Z.to_nat sz)) sz d [0] 0)
    as (d' & runs & i' & -> & Hp & Hok & Hle & Hlast & Hi' & Hhead & Hsorted);
    [lia..| | |done|done|].
  { split; [repeat constructor | apply Forall_singleton; lia]. }
  { by apply Forall_singleton. }
  res_simpl.
  assert (get runs (len runs - 1) = Ok i') as ->.
  { apply get_Ok_iff. rewrite last_lookup in Hlast.
    assert (0 < length runs)%nat by (destruct runs; [done|simpl; lia]).
    split; [len_lia|]. rewrite <- Hlast. f_equal. len_lia. }
  res_simpl. exists d'. eexists. split; [done|]. split; [done|].
  destruct (decide (i' ≠ sz)) as [Hne|Heq].
  - split; [eapply runs_ok_snoc; [done | done | lia | lia]|].
    split; [by destruct runs|]. split; [by rewrite last_snoc|].
    destruct (last_Some runs i') as [[runs0 ->] _]; [done|].
    rewrite <- app_assoc. cbn [app]. apply runs_sorted_snoc. split; [done|].
    intros k1 k2 x y Hk1 Hk12 Hk2 Hx Hy. assert (k1 = k2) as -> by lia.
    assert (x = y) as -> by congruence. apply (swo_irrefl lt Hlt).
  - split; [done|]. split; [done|]. split; [|done].
    rewrite Hlast. f_equal. by destruct (decide (i' = sz)); [|exfalso; auto].
Qed.

(** [merge] turns two adjacent sorted ranges into one sorted range. *)
Lemma merge_sorts left mid right d (temp : list T) :
  0 ≤ left → left ≤ mid → mid < right → right < len d → right < len temp →
  range_sorted lt d left mid → range_sorted lt d (mid + 1) right →
  ∃ d' temp', merge lt left mid right d temp = Ok (d', temp') ∧
    perm_in (Z.to_nat left) (Z.to_nat (right + 1)) d d' ∧
    length temp' = length temp ∧
    range_sorted lt d' left right.
Proof.
  intros Hleft Hmid Hright Hd Htemp HsA HsB.
  destruct (split_range d left (mid + 1)) as (pre & A & rest & -> & Hpre & HA); [lia..|len_lia|].
  destruct (split_range rest 0 (right - mid)) as (nil' & B & post & -> & Hnil & HB);
    [lia | lia | len_lia |].
  destruct nil'; [|len_lia]. cbn [app] in *.
  destruct (split_range temp left (right + 1)) as (tpre & tseg & tpost & -> & Htpre & Htseg);
    [lia..|].
  rewrite (merge_spec lt left mid right pre A B post tpre tseg tpost) by len_lia.
  eexists _, _. split; [done|]. split; [|split; [len_lia|]].
  - replace (Z.to_nat left) with (length pre) by len_lia.
    replace (Z.to_nat (right + 1)) with (length pre + length (A ++ B))%nat by len_lia.
    rewrite !(app_assoc A B post), !(app_assoc _ _ post).
    rewrite <- (app_assoc pre). rewrite <- (app_assoc pre).
    apply perm_in_app, lmerge_perm.
  - apply range_sorted_app; [done| |lia|].
    + apply lmerge_sorted; [done| |].
      * apply (range_sorted_seg pre A (B ++ post) left mid); [done|lia|lia].
      * apply (range_sorted_seg (pre ++ A) B post (mid + 1) right);
          [by rewrite <- app_assoc | len_lia | lia].
    + unfold len. rewrite lmerge_length. len_lia.
Qed.

Lemma last_drop_lt (l : list Z) (n : nat) :
  (n < length l)%nat → last (drop n l) = last l.
Proof.
  intros Hn. rewrite !last_lookup, lookup_drop, length_drop. f_equal. lia.
Qed.

Lemma runs_ok_app_le sz l1 x l2 :
  runs_ok sz (l1 ++ x :: l2) →
  Forall (λ r, r ≤ x) (l1 ++ [x]) ∧ Forall (λ r, x ≤ r) (x :: l2).
Proof.
  intros [Hss _]. apply StronglySorted_app in Hss as (H12 & _ & Hss).
  apply StronglySorted_cons in Hss as [Hall _]. split.
  - apply Forall_app. split; [|by apply Forall_singleton].
    apply Forall_forall. intros r Hr. specialize (H12 r x Hr ltac:(by left)). lia.
  - apply Forall_cons. split; [lia|]. eapply Forall_impl; [done|]. simpl. lia.
Qed.

(** One pass over the run boundaries keeps every run sorted. *)
Lemma mergeRuns_pass_sorts sz runs fuel :
  ∀ i d (temp : list T) newRuns,
    0 ≤ sz → sz ≤ len d → sz ≤ len temp → 1 ≤ i →
    (Z.to_nat (len runs - i) < fuel)%nat →
    runs_ok sz runs →
    runs_ok sz (newRuns ++ drop (Z.to_nat i) runs) →
    last newRuns = runs !! Z.to_nat (i - 1) → i ≤ len runs →
    runs_sorted lt d (newRuns ++ drop (Z.to_nat i) runs) →
    ∃ d' temp' newRuns' k,
      mergeRuns_pass lt fuel runs i d temp newRuns = Ok (d', temp', newRuns') ∧
      perm_in 0 (Z.to_nat sz) d d' ∧ length temp' = length temp ∧
      runs_ok sz (newRuns' ++ drop (Z.to_nat (i + 2 * k)) runs) ∧
      0 ≤ k ∧ len runs - 1 ≤ i + 2 * k ∧ i + 2 * k ≤ len runs ∧
      (length (newRuns' ++ drop (Z.to_nat (i + 2 * k)) runs) ≤
         length (newRuns ++ drop (Z.to_nat i) runs))%nat ∧
      (i < len runs - 1 →
       (length (newRuns' ++ drop (Z.to_nat (i + 2 * k)) runs) <
          length (newRuns ++ drop (Z.to_nat i) runs))%nat) ∧
      head newRuns' = head newRuns ∧
      last newRuns' = runs !! Z.to_nat (i + 2 * k - 1) ∧
      runs_sorted lt d' (newRuns' ++ drop (Z.to_nat (i + 2 * k)) runs).
Proof.
  induction fuel as [|fuel IH];
    intros i d temp newRuns Hsz Hd Htemp Hi Hfuel Hruns Hnew Hlast Hilen Hsorted; [lia|].
  cbn [mergeRuns_pass]. destruct (decide (i < len runs - 1)) as [Hlt'|Hge].
  2:{ exists d, temp, newRuns, 0. rewrite Z.add_0_r.
      split_and!; first [done | lia | apply perm_in_refl | intros; lia]. }
  destruct (get_in_range runs (i - 1)) as [left Hleft]; [lia|].
  destruct (get_in_range runs i) as [r1 Hr1]; [lia|].
  destruct (get_in_range runs (i + 1)) as [r2 Hr2]; [lia|].
  rewrite Hleft, Hr1, Hr2. res_simpl.
  apply get_Ok_iff in Hleft as [_ Hleft]. apply get_Ok_iff in Hr1 as [_ Hr1].
  apply get_Ok_iff in Hr2 as [_ Hr2].
  pose proof (runs_ok_lookup_lt sz runs _ _ _ _ Hruns Hleft Hr1 ltac:(lia)).
  pose proof (runs_ok_lookup_lt sz runs _ _ _ _ Hruns Hr1 Hr2 ltac:(lia)).
  pose proof (runs_ok_lookup sz runs _ _ Hruns Hleft).
  pose proof (runs_ok_lookup sz runs _ _ Hruns Hr2).
  assert (drop (Z.to_nat i) runs = r1 :: r2 :: drop (Z.to_nat (i + 2)) runs) as Hdrop.
  { rewrite (drop_S _ r1) by done. f_equal.
    replace (S (Z.to_nat i)) with (Z.to_nat (i + 1)) by lia.
    rewrite (drop_S _ r2) by done. do 2 f_equal. lia. }
  rewrite Hleft in Hlast.
  destruct (last_Some newRuns left) as [[nr0 Hnr0] _]; [done|].
  rewrite Hdrop, Hnr0 in Hsorted, Hnew.
  rewrite <- app_assoc in Hsorted, Hnew. cbn [app] in Hsorted, Hnew.
  apply runs_sorted_app in Hsorted as [Hs0 Hs1].
  apply runs_sorted_cons2 in Hs1 as [HsA Hs1].
  apply runs_sorted_cons2 in Hs1 as [HsB Hs2].
  destruct (merge_sorts left (r1 - 1) (r2 - 1) d temp) as (d1 & temp1 & -> & Hp1 & Ht1 & Hs);
    [lia..|done|by replace (r1 - 1 + 1) with r1 by lia|]. res_simpl.
  pose proof (perm_in_length _ _ _ _ Hp1) as Hlen1.
  replace (r2 - 1 + 1) with r2 in Hp1 by lia.
  assert (runs_ok sz (nr0 ++ left :: r2 :: drop (Z.to_nat (i + 2)) runs)) as Hnew'.
  { replace (nr0 ++ left :: r2 :: drop (Z.to_nat (i + 2)) runs)
      with ((nr0 ++ [left]) ++ r2 :: drop (Z.to_nat (i + 2)) runs)
      by (by rewrite <- app_assoc).
    apply (runs_ok_delete sz (nr0 ++ [left]) _ r1). by rewrite <- app_assoc. }
  destruct (IH (i + 2) d1 temp1 (newRuns ++ [r2]))
    as (d' & temp' & newRuns' & k & -> & Hp & Ht & Hok & Hk & Hik & Hik' & Hlen & _
          & Hhead & Hlast' & Hsorted');
    [lia | len_lia | len_lia | lia | lia | done | | | lia | |].
  { rewrite Hnr0. by rewrite <- !app_assoc. }
  { rewrite last_snoc. rewrite <- Hr2. f_equal. lia. }
  { rewrite Hnr0. rewrite <- !app_assoc. cbn [app].
    apply runs_ok_app_le in Hnew' as [Hbelow Habove].
    pose proof Hnew as Hnew2.
    replace (nr0 ++ left :: r1 :: r2 :: drop (Z.to_nat (i + 2)) runs)
      with ((nr0 ++ [left; r1]) ++ r2 :: drop (Z.to_nat (i + 2)) runs) in Hnew2
      by (by rewrite <- app_assoc).
    apply runs_ok_app_le in Hnew2 as [_ Habove2].
    apply runs_sorted_app. split.
    - eapply runs_sorted_below; [exact Hp1 | | done].
      eapply Forall_impl; [done|]. simpl. lia.
    - apply runs_sorted_cons2. split; [done|].
      eapply runs_sorted_above; [exact Hp1 | | done].
      eapply Forall_impl; [done|]. simpl. lia. }
  exists d', temp', newRuns', (k + 1).
  replace (i + 2 * (k + 1)) with (i + 2 + 2 * k) by lia.
  split; [done|]. split.
  { eapply perm_in_trans; [|done]. eapply perm_in_weaken; [| |done]; lia. }
  split; [congruence|]. split; [done|]. split; [lia|]. split; [lia|].
  split; [lia|].
  assert (length (newRuns' ++ drop (Z.to_nat (i + 2 + 2 * k)) runs) <
            length (newRuns ++ drop (Z.to_nat i) runs))%nat as Hshort.
  { rewrite Hdrop. rewrite <- app_assoc in Hlen. cbn [app] in Hlen.
    rewrite !length_app in *. cbn [length] in *. lia. }
  split; [lia|]. split; [intros _; exact Hshort|]. split; [|split; [done|done]].
  rewrite Hhead, Hnr0. by destruct nr0.
Qed.

Lemma mergeRuns_loop_sorts sz fuel :
  ∀ runs d (temp : list T),
    0 < sz → sz ≤ len d → sz ≤ len temp →
    (length runs < fuel)%nat → runs_ok sz runs →
    head runs = Some 0 → last runs = Some sz → runs_sorted lt d runs →
    ∃ d', mergeRuns_loop lt fuel runs d temp = Ok d' ∧
      perm_in 0 (Z.to_nat sz) d d' ∧ range_sorted lt d' 0 (sz - 1).
Proof.
  induction fuel as [|fuel IH];
    intros runs d temp Hsz Hd Htemp Hfuel Hruns Hhead Hlast Hsorted; [lia|].
  cbn [mergeRuns_loop]. destruct (decide (2 < len runs)) as [Hlen|Hlen].
  2:{ exists d. split; [done|]. split; [apply perm_in_refl|].
      destruct runs as [|a [|b [|c runs]]]; [done| | |len_lia].
      - cbn in Hhead, Hlast. simplify_eq. lia.
      - cbn in Hhead, Hlast. simplify_eq. by destruct Hsorted. }
  destruct (get_in_range runs 0) as [r0 Hr0]; [lia|]. rewrite Hr0. res_simpl.
  apply get_Ok_iff in Hr0 as [_ Hr0]. change (Z.to_nat 0) with 0%nat in Hr0.
  assert (runs = [r0] ++ drop (Z.to_nat 1) runs) as Hsplit.
  { change (Z.to_nat 1) with 1%nat. destruct runs as [|r runs']; [done|].
    cbn in Hr0. injection Hr0 as ->. done. }
  destruct (mergeRuns_pass_sorts sz runs (S (length runs)) 1 d temp [r0])
    as (d1 & temp1 & newRuns & k & -> & Hp1 & Ht1 & Hok & Hk & Hik & Hik' & _ & Hshort
          & Hhead1 & Hlast1 & Hsorted1);
    [lia | lia | lia | lia | len_lia | done | by rewrite <- Hsplit | done | lia
    | by rewrite <- Hsplit |].
  res_simpl. specialize (Hshort ltac:(lia)).
  rewrite <- Hsplit in Hshort.
  pose proof (perm_in_length _ _ _ _ Hp1) as Hlen1.
  assert (∃ newRuns',
            (if decide (len runs `rem` 2 = 0)
             then rl ← get runs (len runs - 1); Ok (newRuns ++ [rl])
             else Ok newRuns) = Ok newRuns' ∧
            newRuns' = newRuns ++ drop (Z.to_nat (1 + 2 * k)) runs) as (nr & -> & ->).
  { destruct (decide (len runs `rem` 2 = 0)) as [Heven|Hodd].
    - assert (1 + 2 * k = len runs - 1) as Hk'.
      { rewrite Z.rem_divide in Heven by lia. destruct Heven as [c Hc]. lia. }
      destruct (get_in_range runs (len runs - 1)) as [rl Hrl]; [lia|]. rewrite Hrl.
      res_simpl. eexists. split; [done|]. f_equal. rewrite Hk'.
      apply get_Ok_iff in Hrl as [_ Hrl].
      rewrite (drop_S _ rl) by done. rewrite drop_ge by len_lia. done.
    - assert (1 + 2 * k = len runs) as Hk'.
      { destruct (decide (1 + 2 * k = len runs)); [done|]. exfalso. apply Hodd.
        apply Z.rem_divide; [lia|]. exists (k + 1). lia. }
      eexists. split; [done|]. rewrite Hk', drop_ge by len_lia. by rewrite app_nil_r. }
  res_simpl.
  destruct (IH (newRuns ++ drop (Z.to_nat (1 + 2 * k)) runs) d1 temp1)
    as (d' & -> & Hp' & Hs'); [lia | len_lia | len_lia | lia | done | | | done |].
  - destruct newRuns as [|n0 newRuns]; [done|]. cbn in Hhead1. cbn [app head].
    rewrite Hhead1. rewrite Hsplit in Hhead. done.
  - destruct (decide (1 + 2 * k = len runs)) as [Heq|Hne].
    + rewrite drop_ge by len_lia. rewrite app_nil_r, Hlast1.
      rewrite last_lookup in Hlast. rewrite <- Hlast. f_equal. len_lia.
    + rewrite last_app. rewrite last_drop_lt by len_lia. by rewrite Hlast.
  - exists d'. split; [done|]. split; [by eapply perm_in_trans|done].
Qed.

Lemma timsortData_sorts `{Reflect T} sz d :
  0 ≤ sz ≤ len d →
  ∃ d', timsortData lt sz d = Ok d' ∧ perm_in 0 (Z.to_nat sz) d d' ∧
    sorted_by lt (take (Z.to_nat sz) d').
Proof.
  intros Hsz. destruct (timsortData_ok lt sz d Hsz) as (d' & Hsort & Hp).
  exists d'. split; [done|]. split; [done|].
  unfold timsortData in Hsort. destruct (decide (sz ≤ 32)).
  - rewrite insertionSortData_spec in Hsort by done. injection Hsort as <-.
    rewrite take_app_length'; [apply isort_sorted; done|].
    rewrite isort_length, length_take. len_lia.
  - apply range_sorted_sorted_by.
    destruct (findRuns_sorts sz d) as (d1 & runs & Hfind & Hp1 & Hruns & Hhead & Hlast & Hs1);
      [lia|].
    rewrite Hfind in Hsort. cbn [mbind res_mbind res_bind] in Hsort.
    pose proof (perm_in_length _ _ _ _ Hp1) as Hlen1.
    unfold mergeRuns, make in Hsort. rewrite decide_True in Hsort by lia.
    cbn [mbind res_mbind res_bind] in Hsort.
    destruct (mergeRuns_loop_sorts sz (S (length runs)) runs d1
                (replicate (Z.to_nat sz) zero)) as (d'' & Hloop & _ & Hs);
      [lia | len_lia | len_lia | lia | done..|].
    rewrite Hloop in Hsort. by injection Hsort as <-.
Qed.

End TimSorts.

(** ** The sort dispatch *)

Section SortDispatch.
Context {T : Type} `{Reflect T}.
Implicit Types pq : PQueue T.

Lemma perm_in_take_app (d l' : list T) (n : nat) :
  (n ≤ length d)%nat → l' ≡ₚ take n d → perm_in 0 n d (l' ++ drop n d).
Proof.
  intros Hn Hp. pose proof (Permutation_length Hp) as Hlen.
  rewrite length_take in Hlen.
  split; [done|]. split.
  - rewrite drop_app_length'; [done|lia].
  - rewrite <- (take_drop n d) at 2. by apply Permutation_app_tail.
Qed.

Lemma sorts_result_intro lt sz (d : list T) r :
  (∃ d', r = Ok d' ∧ perm_in 0 (Z.to_nat sz) d d') →
  (StrictWeakOrder lt →
   ∃ d', r = Ok d' ∧ perm_in 0 (Z.to_nat sz) d d' ∧ sorted_by lt (take (Z.to_nat sz) d')) →
  sorts_result lt sz d r.
Proof.
  intros (d' & Hr & Hp) Hs. exists d'. split; [done|]. split; [done|].
  intros Hlt. destruct (Hs Hlt) as (d'' & Hr' & _ & Hsorted). congruence.
Qed.

Lemma insertionSort_sorts pq :
  wf pq → sorts_result (less pq) (size pq) (data pq) (insertionSort pq).
Proof.
  intros Hwf. pose proof Hwf as [H0 H1]. rewrite insertionSort_spec by done.
  eexists. split; [done|]. split.
  - apply perm_in_take_app; [len_lia|apply isort_perm].
  - intros Hlt. rewrite take_app_length'; [by apply isort_sorted|].
    rewrite isort_length. unfold live. rewrite length_take. len_lia.
Qed.

Lemma mergeSort_sorts pq :
  wf pq → sorts_result (less pq) (size pq) (data pq) (mergeSort pq).
Proof.
  intros Hwf. pose proof Hwf as [H0 H1]. rewrite mergeSort_spec by done.
  assert (length (live pq) = Z.to_nat (size pq)) as Hlen.
  { unfold live. rewrite length_take. len_lia. }
  eexists. split; [done|]. split.
  - apply perm_in_take_app; [len_lia|apply lmsort_perm].
  - intros Hlt. rewrite take_app_length'; [|by rewrite lmsort_length].
    apply lmsort_sorted; [done|lia].
Qed.

Lemma quickSort_sorts pq :
  wf pq → sorts_result (less pq) (size pq) (data pq) (quickSort pq).
Proof.
  intros Hwf. apply sorts_result_intro.
  - by apply quickSortData_ok.
  - intros Hlt. by apply quickSortData_sorts.
Qed.

Lemma timsort_sorts pq :
  wf pq → sorts_result (less pq) (size pq) (data pq) (timsort pq).
Proof.
  intros Hwf. apply sorts_result_intro.
  - by apply timsortData_ok.
  - intros Hlt. by apply timsortData_sorts.
Qed.

Lemma introsort_sorts pq :
  wf pq → sorts_result (less pq) (size pq) (data pq) (introsort pq).
Proof.
  intros Hwf. apply sorts_result_intro.
  - by apply introsortData_ok.
  - intros Hlt. by apply introsortData_sorts.
Qed.

(** Away from integer queues of more than 100 elements the selector does
    not inspect values and picks a comparison strategy. *)
Lemma chooseOptimalStrategy_comparison pq :
  wf pq → dataType pq ≠ IntegerType ∨ size pq ≤ 100 →
  ∃ s, chooseOptimalStrategy pq = Ok s ∧ comparison_strategy s.
Proof.
  intros Hwf Hcmp. unfold chooseOptimalStrategy, comparison_strategy.
  destruct (decide (size pq ≤ 16)); [eauto 10|].
  rewrite (isNearlySorted_near_sorted pq Hwf). res_simpl.
  destruct (near_sorted (less pq) (live pq)); [eauto 10|].
  rewrite decide_False by (intros [? ?]; destruct Hcmp; [done|lia]).
  repeat (destruct (decide _)); eauto 10.
Qed.

Lemma sorted_by_short lt (l : list T) : (length l ≤ 1)%nat → sorted_by lt l.
Proof. destruct l as [|x [|y l]]; cbn; (done || lia). Qed.

Lemma SortWithStrategy_comparison pq strategy :
  wf pq → comparison_sort strategy pq →
  ∃ d', SortWithStrategy strategy pq = Ok (with_data pq d') ∧
    perm_in 0 (Z.to_nat (size pq)) (data pq) d' ∧
    (StrictWeakOrder (less pq) → sorted_by (less pq) (take (Z.to_nat (size pq)) d')).
Proof.
  intros Hwf Hcmp. unfold SortWithStrategy.
  destruct (decide (size pq ≤ 1)) as [Hsmall|Hbig].
  { exists (data pq). rewrite with_data_same. split; [done|].
    split; [apply perm_in_refl|]. intros _. apply sorted_by_short.
    rewrite length_take. lia. }
  assert (∀ s, comparison_strategy s →
            ∃ d', (d ← match s with
                       | InsertionStrategy => insertionSort pq
                       | TimsortStrategy => timsort pq
                       | IntrosortStrategy => introsort pq
                       | MergeStrategy => mergeSort pq
                       | QuickStrategy => quickSort pq
                       | RadixStrategy =>
                           if decide (dataType pq = IntegerType) then radixSort pq
                           else quickSort pq
                       | CountingStrategy =>
                           if decide (dataType pq = IntegerType) then countingSort pq
                           else quickSort pq
                       | AutoStrategy => quickSort pq
                       end; Ok (with_data pq d)) = Ok (with_data pq d') ∧
              perm_in 0 (Z.to_nat (size pq)) (data pq) d' ∧
              (StrictWeakOrder (less pq) →
               sorted_by (less pq) (take (Z.to_nat (size pq)) d'))) as Hrun.
  { intros s [->|[->|[->|[->| ->]]]].
    - destruct (insertionSort_sorts pq Hwf) as (d' & -> & Hp & Hs). res_simpl. eauto.
    - destruct (timsort_sorts pq Hwf) as (d' & -> & Hp & Hs). res_simpl. eauto.
    - destruct (introsort_sorts pq Hwf) as (d' & -> & Hp & Hs). res_simpl. eauto.
    - destruct (mergeSort_sorts pq Hwf) as (d' & -> & Hp & Hs). res_simpl. eauto.
    - destruct (quickSort_sorts pq Hwf) as (d' & -> & Hp & Hs). res_simpl. eauto. }
  assert (strategy = AutoStrategy → dataType pq ≠ IntegerType ∨ size pq ≤ 100 →
            ∃ d', (actualStrategy ← chooseOptimalStrategy pq;
                   d ← match actualStrategy with
                       | InsertionStrategy => insertionSort pq
                       | TimsortStrategy => timsort pq
                       | IntrosortStrategy => introsort pq
                       | MergeStrategy => mergeSort pq
                       | QuickStrategy => quickSort pq
                       | RadixStrategy =>
                           if decide (dataType pq = IntegerType) then radixSort pq
                           else quickSort pq
                       | CountingStrategy =>
                           if decide (dataType pq = IntegerType) then countingSort pq
                           else quickSort pq
                       | AutoStrategy => quickSort pq
                       end; Ok (with_data pq d)) = Ok (with_data pq d') ∧
              perm_in 0 (Z.to_nat (size pq)) (data pq) d' ∧
              (StrictWeakOrder (less pq) →
               sorted_by (less pq) (take (Z.to_nat (size pq)) d'))) as Hauto.
  { intros _ Hsel.
    destruct (chooseOptimalStrategy_comparison pq Hwf Hsel) as (s & -> & Hs).
    res_simpl. by apply Hrun. }
  destruct (decide (strategy = AutoStrategy)) as [Hs|Hs].
  { destruct Hcmp as [[?|[?|[?|[?|?]]]]|[Htag|[_ Hsz]]]; try congruence;
      apply Hauto; auto. }
  res_simpl. destruct Hcmp as [Hc|[Htag|[? _]]]; [by apply Hrun| |done].
  destruct strategy; [done|..].
  - rewrite decide_False by done. apply (Hrun QuickStrategy). unfold comparison_strategy. auto.
  - rewrite decide_False by done. apply (Hrun QuickStrategy). unfold comparison_strategy. auto.
  - apply (Hrun InsertionStrategy). unfold comparison_strategy. auto.
  - apply (Hrun TimsortStrategy). unfold comparison_strategy. auto.
  - apply (Hrun IntrosortStrategy). unfold comparison_strategy. auto.
  - apply (Hrun MergeStrategy). unfold comparison_strategy. auto.
  - apply (Hrun QuickStrategy). unfold comparison_strategy. auto.
Qed.

Lemma with_data_perm pq d' :
  wf pq → perm_in 0 (Z.to_nat (size pq)) (data pq) d' →
  wf (with_data pq d') ∧ size (with_data pq d') = size pq ∧
  capacity (with_data pq d') = capacity pq ∧
  live (with_data pq d') ≡ₚ live pq ∧
  live (with_data pq d') = take (Z.to_nat (size pq)) d' ∧
  drop (Z.to_nat (size pq)) (data (with_data pq d')) = drop (Z.to_nat (size pq)) (data pq).
Proof.
  intros [H0 H1] Hp. pose proof (perm_in_length _ _ _ _ Hp) as Hlen.
  unfold wf, capacity, live. cbn [with_data size data].
  split_and!; try done.
  - len_lia.
  - len_lia.
  - by apply perm_in_prefix.
  - by destruct Hp as (_ & Hd & _).
Qed.

(** A sorted queue is left as it is by Auto, Insertion, Merge and Quick. *)
Lemma SortWithStrategy_sorted_id pq strategy :
  StrictWeakOrder (less pq) → wf pq → sorted_by (less pq) (live pq) →
  strategy = AutoStrategy ∨ strategy = InsertionStrategy ∨
  strategy = MergeStrategy ∨ strategy = QuickStrategy →
  SortWithStrategy strategy pq = Ok pq.
Proof.
  intros Hlt Hwf Hs Hstrategy. unfold SortWithStrategy.
  destruct (decide (size pq ≤ 1)); [done|].
  assert (insertionSort pq = Ok (data pq)) as Hins.
  { rewrite insertionSort_spec by done.
    by rewrite isort_sorted_id, live_drop by done. }
  destruct Hstrategy as [->|[->|[->| ->]]]; dispatch.
  - rewrite chooseOptimalStrategy_sorted by done. res_simpl.
    rewrite Hins. res_simpl. by rewrite with_data_same.
  - rewrite Hins. res_simpl. by rewrite with_data_same.
  - rewrite mergeSort_spec by done.
    rewrite lmsort_sorted_id, live_drop by done. res_simpl. by rewrite with_data_same.
  - rewrite quickSort_sorted by done. res_simpl. by rewrite with_data_same.
Qed.

(** In a sorted queue the scan of [Pop] and [Peek] stays at position 0. *)
Lemma minIdx_sorted pq m :
  StrictWeakOrder (less pq) → wf pq → size pq ≠ 0 →
  sorted_by (less pq) (live pq) →
  minIdx_loop pq (Z.to_nat (size pq - 1)) 1 0 = Ok m → m = 0.
Proof.
  intros Hlt Hwf Hsz Hs Hloop. pose proof Hwf as [H0 H1].
  destruct (get_in_range (data pq) 0) as [x0 Hx0]; [lia|].
  pose proof (minIdx_loop_min pq _ 1 0 m Hlt (is_first_min_start pq x0 Hlt Hx0) Hloop)
    as (x & Hx & Hm & _ & Hfirst).
  destruct (decide (m = 0)) as [|Hne]; [done|]. exfalso.
  specialize (Hfirst 0 x0 ltac:(lia) Hx0).
  pose proof (live_sorted_range pq Hlt Hs 0 m x0 x ltac:(lia) ltac:(lia) ltac:(lia) Hx0 Hx).
  congruence.
Qed.

End SortDispatch.

(** ** Sequences of operations *)

Section Runs.
Context {T : Type} `{Reflect T}.
Implicit Types pq : PQueue T.

Lemma Peek_spec pq : wf pq → ∃ r, Peek pq = Ok (r, pq).
Proof.
  intros Hwf. pose proof Hwf as [H0 H1]. unfold Peek.
  destruct (decide (size pq = 0)); [eauto|].
  destruct (minIdx_loop_ok pq (Z.to_nat (size pq - 1)) 1 0) as (m & -> & Hm);
    [done | lia | lia |]. res_simpl.
  destruct (get_in_range (data pq) m) as [x ->]; [lia|]. res_simpl. eauto.
Qed.

Lemma run_ops_multiset ops :
  ∀ popped pq,
    wf pq → comparison_ops ops →
    ∃ popped' pq',
      run_ops ops popped pq = Ok (popped', pq') ∧ wf pq' ∧
      less pq' = less pq ∧ dataType pq' = dataType pq ∧
      live pq' ++ popped' ≡ₚ live pq ++ popped ++ pushed ops.
Proof.
  induction ops as [|op ops IH]; intros popped pq Hwf Hops.
  - exists popped, pq. cbn. by rewrite app_nil_r.
  - apply Forall_cons in Hops as [Hop Hops]. destruct op as [x| | |s]; cbn [run_ops].
    + destruct (Push_spec pq x Hwf) as (pq1 & -> & Hwf1 & _ & Hlive & Hless & Htag & _).
      res_simpl.
      destruct (IH popped pq1 Hwf1 Hops) as (popped' & pq' & -> & Hwf' & Hless' & Htag' & Hp).
      exists popped', pq'. split; [done|]. split; [done|].
      split; [congruence|]. split; [congruence|].
      rewrite Hp, Hlive. unfold pushed. cbn [omap list_omap].
      rewrite <- !app_assoc. apply Permutation_app_head.
      cbn [app]. by rewrite Permutation_middle.
    + destruct (decide (size pq = 0)) as [Hz|Hnz].
      * rewrite Pop_empty by done. res_simpl.
        destruct (IH popped pq Hwf Hops) as (popped' & pq' & -> & Hwf' & Hless' & Htag' & Hp).
        exists popped', pq'. by split_and!.
      * destruct (Pop_spec pq Hwf Hnz)
          as (x & pq1 & -> & Hwf1 & _ & Hlive & Hless & Htag & _).
        res_simpl.
        destruct (IH (popped ++ [x]) pq1 Hwf1 Hops)
          as (popped' & pq' & -> & Hwf' & Hless' & Htag' & Hp).
        exists popped', pq'. split; [done|]. split; [done|].
        split; [congruence|]. split; [congruence|].
        rewrite Hp, <- Hlive. unfold pushed. cbn [omap list_omap].
        rewrite <- !app_assoc. cbn [app].
        rewrite !app_assoc. symmetry. apply Permutation_middle.
    + destruct (Peek_spec pq Hwf) as (r & ->). res_simpl.
      destruct (IH popped pq Hwf Hops) as (popped' & pq' & -> & Hwf' & Hless' & Htag' & Hp).
      exists popped', pq'. by split_and!.
    + destruct (SortWithStrategy_comparison pq s Hwf) as (d' & -> & Hperm & _);
        [by left|]. res_simpl.
      destruct (with_data_perm pq d' Hwf Hperm) as (Hwf1 & _ & _ & Hlive & _).
      destruct (IH popped (with_data pq d') Hwf1 Hops)
        as (popped' & pq' & -> & Hwf' & Hless' & Htag' & Hp).
      exists popped', pq'. split; [done|]. split; [done|].
      split; [done|]. split; [done|].
      rewrite Hp, Hlive. done.
Qed.

End Runs.

(** ** Merge sort on a range *)

Section MergeSortRange.
Context {T : Type} (lt : T → T → bool).

Lemma mergeSortRange_sorts fuel left right (d temp : list T) :
  0 ≤ left → left ≤ right + 1 → right < len d → right < len temp →
  (Z.to_nat (right - left + 1) < fuel)%nat →
  ∃ d' temp', mergeSortRange lt fuel left right d temp = Ok (d', temp') ∧
    perm_in (Z.to_nat left) (Z.to_nat (right + 1)) d d' ∧
    length temp' = length temp ∧
    (StrictWeakOrder lt → range_sorted lt d' left right).
Proof.
  intros Hleft Hle Hd Htemp Hfuel.
  destruct (split_range d left (right + 1)) as (pre & seg & post & -> & Hpre & Hseg);
    [lia..|].
  destruct (split_range temp left (right + 1)) as (tpre & tseg & tpost & -> & Htpre & Htseg);
    [lia..|].
  destruct (mergeSortRange_spec lt fuel left right pre seg post tpre tseg tpost)
    as (tseg' & Hlen' & ->); [len_lia..|].
  eexists _, _. split; [done|]. split; [|split].
  - replace (Z.to_nat left) with (length pre) by len_lia.
    replace (Z.to_nat (right + 1)) with (length pre + length seg)%nat by len_lia.
    apply perm_in_app, lmsort_perm.
  - len_lia.
  - intros Hlt. apply range_sorted_app; [done| |lia|].
    + apply lmsort_sorted; [done|len_lia].
    + unfold len. rewrite lmsort_length. len_lia.
Qed.

End MergeSortRange.

(** * Further properties of the container and of the sort engine *)

(** ** The container *)


(** X2. [Push] never fails on a well-formed queue: the element is added
    after the live elements, the size grows by one, and the comparator and
    the type tag (inferred once, by [New]) stay as they are. *)
Theorem Push_appends {T} `{Reflect T} (pq : PQueue T) (x : T) :
  wf pq →
  ∃ pq', Push pq x = Ok pq' ∧ wf pq' ∧ Size pq' = Size pq + 1 ∧
    IsEmpty pq' = false ∧
    (∀ l, ToSlice pq = Ok l → ToSlice pq' = Ok (l ++ [x])) ∧
    less pq' = less pq ∧ dataType pq' = dataType pq.
Proof.
  intros Hwf.
  destruct (Push_spec pq x Hwf) as (pq' & Hpush & Hwf' & Hsz & Hlive & Hless & Htag & _).
  exists pq'. split_and!; try done.
  - unfold IsEmpty. apply bool_decide_eq_false_2. destruct Hwf. lia.
  - intros l. rewrite !ToSlice_live by done. intros [= <-]. by rewrite Hlive.
Qed.

Lemma Push_appends_witness :
  ∃ pq', Push (NewInts [3; 1]) 2 = Ok pq' ∧ ToSlice pq' = Ok [3; 1; 2] ∧
    dataType pq' = IntegerType.
Proof.
  destruct (Push_appends (NewInts [3; 1]) 2)
    as (pq' & Hpush & _ & _ & _ & Hslice & _ & Htag); [by vm_compute|].
  exists pq'. split; [exact Hpush|]. split; [|exact Htag].
  apply (Hslice [3; 1]). by vm_compute.
Defined.

(** X3. The growth policy of [Push]: a full buffer is replaced by one of
    twice the capacity (of capacity 1 when the capacity was 0); otherwise
    the capacity does not change. *)
Theorem Push_doubles_capacity {T} `{Reflect T} (pq : PQueue T) (x : T) :
  wf pq →
  ∃ pq', Push pq x = Ok pq' ∧
    capacity pq' =
      (if decide (Size pq = capacity pq)
       then Z.max 1 (2 * capacity pq) else capacity pq).
Proof.
  intros Hwf.
  destruct (Push_spec pq x Hwf) as (pq' & Hpush & _ & _ & _ & _ & _ & Hcap).
  by exists pq'.
Qed.

Lemma Push_doubles_capacity_witness :
  ∃ pq' pq'', Push (NewInts [7; 8; 9]) 1 = Ok pq' ∧ capacity pq' = 6 ∧
    Push pq' 2 = Ok pq'' ∧ capacity pq'' = 6.
Proof.
  destruct (Push_doubles_capacity (NewInts [7; 8; 9]) 1) as (pq' & Hpush & Hcap);
    [by vm_compute|].
  assert (pq' = mkPQueue [7; 8; 9; 1; 0; 0] Z.ltb IntegerType 4) as ->.
  { vm_compute in Hpush. by injection Hpush as <-. }
  destruct (Push_doubles_capacity (mkPQueue [7; 8; 9; 1; 0; 0] Z.ltb IntegerType 4) 2)
    as (pq'' & Hpush' & Hcap'); [by vm_compute|].
  eexists _, pq''. split; [exact Hpush|]. split; [exact Hcap|].
  split; [exact Hpush'|exact Hcap'].
Defined.

(** X4. [Pop] on a non-empty queue removes exactly one occurrence of the
    element it returns: the live elements before the call are those after
    it plus the returned one.  The capacity is kept. *)
Theorem Pop_removes_one {T} `{Reflect T} (pq : PQueue T) :
  wf pq → size pq ≠ 0 →
  ∃ x pq', Pop pq = Ok ((x, None), pq') ∧ wf pq' ∧
    Size pq' = Size pq - 1 ∧ x :: live pq' ≡ₚ live pq ∧
    capacity pq' = capacity pq ∧ less pq' = less pq ∧ dataType pq' = dataType pq.
Proof.
  intros Hwf Hsz.
  destruct (Pop_spec pq Hwf Hsz) as (x & pq' & Hpop & Hwf' & Hsz' & Hp & Hless & Htag & Hcap & _).
  exists x, pq'. by split_and!.
Qed.

Lemma Pop_removes_one_witness :
  ∃ x pq', Pop (NewInts [4; 2; 9; 2]) = Ok ((x, None), pq') ∧
    x :: live pq' ≡ₚ [4; 2; 9; 2] ∧ capacity pq' = 4.
Proof.
  destruct (Pop_removes_one (NewInts [4; 2; 9; 2]))
    as (x & pq' & Hpop & _ & _ & Hp & Hcap & _); [by vm_compute | by vm_compute |].
  exists x, pq'. split; [exact Hpop|]. split; [exact Hp|exact Hcap].
Defined.

(** X5. Popping as many times as the queue has elements returns all its
    elements in non-decreasing order and leaves the queue empty. *)
Theorem pop_n_drains_in_order {T} `{Reflect T} (pq : PQueue T) :
  StrictWeakOrder (less pq) → wf pq →
  ∃ out pq', pop_n (Z.to_nat (Size pq)) pq = Ok (out, pq') ∧
    out ≡ₚ live pq ∧ sorted_by (less pq) out ∧ IsEmpty pq' = true.
Proof.
  intros Hlt Hwf.
  destruct (pop_n_spec (Z.to_nat (size pq)) pq Hwf Hlt)
    as (out & pq' & Hpop & Hp & Hs & Hsz & _); [destruct Hwf; lia|].
  exists out, pq'. split_and!; try done.
  unfold IsEmpty. by apply bool_decide_eq_true_2.
Qed.

Lemma pop_n_drains_in_order_witness :
  ∃ out pq', pop_n 5 (NewInts [3; 1; 2; 3; 0]) = Ok (out, pq') ∧
    sorted_by Z.ltb out ∧ out ≡ₚ [3; 1; 2; 3; 0].
Proof.
  destruct (pop_n_drains_in_order (NewInts [3; 1; 2; 3; 0]))
    as (out & pq' & Hpop & Hp & Hs & _); [apply Z_ltb_swo | by vm_compute |].
  exists out, pq'. split; [exact Hpop|]. split; [exact Hs|exact Hp].
Defined.



(** ** The sort routines *)

(** X7. [partition] returns a position [pi] in the range that holds the
    pivot (the last element of the range); before it are the elements that
    went left of the pivot, after it the others; the range is rearranged
    and nothing else is touched. *)
Theorem partition_splits_around_pivot {T} (lt : T → T → bool) low high (d : list T) :
  0 ≤ low → low ≤ high → high < len d →
  ∃ d' pi pivot,
    partition lt low high d = Ok (d', pi) ∧
    get d high = Ok pivot ∧ get d' pi = Ok pivot ∧ low ≤ pi ≤ high ∧
    perm_in (Z.to_nat low) (Z.to_nat (high + 1)) d d' ∧
    range_all (λ x, goes_left lt x pivot = true) d' low pi ∧
    range_all (λ x, goes_left lt x pivot = false) d' (pi + 1) (high + 1).
Proof.
  intros Hlow Hle Hhigh.
  destruct (partition_ok lt low high d) as (d' & pi & Hpart & _); [lia..|].
  destruct (partition_post lt low high d d' pi) as (pivot & Hpost); [lia..|done|].
  by exists d', pi, pivot.
Qed.

Lemma partition_splits_around_pivot_witness :
  ∃ d' pi, partition Z.ltb 1 5 [0; 7; 2; 9; 4; 5; 1] = Ok (d', pi) ∧
    get d' pi = Ok 5 ∧
    range_all (λ x, goes_left Z.ltb x 5 = true) d' 1 pi ∧
    range_all (λ x, goes_left Z.ltb x 5 = false) d' (pi + 1) 6.
Proof.
  destruct (partition_splits_around_pivot Z.ltb 1 5 [0; 7; 2; 9; 4; 5; 1])
    as (d' & pi & pivot & Hpart & Hpivot & Hpi & _ & _ & HL & HR);
    [lia | lia | by vm_compute |].
  assert (pivot = 5) as -> by (vm_compute in Hpivot; by injection Hpivot as <-).
  exists d', pi. split; [exact Hpart|]. split; [exact Hpi|]. split; [exact HL|exact HR].
Defined.

(** X8. [quickSortRange] with enough fuel returns, sorts the range
    [low..high] and leaves the rest of the buffer untouched. *)
Theorem quickSortRange_sorts_range {T} (lt : T → T → bool) fuel low high (d : list T) :
  StrictWeakOrder lt →
  0 ≤ low → high < len d → (Z.to_nat (high - low + 1) < fuel)%nat →
  ∃ d', quickSortRange lt fuel low high d = Ok d' ∧
    perm_in (Z.to_nat low) (Z.to_nat (high + 1)) d d' ∧
    range_sorted lt d' low high.
Proof. intros Hlt. by apply quickSortRange_sorts. Qed.

Lemma quickSortRange_sorts_range_witness :
  ∃ d', quickSortRange Z.ltb 5 1 4 [9; 4; 1; 3; 2; 0] = Ok d' ∧
    range_sorted Z.ltb d' 1 4 ∧ get d' 0 = Ok 9 ∧ get d' 5 = Ok 0.
Proof.
  destruct (quickSortRange_sorts_range Z.ltb 5 1 4 [9; 4; 1; 3; 2; 0])
    as (d' & Hsort & Hp & Hs); [apply Z_ltb_swo | lia | by vm_compute | lia |].
  exists d'. split; [exact Hsort|]. split; [exact Hs|].
  vm_compute in Hsort. injection Hsort as <-. by vm_compute.
Defined.

(** X9. [insertionSort] computes insertion into a sorted list, element by
    element ([isort]), on the live prefix; [insertionSortRange] sorts its
    range and leaves the rest of the buffer untouched. *)
Theorem insertionSort_sorts_prefix {T} `{Reflect T} (pq : PQueue T) low high :
  StrictWeakOrder (less pq) → wf pq →
  insertionSort pq =
    Ok (isort (less pq) (live pq) ++ drop (Z.to_nat (size pq)) (data pq)) ∧
  sorted_by (less pq) (isort (less pq) (live pq)) ∧
  isort (less pq) (live pq) ≡ₚ live pq ∧
  (0 ≤ low → low ≤ high + 1 → high < len (data pq) →
   ∃ d', insertionSortRange (less pq) low high (data pq) = Ok d' ∧
     perm_in (Z.to_nat low) (Z.to_nat (high + 1)) (data pq) d' ∧
     range_sorted (less pq) d' low high).
Proof.
  intros Hlt Hwf. split_and!.
  - by apply insertionSort_spec.
  - by apply isort_sorted.
  - apply isort_perm.
  - intros. by apply insertionSortRange_sorts.
Qed.

Lemma insertionSort_sorts_prefix_witness :
  insertionSort (mkPQueue [3; 1; 2; 7; 0] Z.ltb IntegerType 3) = Ok [1; 2; 3; 7; 0] ∧
  ∃ d', insertionSortRange Z.ltb 2 4 [3; 1; 2; 7; 0] = Ok d' ∧
    range_sorted Z.ltb d' 2 4.
Proof.
  destruct (insertionSort_sorts_prefix (mkPQueue [3; 1; 2; 7; 0] Z.ltb IntegerType 3) 2 4)
    as (Hins & _ & _ & Hrange); [apply Z_ltb_swo | by vm_compute |].
  split; [exact Hins|].
  destruct Hrange as (d' & Hsort & _ & Hs); [lia | lia | by vm_compute |].
  exists d'. split; [exact Hsort|exact Hs].
Defined.

(** X10. [merge] turns two adjacent sorted ranges [left..mid] and
    [mid+1..right] into one sorted range, a rearrangement of both, without
    touching the rest of the buffer. *)
Theorem merge_joins_sorted_ranges {T} (lt : T → T → bool)
    left mid right (d temp : list T) :
  StrictWeakOrder lt →
  0 ≤ left → left ≤ mid → mid < right → right < len d → right < len temp →
  range_sorted lt d left mid → range_sorted lt d (mid + 1) right →
  ∃ d' temp', merge lt left mid right d temp = Ok (d', temp') ∧
    perm_in (Z.to_nat left) (Z.to_nat (right + 1)) d d' ∧
    range_sorted lt d' left right.
Proof.
  intros Hlt Hleft Hmid Hright Hd Htemp HsA HsB.
  destruct (merge_sorts lt Hlt left mid right d temp)
    as (d' & temp' & Hmerge & Hp & _ & Hs); [done..|].
  by exists d', temp'.
Qed.

Lemma merge_joins_sorted_ranges_witness :
  ∃ d' temp', merge Z.ltb 1 2 4 [9; 2; 6; 1; 4; 0] [0; 0; 0; 0; 0; 0] = Ok (d', temp') ∧
    d' = [9; 1; 2; 4; 6; 0] ∧ range_sorted Z.ltb d' 1 4.
Proof.
  destruct (merge_joins_sorted_ranges Z.ltb 1 2 4 [9; 2; 6; 1; 4; 0] [0; 0; 0; 0; 0; 0])
    as (d' & temp' & Hmerge & _ & Hs);
    [apply Z_ltb_swo | lia | lia | lia | by vm_compute | by vm_compute | | |].
  - intros i j x y Hi Hij Hj Hx Hy.
    assert (i = 1 ∨ i = 2) as [-> | ->] by lia;
      assert (j = 1 ∨ j = 2) as [-> | ->] by lia;
      vm_compute in Hx, Hy; simplify_eq; done || lia.
  - intros i j x y Hi Hij Hj Hx Hy.
    assert (i = 3 ∨ i = 4) as [-> | ->] by lia;
      assert (j = 3 ∨ j = 4) as [-> | ->] by lia;
      vm_compute in Hx, Hy; simplify_eq; done || lia.
  - exists d', temp'. split; [exact Hmerge|]. split; [|exact Hs].
    vm_compute in Hmerge. by injection Hmerge as <- _.
Defined.

(** X11. [mergeSortRange] with enough fuel returns, sorts the range
    [left..right] and leaves the rest of the buffer untouched. *)
Theorem mergeSortRange_sorts_range {T} (lt : T → T → bool)
    fuel left right (d temp : list T) :
  StrictWeakOrder lt →
  0 ≤ left → left ≤ right + 1 → right < len d → right < len temp →
  (Z.to_nat (right - left + 1) < fuel)%nat →
  ∃ d' temp', mergeSortRange lt fuel left right d temp = Ok (d', temp') ∧
    perm_in (Z.to_nat left) (Z.to_nat (right + 1)) d d' ∧
    range_sorted lt d' left right.
Proof.
  intros Hlt Hleft Hle Hd Htemp Hfuel.
  destruct (mergeSortRange_sorts lt fuel left right d temp)
    as (d' & temp' & Hsort & Hp & _ & Hs); [done..|].
  exists d', temp'. split_and!; [done..|]. by apply Hs.
Qed.

Lemma mergeSortRange_sorts_range_witness :
  ∃ d' temp', mergeSortRange Z.ltb 6 0 4 [5; 3; 4; 1; 2; 0] [0; 0; 0; 0; 0; 0] =
      Ok (d', temp') ∧
    range_sorted Z.ltb d' 0 4 ∧ get d' 5 = Ok 0.
Proof.
  destruct (mergeSortRange_sorts_range Z.ltb 6 0 4 [5; 3; 4; 1; 2; 0] [0; 0; 0; 0; 0; 0])
    as (d' & temp' & Hsort & _ & Hs);
    [apply Z_ltb_swo | lia | lia | by vm_compute | by vm_compute | lia |].
  exists d', temp'. split; [exact Hsort|]. split; [exact Hs|].
  vm_compute in Hsort. injection Hsort as <- _. by vm_compute.
Defined.

(** X12. [heapify] at a root whose descendants already satisfy the heap
    order sifts the root down: afterwards the root and its descendants
    satisfy the heap order, and only positions of the heap have been
    exchanged. *)
Theorem heapify_restores_heap {T} (lt : T → T → bool) base sz root (d : list T) :
  StrictWeakOrder lt →
  0 ≤ base → base ≤ root → base + sz ≤ len d →
  (∀ o, root - base < o < sz → heap_at lt d base sz o) →
  ∃ d', heapify lt (S (Z.to_nat sz)) base sz root d = Ok d' ∧
    perm_in (Z.to_nat base) (Z.to_nat (base + sz)) d d' ∧
    ∀ o, root - base ≤ o < sz → heap_at lt d' base sz o.
Proof.
  intros Hlt Hbase Hroot Hsz Hheap.
  destruct (heapify_ok lt (S (Z.to_nat sz)) base sz root d) as (d' & Hheapify & Hp);
    [lia..|].
  exists d'. split; [done|]. split; [done|].
  apply (heapify_heap lt Hlt (S (Z.to_nat sz)) base sz root d d' (root - base));
    [lia | lia | lia | done | lia | |].
  - intros o Ho Hne. apply Hheap. lia.
  - intros p c x y Hp' Hchild. lia.
Qed.

Lemma heapify_restores_heap_witness :
  ∃ d', heapify Z.ltb 6 1 5 1 [9; 1; 8; 7; 3; 5] = Ok d' ∧
    d' = [9; 8; 5; 7; 3; 1] ∧ ∀ o, 0 ≤ o < 5 → heap_at Z.ltb d' 1 5 o.
Proof.
  destruct (heapify_restores_heap Z.ltb 1 5 1 [9; 1; 8; 7; 3; 5])
    as (d' & Hheapify & _ & Hheap);
    [apply Z_ltb_swo | lia | lia | by vm_compute | |].
  - intros o Ho c x y Hc Hcsz Hx Hy.
    assert (o = 1) as -> by lia.
    assert (c = 3 ∨ c = 4) as [-> | ->] by lia;
      vm_compute in Hx, Hy; simplify_eq; done.
  - exists d'. split; [exact Hheapify|]. split; [|exact Hheap].
    vm_compute in Hheapify. by injection Hheapify as <-.
Defined.

(** X13. [heapSortRange] returns, sorts the range [low..high] and leaves
    the rest of the buffer untouched. *)
Theorem heapSortRange_sorts_range {T} (lt : T → T → bool) low high (d : list T) :
  StrictWeakOrder lt →
  0 ≤ low → low ≤ high → high < len d →
  ∃ d', heapSortRange lt low high d = Ok d' ∧
    perm_in (Z.to_nat low) (Z.to_nat (high + 1)) d d' ∧
    range_sorted lt d' low high.
Proof. intros Hlt. by apply heapSortRange_sorts. Qed.

Lemma heapSortRange_sorts_range_witness :
  ∃ d', heapSortRange Z.ltb 1 6 [0; 5; 2; 8; 2; 9; 1; 4] = Ok d' ∧
    d' = [0; 1; 2; 2; 5; 8; 9; 4] ∧ range_sorted Z.ltb d' 1 6.
Proof.
  destruct (heapSortRange_sorts_range Z.ltb 1 6 [0; 5; 2; 8; 2; 9; 1; 4])
    as (d' & Hsort & _ & Hs); [apply Z_ltb_swo | lia | lia | by vm_compute |].
  exists d'. split; [exact Hsort|]. split; [|exact Hs].
  vm_compute in Hsort. by injection Hsort as <-.
Defined.

(** X14. [introsortRange] with enough fuel returns, whatever the depth
    budget, sorts the range [low..high] and leaves the rest of the buffer
    untouched. *)
Theorem introsortRange_sorts_range {T} (lt : T → T → bool)
    fuel low high depth (d : list T) :
  StrictWeakOrder lt →
  0 ≤ low → low ≤ high + 1 → high < len d →
  (Z.to_nat (high - low + 1) < fuel)%nat →
  ∃ d', introsortRange lt fuel low high depth d = Ok d' ∧
    perm_in (Z.to_nat low) (Z.to_nat (high + 1)) d d' ∧
    range_sorted lt d' low high.
Proof. intros Hlt. by apply introsortRange_sorts. Qed.

Lemma introsortRange_sorts_range_witness :
  ∃ d', introsortRange Z.ltb 21 0 19 1
          [20; 3; 18; 5; 16; 7; 14; 9; 12; 11; 10; 13; 8; 15; 6; 17; 4; 19; 2; 1] = Ok d' ∧
    range_sorted Z.ltb d' 0 19.
Proof.
  destruct (introsortRange_sorts_range Z.ltb 21 0 19 1
              [20; 3; 18; 5; 16; 7; 14; 9; 12; 11; 10; 13; 8; 15; 6; 17; 4; 19; 2; 1])
    as (d' & Hsort & _ & Hs); [apply Z_ltb_swo | lia | lia | by vm_compute | lia |].
  exists d'. split; [exact Hsort|exact Hs].
Defined.

(** X15. [reverse] mirrors the range [start..end] and touches nothing
    else. *)
Theorem reverse_mirrors_range {T} (a b : Z) (d : list T) :
  0 ≤ a → b < len d →
  ∃ d', reverseRange a b d = Ok d' ∧
    ∀ k, get d' k = if decide (a ≤ k ≤ b) then get d (a + b - k) else get d k.
Proof.
  intros Ha Hb. unfold reverseRange.
  destruct (reverse_loop_ok (S (Z.to_nat (b - a))) a b d) as (d' & Hrev & _); [lia..|].
  exists d'. split; [done|]. intros k. apply (reverse_loop_get _ _ _ _ _ k Hrev).
Qed.

Lemma reverse_mirrors_range_witness :
  ∃ d', reverseRange 1 4 [10; 11; 12; 13; 14; 15] = Ok d' ∧
    get d' 1 = Ok 14 ∧ get d' 2 = Ok 13 ∧ get d' 0 = Ok 10 ∧ get d' 5 = Ok 15.
Proof.
  destruct (reverse_mirrors_range 1 4 [10; 11; 12; 13; 14; 15]) as (d' & Hrev & Hget);
    [lia | by vm_compute |].
  exists d'. split; [exact Hrev|]. rewrite !Hget. by vm_compute.
Defined.

(** X16. [findRuns] cuts the live prefix into runs: the boundaries start
    at 0, end at the size and increase strictly, and when it returns each
    run is a sorted range (descending runs have been reversed); the prefix
    is only rearranged. *)
Theorem findRuns_cuts_into_sorted_runs {T} (lt : T → T → bool) sz (d : list T) :
  StrictWeakOrder lt → 0 < sz ≤ len d →
  ∃ d' runs, findRuns lt sz d = Ok (d', runs) ∧
    perm_in 0 (Z.to_nat sz) d d' ∧ runs_ok sz runs ∧
    head runs = Some 0 ∧ last runs = Some sz ∧ runs_sorted lt d' runs.
Proof. intros Hlt. by apply findRuns_sorts. Qed.

Lemma findRuns_cuts_into_sorted_runs_witness :
  ∃ d' runs, findRuns Z.ltb 7 [1; 3; 5; 4; 2; 2; 6] = Ok (d', runs) ∧
    d' = [1; 3; 5; 2; 2; 4; 6] ∧ runs = [0; 3; 6; 7] ∧ runs_sorted Z.ltb d' runs.
Proof.
  destruct (findRuns_cuts_into_sorted_runs Z.ltb 7 [1; 3; 5; 4; 2; 2; 6])
    as (d' & runs & Hfind & _ & _ & _ & _ & Hs); [apply Z_ltb_swo | by vm_compute |].
  exists d', runs. split; [exact Hfind|].
  vm_compute in Hfind. injection Hfind as <- <-. split; [done|]. split; [done|exact Hs].
Defined.

(** X17. [timsort] returns, and the live prefix is then sorted and a
    rearrangement of what it was; the rest of the buffer is untouched. *)
Theorem timsort_sorts_prefix {T} `{Reflect T} (lt : T → T → bool) sz (d : list T) :
  StrictWeakOrder lt → 0 ≤ sz ≤ len d →
  ∃ d', timsortData lt sz d = Ok d' ∧ perm_in 0 (Z.to_nat sz) d d' ∧
    sorted_by lt (take (Z.to_nat sz) d').
Proof. intros Hlt. by apply timsortData_sorts. Qed.

Lemma timsort_sorts_prefix_witness :
  ∃ d', timsortData Z.ltb 40 (map (λ i, (Z.of_nat i * 17) `mod` 23) (seq 0 40)) = Ok d' ∧
    sorted_by Z.ltb (take 40 d').
Proof.
  destruct (timsort_sorts_prefix Z.ltb 40 (map (λ i, (Z.of_nat i * 17) `mod` 23) (seq 0 40)))
    as (d' & Hsort & _ & Hs); [apply Z_ltb_swo | by vm_compute |].
  exists d'. split; [exact Hsort|exact Hs].
Defined.

(** ** The sort dispatch *)

(** X18. [SortWithStrategy] with a comparison strategy (or with any
    strategy when the tag is not integer, or with Auto on at most 100
    elements) returns; the queue keeps its size, capacity, comparator and
    tag; the live prefix is a rearrangement of what it was and, for a
    strict weak order, is sorted; the slack after it is untouched. *)
Theorem SortWithStrategy_sorts {T} `{Reflect T} (pq : PQueue T) strategy :
  wf pq → comparison_sort strategy pq →
  ∃ pq', SortWithStrategy strategy pq = Ok pq' ∧ wf pq' ∧
    Size pq' = Size pq ∧ capacity pq' = capacity pq ∧
    less pq' = less pq ∧ dataType pq' = dataType pq ∧
    live pq' ≡ₚ live pq ∧
    drop (Z.to_nat (size pq)) (data pq') = drop (Z.to_nat (size pq)) (data pq) ∧
    (StrictWeakOrder (less pq) → sorted_by (less pq) (live pq')).
Proof.
  intros Hwf Hcmp.
  destruct (SortWithStrategy_comparison pq strategy Hwf Hcmp) as (d' & Hsort & Hp & Hs).
  destruct (with_data_perm pq d' Hwf Hp) as (Hwf' & Hsz & Hcap & Hlive & Htake & Hdrop).
  exists (with_data pq d').
  split_and!; first [done | intros Hlt; rewrite Htake; by apply Hs].
Qed.

Lemma SortWithStrategy_sorts_witness :
  ∃ pq', SortWithStrategy IntrosortStrategy
           (New (map (λ i, mkItem ((Z.of_nat i * 7) `mod` 20) (Z.of_nat i)) (seq 0 40))
              lessByValue) = Ok pq' ∧
    sorted_by lessByValue (live pq') ∧ Size pq' = 40.
Proof.
  destruct (SortWithStrategy_sorts
              (New (map (λ i, mkItem ((Z.of_nat i * 7) `mod` 20) (Z.of_nat i)) (seq 0 40))
                 lessByValue) IntrosortStrategy)
    as (pq' & Hsort & _ & Hsz & _ & _ & _ & _ & _ & Hs).
  - by vm_compute.
  - left. unfold comparison_strategy. auto.
  - exists pq'. split; [exact Hsort|]. split; [|exact Hsz].
    apply Hs. apply lessByValue_swo.
Defined.

(** X19. After a sort that ends in a comparison sort, [Peek] returns the
    first element of [ToSlice], and sorting again with Auto, Insertion,
    Merge or Quick changes nothing. *)
Theorem sorted_queue_is_stable_point {T} `{Reflect T} (pq pq' : PQueue T) s s' :
  StrictWeakOrder (less pq) → wf pq → comparison_sort s pq →
  SortWithStrategy s pq = Ok pq' →
  s' = AutoStrategy ∨ s' = InsertionStrategy ∨ s' = MergeStrategy ∨ s' = QuickStrategy →
  SortWithStrategy s' pq' = Ok pq' ∧
  (size pq ≠ 0 →
   ∃ x l, ToSlice pq' = Ok (x :: l) ∧ Peek pq' = Ok ((x, None), pq')).
Proof.
  intros Hlt Hwf Hcmp Hsort Hs'.
  destruct (SortWithStrategy_comparison pq s Hwf Hcmp) as (d' & Hsort' & Hp & Hs).
  rewrite Hsort in Hsort'. injection Hsort' as ->.
  destruct (with_data_perm pq d' Hwf Hp) as (Hwf' & Hsz & _ & _ & Htake & _).
  assert (sorted_by (less (with_data pq d')) (live (with_data pq d'))) as Hsorted.
  { rewrite Htake. by apply Hs. }
  split; [by apply SortWithStrategy_sorted_id|].
  intros Hne. rewrite ToSlice_live by done.
  pose proof Hwf' as [H0 H1]. unfold Peek.
  rewrite decide_False by (rewrite Hsz; done).
  destruct (minIdx_loop_ok (with_data pq d') (Z.to_nat (size (with_data pq d') - 1)) 1 0)
    as (m & Hloop & Hm); [done | lia | lia |].
  rewrite Hloop. res_simpl.
  assert (m = 0) as ->.
  { eapply minIdx_sorted; [| | |exact Hsorted|exact Hloop]; (done || (rewrite Hsz; done)). }
  destruct (get_in_range (data (with_data pq d')) 0) as [x Hx]; [lia|].
  rewrite Hx. res_simpl.
  pose proof (get_live (with_data pq d') 0 x ltac:(lia) Hx) as Hhead.
  destruct (live (with_data pq d')) as [|y l]; [done|].
  injection Hhead as ->. by exists x, l.
Qed.

Lemma sorted_queue_is_stable_point_witness :
  SortWithStrategy AutoStrategy (NewInts [1; 2; 3; 5]) = Ok (NewInts [1; 2; 3; 5]) ∧
  Peek (NewInts [1; 2; 3; 5]) = Ok ((1, None), NewInts [1; 2; 3; 5]).
Proof.
  destruct (sorted_queue_is_stable_point (NewInts [3; 5; 1; 2]) (NewInts [1; 2; 3; 5])
              MergeStrategy AutoStrategy) as [Hid Hpeek].
  - apply Z_ltb_swo.
  - by vm_compute.
  - left. unfold comparison_strategy. auto.
  - by vm_compute.
  - auto.
  - split; [exact Hid|].
    destruct Hpeek as (x & l & Hslice & Hpeek); [by vm_compute|].
    vm_compute in Hslice. injection Hslice as <- <-. exact Hpeek.
Defined.

(** ** Minimum and maximum, again *)

Lemma wrap64_in_range z : in_int64 z → wrap64 z = z.
Proof.
  unfold in_int64, wrap64. intros Hz.
  rewrite Z.mod_small by lia. lia.
Qed.

Lemma foldl_max_spec (vs : list Z) :
  ∀ mx, mx ≤ foldl Z.max mx vs ∧ (∀ v, v ∈ vs → v ≤ foldl Z.max mx vs) ∧
    (foldl Z.max mx vs = mx ∨ foldl Z.max mx vs ∈ vs).
Proof.
  induction vs as [|w vs IH]; intros mx; cbn [foldl].
  - split; [lia|]. split; [|by left]. intros v Hv. by apply elem_of_nil in Hv.
  - destruct (IH (Z.max mx w)) as (Hle & Hall & Hin). split; [lia|]. split.
    + intros v Hv. apply elem_of_cons in Hv as [->|Hv]; [lia|by apply Hall].
    + destruct Hin as [Heq|Hin]; [|right; by right].
      destruct (decide (mx ≤ w)).
      * right. rewrite Heq. replace (Z.max mx w) with w by lia. by left.
      * left. lia.
Qed.

Lemma foldl_min_spec (vs : list Z) :
  ∀ mn, foldl Z.min mn vs ≤ mn ∧ (∀ v, v ∈ vs → foldl Z.min mn vs ≤ v) ∧
    (foldl Z.min mn vs = mn ∨ foldl Z.min mn vs ∈ vs).
Proof.
  induction vs as [|w vs IH]; intros mn; cbn [foldl].
  - split; [lia|]. split; [|by left]. intros v Hv. by apply elem_of_nil in Hv.
  - destruct (IH (Z.min mn w)) as (Hle & Hall & Hin). split; [lia|]. split.
    + intros v Hv. apply elem_of_cons in Hv as [->|Hv]; [lia|by apply Hall].
    + destruct Hin as [Heq|Hin]; [|right; by right].
      destruct (decide (w ≤ mn)).
      * right. rewrite Heq. replace (Z.min mn w) with w by lia. by left.
      * left. lia.
Qed.

Section MinMaxAgain.
Context {T : Type} `{Reflect T}.
Implicit Types pq : PQueue T.

Lemma getMaxInt_loop_spec (d : list T) rest :
  ∀ i mx,
    (∀ (k : nat) y, rest !! k = Some y → get d (i + Z.of_nat k) = Ok y) →
    getMaxInt_loop (length rest) d i mx = Ok (foldl Z.max mx (seen_values rest)).
Proof.
  induction rest as [|x rest IH]; intros i mx Hget; [done|].
  cbn [length getMaxInt_loop].
  assert (get d i = Ok x) as ->.
  { pose proof (Hget 0%nat x eq_refl) as Hx. by rewrite Z.add_0_r in Hx. }
  assert (∀ mx', getMaxInt_loop (length rest) d (i + 1) mx' =
                   Ok (foldl Z.max mx' (seen_values rest))) as Hrest.
  { intros mx'. apply IH. intros k y Hk.
    replace (i + 1 + Z.of_nat k) with (i + Z.of_nat (S k)) by lia. by apply Hget. }
  res_simpl. unfold seen_values. cbn [omap list_omap].
  destruct (getMaxInt_kind (kindOf x)) eqn:Hkind; [|by rewrite Hrest].
  apply getMaxInt_kind_signed, valueInt_kind in Hkind as [v Hv].
  rewrite Hv. res_simpl. cbn [foldl]. rewrite Hrest. do 2 f_equal.
  destruct (decide (mx < v)); lia.
Qed.

Lemma getMaxInt_spec pq :
  wf pq → getMaxInt pq = Ok (foldl Z.max 0 (seen_values (live pq))).
Proof.
  intros Hwf. unfold getMaxInt. pose proof (live_length pq Hwf) as Hlen.
  destruct (decide (size pq = 0)) as [Hz|Hnz].
  - destruct (live pq); [done|]. len_lia.
  - replace (Z.to_nat (size pq)) with (length (live pq)) by len_lia.
    apply getMaxInt_loop_spec. intros k y Hk. rewrite Z.add_0_l. by apply live_lookup.
Qed.

Lemma getMinMaxInt_loop_panic (d : list T) rest :
  ∀ i mn mx,
    (∀ (k : nat) y, rest !! k = Some y → get d (i + Z.of_nat k) = Ok y) →
    (∃ x, x ∈ rest ∧ valueInt x = None) →
    getMinMaxInt_loop (length rest) d i mn mx = Panic.
Proof.
  induction rest as [|x rest IH]; intros i mn mx Hget (y & Hy & Hnone).
  - by apply elem_of_nil in Hy.
  - cbn [length getMinMaxInt_loop].
    assert (get d i = Ok x) as ->.
    { pose proof (Hget 0%nat x eq_refl) as Hx. by rewrite Z.add_0_r in Hx. }
    res_simpl. destruct (valueInt x) as [v|] eqn:Hv; [|done]. res_simpl.
    apply IH.
    + intros k z Hk. replace (i + 1 + Z.of_nat k) with (i + Z.of_nat (S k)) by lia.
      by apply Hget.
    + apply elem_of_cons in Hy as [->|Hy]; [congruence|eauto].
Qed.

Lemma getMinMaxInt_panic pq :
  wf pq → (∃ x, x ∈ live pq ∧ valueInt x = None) → getMinMaxInt pq = Panic.
Proof.
  intros Hwf (y & Hy & Hnone). pose proof (live_length pq Hwf) as Hlen.
  unfold getMinMaxInt. destruct (live pq) as [|x rest] eqn:Hlive.
  { by apply elem_of_nil in Hy. }
  rewrite decide_False by len_lia.
  assert (∀ (k : nat) z, (x :: rest) !! k = Some z →
            get (data pq) (Z.of_nat k) = Ok z) as Hget.
  { intros k z Hk. rewrite <- Hlive in Hk. by apply live_lookup. }
  assert (get (data pq) 0 = Ok x) as -> by apply (Hget 0%nat x eq_refl).
  res_simpl. destruct (valueInt x) as [v|] eqn:Hv; [|done]. res_simpl.
  replace (Z.to_nat (size pq - 1)) with (length rest) by len_lia.
  apply getMinMaxInt_loop_panic.
  - intros k z Hk. replace (1 + Z.of_nat k) with (Z.of_nat (S k)) by lia. by apply Hget.
  - apply elem_of_cons in Hy as [->|Hy]; [congruence|eauto].
Qed.

Lemma getMinMaxInt_bounds pq :
  wf pq → all_ints (live pq) →
  ∃ mn mx, getMinMaxInt pq = Ok (mn, mx) ∧
    (∀ v, v ∈ int_values (live pq) → mn ≤ v ≤ mx) ∧
    (size pq ≠ 0 → mn ∈ int_values (live pq) ∧ mx ∈ int_values (live pq)) ∧
    (size pq = 0 → mn = 0 ∧ mx = 0).
Proof.
  intros Hwf Hints. rewrite getMinMaxInt_spec by done.
  pose proof (live_length pq Hwf) as Hlen.
  eexists _, _. split; [done|].
  destruct (int_values (live pq)) as [|v vs] eqn:Hvs.
  - cbn. split; [intros v Hv; by apply elem_of_nil in Hv|]. split; [|done].
    intros Hnz. destruct (live pq) as [|x l]; [len_lia|].
    apply Forall_cons in Hints as [[w Hw] _]. unfold int_values in Hvs.
    cbn [omap list_omap] in Hvs. by rewrite Hw in Hvs.
  - cbn [min_value max_value].
    destruct (foldl_min_spec vs v) as (Hle & Hall & Hin).
    destruct (foldl_max_spec vs v) as (Hle' & Hall' & Hin').
    split; [|split].
    + intros w Hw. apply elem_of_cons in Hw as [->|Hw]; [lia|].
      specialize (Hall w Hw). specialize (Hall' w Hw). lia.
    + intros _. split.
      * destruct Hin as [->|Hin]; [by left|by right].
      * destruct Hin' as [->|Hin']; [by left|by right].
    + intros Hz. destruct (live pq); [done|len_lia].
Qed.

End MinMaxAgain.

(** ** Where the integer fast paths fail *)

Section IntegerPanics.
Context {T : Type} `{Reflect T}.
Implicit Types pq : PQueue T.

(** A value that [reflect] cannot read stops the counting sort, the range
    test and, through it, the automatic selection. *)
Lemma unreadable_value_panics pq :
  wf pq → dataType pq = IntegerType →
  (∃ x, x ∈ live pq ∧ valueInt x = None) →
  getMinMaxInt pq = Panic ∧
  (size pq ≠ 0 → hasSmallRange pq = Panic) ∧
  (1 < size pq → SortWithStrategy CountingStrategy pq = Panic) ∧
  (100 < size pq → near_sorted (less pq) (live pq) = false → Sort pq = Panic).
Proof.
  intros Hwf Htag Hbad. pose proof (getMinMaxInt_panic pq Hwf Hbad) as Hmm.
  assert (size pq ≠ 0 → hasSmallRange pq = Panic) as Hsmall.
  { intros Hnz. unfold hasSmallRange.
    rewrite decide_False by (intros [?|?]; done). by rewrite Hmm. }
  split; [done|]. split; [done|]. split.
  - intros Hsz. unfold SortWithStrategy. rewrite decide_False by lia. dispatch.
    rewrite decide_True by done. unfold countingSort.
    rewrite decide_False by (intros Hne; by apply Hne). by rewrite Hmm.
  - intros Hsz Hnear. unfold Sort, SortWithStrategy. rewrite decide_False by lia.
    dispatch. unfold chooseOptimalStrategy.
    destruct (decide (size pq ≤ 16)); [lia|].
    rewrite (isNearlySorted_near_sorted pq Hwf), Hnear. res_simpl.
    destruct (decide (dataType pq = IntegerType ∧ 100 < size pq)) as [_|Hno];
      [|exfalso; apply Hno; split; [done|lia]].
    by rewrite Hsmall by lia.
Qed.

Lemma digit_count_panic (d : list T) rest :
  ∀ i count,
    len count = 10 →
    (∀ (k : nat) y, rest !! k = Some y → get d (i + Z.of_nat k) = Ok y) →
    values_in_int64 rest →
    (∃ y w, y ∈ rest ∧ valueInt y = Some w ∧ w < 0 ∧ w `rem` 10 ≠ 0) →
    digit_count (length rest) 1 d i count = Panic.
Proof.
  induction rest as [|x rest IH]; intros i count Hlen Hget Hin (y & w & Hy & Hw & Hneg & Hrem).
  - by apply elem_of_nil in Hy.
  - cbn [length digit_count].
    assert (get d i = Ok x) as ->.
    { pose proof (Hget 0%nat x eq_refl) as Hx. by rewrite Z.add_0_r in Hx. }
    res_simpl. unfold digitOf. destruct (valueInt x) as [v|] eqn:Hv; [|done].
    res_simpl. apply Forall_cons in Hin as [Hv64 Hin]. specialize (Hv64 v Hv).
    unfold int_div. rewrite decide_False by done. res_simpl.
    rewrite Z.quot_1_r, wrap64_in_range by done.
    pose proof (Z.rem_bound_abs v 10 ltac:(lia)) as Hbound.
    destruct (decide (0 ≤ v `rem` 10)) as [Hpos|Hnegd].
    + destruct (get_in_range count (v `rem` 10)) as [c ->]; [lia|]. res_simpl.
      rewrite set_in_range by lia. res_simpl.
      apply IH.
      * unfold len. rewrite length_insert. exact Hlen.
      * intros k z Hk. replace (i + 1 + Z.of_nat k) with (i + Z.of_nat (S k)) by lia.
        by apply Hget.
      * done.
      * apply elem_of_cons in Hy as [->|Hy]; [|eauto 10].
        assert (v = w) as -> by congruence.
        pose proof (Z.rem_nonpos w 10 ltac:(lia) ltac:(lia)). lia.
    + unfold get. by rewrite decide_False.
Qed.

Lemma radix_loop_S (f : nat) sz maxVal exp (d : list T) :
  radix_loop (S f) sz maxVal exp d =
    (q ← int_div maxVal exp;
     if decide (0 < q) then
       d' ← countingSortByDigit sz exp d;
       radix_loop f sz maxVal (wrap64 (exp * 10)) d'
     else Ok d).
Proof. done. Qed.

(** A negative value whose last digit is not zero stops the first digit
    pass of the radix sort, which is made as soon as some value is
    positive. *)
Lemma radix_mixed_sign_panics pq :
  wf pq → dataType pq = IntegerType → 1 < size pq →
  values_in_int64 (live pq) →
  (∃ v, v ∈ seen_values (live pq) ∧ 0 < v) →
  (∃ y w, y ∈ live pq ∧ valueInt y = Some w ∧ w < 0 ∧ w `rem` 10 ≠ 0) →
  SortWithStrategy RadixStrategy pq = Panic.
Proof.
  intros Hwf Htag Hsz H64 (v & Hv & Hvpos) Hneg. pose proof Hwf as [H0 H1].
  unfold SortWithStrategy. rewrite decide_False by lia. dispatch.
  rewrite decide_True by done. unfold radixSort.
  rewrite decide_False by (intros Hne; by apply Hne).
  rewrite getMaxInt_spec by done. res_simpl.
  destruct (foldl_max_spec (seen_values (live pq)) 0) as (Hge & Hall & Hin).
  set (m := foldl Z.max 0 (seen_values (live pq))) in *.
  assert (0 < m) as Hm by (specialize (Hall v Hv); lia).
  assert (in_int64 m) as Hm64.
  { destruct Hin as [Heq|Hin]; [lia|].
    unfold seen_values in Hin. apply list_elem_of_omap in Hin as (x & Hx & Hxm).
    destruct (getMaxInt_kind (kindOf x)); [|done].
    unfold values_in_int64 in H64. rewrite Forall_forall in H64. by apply (H64 x). }
  rewrite decide_False by lia. unfold radix_fuel. rewrite (radix_loop_S 65).
  unfold int_div at 1. rewrite decide_False by done. res_simpl.
  rewrite Z.quot_1_r, wrap64_in_range by done.
  rewrite decide_True by done.
  unfold countingSortByDigit, make. rewrite !decide_True by lia. res_simpl.
  pose proof (live_length pq Hwf) as Hlen.
  replace (Z.to_nat (size pq)) with (length (live pq)) by len_lia.
  rewrite (digit_count_panic (data pq) (live pq)); [done| done | | done | done].
  intros k y Hk. rewrite Z.add_0_l. by apply live_lookup.
Qed.

(** [getMaxInt] does not look at [int8] and [int16] values: the radix sort
    of such a queue makes no pass. *)
Lemma radix_unseen_kinds_unchanged pq :
  wf pq → dataType pq = IntegerType →
  (∀ x, x ∈ live pq → getMaxInt_kind (kindOf x) = false) →
  SortWithStrategy RadixStrategy pq = Ok pq.
Proof.
  intros Hwf Htag Hkinds. unfold SortWithStrategy.
  destruct (decide (size pq ≤ 1)); [done|]. dispatch.
  rewrite decide_True by done. unfold radixSort.
  rewrite decide_False by (intros Hne; by apply Hne).
  rewrite getMaxInt_spec by done.
  assert (seen_values (live pq) = []) as ->.
  { unfold seen_values. induction (live pq) as [|x l IH]; [done|].
    cbn [omap list_omap]. rewrite Hkinds by (by left).
    rewrite IH; [done|]. intros y Hy. apply Hkinds. by right. }
  cbn [foldl]. res_simpl. rewrite decide_True by lia. res_simpl.
  by rewrite with_data_same.
Qed.

End IntegerPanics.

(** ** The integer helpers and their failures *)

(** X20. [getMaxInt] never fails on a well-formed queue and returns the
    largest value among zero and the values of the elements of kind [int],
    [int32] or [int64]: the scan starts from zero and skips every other
    kind. *)
Theorem getMaxInt_is_clamped_maximum {T} `{Reflect T} (pq : PQueue T) :
  wf pq →
  ∃ m, getMaxInt pq = Ok m ∧ 0 ≤ m ∧
    (∀ v, v ∈ seen_values (live pq) → v ≤ m) ∧
    (m = 0 ∨ m ∈ seen_values (live pq)).
Proof.
  intros Hwf. rewrite getMaxInt_spec by done. eexists. split; [done|].
  apply foldl_max_spec.
Qed.

Lemma getMaxInt_is_clamped_maximum_witness :
  getMaxInt (NewInts [-5; -3; -9]) = Ok 0 ∧
  ∃ m, getMaxInt (NewInts [4; -3; 9; 2]) = Ok m ∧ 9 ≤ m.
Proof.
  split; [by vm_compute|].
  destruct (getMaxInt_is_clamped_maximum (NewInts [4; -3; 9; 2]))
    as (m & Hmax & _ & Hall & _); [by vm_compute|].
  exists m. split; [exact Hmax|]. apply Hall.
  change (seen_values (live (NewInts [4; -3; 9; 2]))) with [4; -3; 9; 2].
  repeat first [left | right].
Defined.

(** X21. [getMinMaxInt] on a non-empty queue of readable integers returns
    the least and the greatest value, both taken by some element; on an
    empty queue it returns [(0, 0)]; when some live element is not a signed
    integer it panics ([reflect]'s [Int()]). *)
Theorem getMinMaxInt_returns_extremes {T} `{Reflect T} (pq : PQueue T) :
  wf pq →
  (all_ints (live pq) →
   ∃ mn mx, getMinMaxInt pq = Ok (mn, mx) ∧
     (∀ v, v ∈ int_values (live pq) → mn ≤ v ≤ mx) ∧
     (size pq ≠ 0 → mn ∈ int_values (live pq) ∧ mx ∈ int_values (live pq)) ∧
     (size pq = 0 → mn = 0 ∧ mx = 0)) ∧
  ((∃ x, x ∈ live pq ∧ valueInt x = None) → getMinMaxInt pq = Panic).
Proof.
  intros Hwf. split.
  - by apply getMinMaxInt_bounds.
  - by apply getMinMaxInt_panic.
Qed.

Lemma getMinMaxInt_returns_extremes_witness :
  (∃ mn mx, getMinMaxInt (NewInts [4; -3; 9; 2]) = Ok (mn, mx) ∧ mn ≤ -3 ∧ 9 ≤ mx) ∧
  getMinMaxInt (New [mkItem 1 0; mkItem 2 1] lessByValue) = Panic.
Proof.
  split.
  - destruct (getMinMaxInt_returns_extremes (NewInts [4; -3; 9; 2])) as [Hok _];
      [by vm_compute|].
    destruct Hok as (mn & mx & Hmm & Hall & _).
    { unfold all_ints. change (live (NewInts [4; -3; 9; 2])) with [4; -3; 9; 2].
      repeat constructor; by eexists. }
    exists mn, mx. split; [exact Hmm|].
    change (int_values (live (NewInts [4; -3; 9; 2]))) with [4; -3; 9; 2] in Hall.
    split; [apply (Hall (-3)) | apply (Hall 9)]; repeat first [left | right].
  - destruct (getMinMaxInt_returns_extremes (New [mkItem 1 0; mkItem 2 1] lessByValue))
      as [_ Hpanic]; [by vm_compute|].
    apply Hpanic. exists (mkItem 1 0). split; [|done].
    change (live (New [mkItem 1 0; mkItem 2 1] lessByValue)) with [mkItem 1 0; mkItem 2 1].
    repeat first [left | right].
Defined.

(** X22. A queue built from values of an unsigned integer kind is tagged
    integer, but [reflect]'s [Int()] cannot read its values: the counting
    sort panics, the automatic selection panics as soon as it tests the
    value range (more than 100 elements, not nearly sorted), and the radix
    sort, which skips such kinds when it looks for the maximum, leaves the
    queue unsorted as it is. *)
Theorem unsigned_queue_integer_paths_fail {T} `{Reflect T} (d : list T)
    (lt : T → T → bool) :
  d ≠ [] → (∀ x, x ∈ d → unsigned_kind (kindOf x) = true) →
  dataType (New d lt) = IntegerType ∧
  (1 < len d → SortWithStrategy CountingStrategy (New d lt) = Panic) ∧
  (100 < len d → near_sorted lt d = false → Sort (New d lt) = Panic) ∧
  SortWithStrategy RadixStrategy (New d lt) = Ok (New d lt).
Proof.
  intros Hne Hkinds.
  assert (dataType (New d lt) = IntegerType) as Htag.
  { destruct d as [|x d]; [done|]. cbn.
    pose proof (Hkinds x ltac:(by left)) as Hk. by destruct (kindOf x). }
  assert (∃ x, x ∈ live (New d lt) ∧ valueInt x = None) as Hbad.
  { rewrite New_live. destruct d as [|x d]; [done|]. exists x. split; [by left|].
    pose proof (Hkinds x ltac:(by left)) as Hk.
    destruct (valueInt x) as [v|] eqn:Hv; [|done].
    assert (is_Some (valueInt x)) as Hsome by eauto.
    apply valueInt_kind in Hsome. by destruct (kindOf x). }
  destruct (unreadable_value_panics (New d lt) (New_wf d lt) Htag Hbad)
    as (_ & _ & Hcount & Hauto).
  split; [done|]. split; [done|]. split.
  - intros Hsz Hnear. apply Hauto; [done|]. by rewrite New_live.
  - apply radix_unseen_kinds_unchanged; [apply New_wf | done |].
    rewrite New_live. intros x Hx. specialize (Hkinds x Hx). by destruct (kindOf x).
Qed.

Lemma unsigned_queue_integer_paths_fail_witness :
  Sort (New scattered_uints lessUint) = Panic ∧
  SortWithStrategy CountingStrategy (New scattered_uints lessUint) = Panic.
Proof.
  destruct (unsigned_queue_integer_paths_fail scattered_uints lessUint)
    as (_ & Hcount & Hauto & _); [done | done |].
  split; [apply Hauto | apply Hcount]; by vm_compute.
Defined.

(** X23. The radix sort panics on a queue of 64-bit integers that holds a
    positive value and a negative value whose last decimal digit is not
    zero: the first digit pass indexes the count table with a negative
    digit. *)
Theorem radix_panics_on_mixed_signs {T} `{Reflect T} (pq : PQueue T) :
  wf pq → dataType pq = IntegerType → 1 < size pq →
  values_in_int64 (live pq) →
  (∃ v, v ∈ seen_values (live pq) ∧ 0 < v) →
  (∃ y w, y ∈ live pq ∧ valueInt y = Some w ∧ w < 0 ∧ w `rem` 10 ≠ 0) →
  SortWithStrategy RadixStrategy pq = Panic.
Proof. apply radix_mixed_sign_panics. Qed.

Lemma radix_panics_on_mixed_signs_witness :
  SortWithStrategy RadixStrategy (NewInts [5; -3; 2]) = Panic.
Proof.
  apply radix_panics_on_mixed_signs.
  - by vm_compute.
  - done.
  - by vm_compute.
  - change (live (NewInts [5; -3; 2])) with [5; -3; 2]. unfold values_in_int64.
    repeat (apply Forall_cons; split; [intros v [= <-]; unfold in_int64; lia|]).
    by apply Forall_nil.
  - exists 5. split; [|lia].
    change (seen_values (live (NewInts [5; -3; 2]))) with [5; -3; 2]. repeat first [left | right].
  - exists (-3), (-3). change (live (NewInts [5; -3; 2])) with [5; -3; 2].
    split; [repeat first [left | right]|]. split; [done|]. split; [lia|by vm_compute].
Defined.

(** ** The comparator of byte and rune slices *)

Lemma sliceLess_loop_spec (a' : list Z) :
  ∀ b' p q i,
    i = len p → len q = len p →
    sliceLess_loop (Nat.min (length a') (length b')) (p ++ a') (q ++ b') i =
      Ok (lex_lt a' b').
Proof.
  induction a' as [|x a' IH]; intros b' p q i Hi Hq.
  - cbn [length Nat.min sliceLess_loop]. f_equal. rewrite app_nil_r.
    destruct b' as [|y b']; cbn [lex_lt].
    + rewrite app_nil_r. apply bool_decide_eq_false_2. lia.
    + apply bool_decide_eq_true_2. len_lia.
  - destruct b' as [|y b'].
    + cbn [length Nat.min sliceLess_loop lex_lt]. f_equal. rewrite app_nil_r.
      apply bool_decide_eq_false_2. len_lia.
    + cbn [length Nat.min sliceLess_loop lex_lt].
      rewrite (get_app_mid p a' x i) by done.
      rewrite (get_app_mid q b' y i) by lia. res_simpl.
      destruct (decide (x ≠ y)) as [Hne|Heq].
      * by rewrite decide_False by done.
      * assert (x = y) as -> by (by destruct (decide (x = y)); [|exfalso; auto]).
        rewrite decide_True by done.
        replace (p ++ y :: a') with ((p ++ [y]) ++ a') by (by rewrite <- app_assoc).
        replace (q ++ y :: b') with ((q ++ [y]) ++ b') by (by rewrite <- app_assoc).
        apply IH; len_lia.
Qed.

Lemma sliceLess_lex a b : sliceLess a b = Ok (lex_lt a b).
Proof. apply (sliceLess_loop_spec a b [] [] 0); done. Qed.

Lemma lessSlice_lex a b : lessSlice a b = lex_lt a b.
Proof. unfold lessSlice. by rewrite sliceLess_lex. Qed.

Lemma lex_lt_irrefl a : lex_lt a a = false.
Proof. induction a as [|x a IH]; [done|]. cbn. by rewrite decide_True. Qed.

Lemma lex_lt_trans a : ∀ b c, lex_lt a b = true → lex_lt b c = true → lex_lt a c = true.
Proof.
  induction a as [|x a IH]; intros [|y b] [|z c]; cbn; try done.
  repeat case_decide; subst; try done; eauto;
    rewrite ?bool_decide_eq_true; intros; lia.
Qed.

Lemma lex_lt_total a : ∀ b, lex_lt a b = false → lex_lt b a = false → a = b.
Proof.
  induction a as [|x a IH]; intros [|y b]; cbn; try done.
  destruct (decide (x = y)) as [->|Hxy].
  - rewrite decide_True by done. intros H1 H2. f_equal. by apply IH.
  - rewrite decide_False by done. intros H1 H2.
    apply bool_decide_eq_false_1 in H1, H2. lia.
Qed.

Lemma lessSlice_swo : StrictWeakOrder lessSlice.
Proof.
  split.
  - intros a. rewrite lessSlice_lex. apply lex_lt_irrefl.
  - intros a b c. rewrite !lessSlice_lex. apply lex_lt_trans.
  - intros a b c. unfold eqv. rewrite !lessSlice_lex.
    intros Hab Hbc. apply andb_true_iff in Hab as [Hab Hba].
    apply andb_true_iff in Hbc as [Hbc Hcb].
    apply negb_true_iff in Hab, Hba, Hbc, Hcb.
    assert (a = b) as -> by by apply lex_lt_total.
    by rewrite Hbc, Hcb.
Qed.

(** X24. The comparator that [NewBytes] and [NewRunes] give the queue
    never reads outside the two slices and is the lexicographic order (the
    first differing entry decides; a proper prefix comes first): a strict
    weak order in which only equal slices are equivalent.  The queue built
    from a non-empty input is tagged as a slice queue. *)
Theorem slice_comparator_is_lexicographic (a b : list Z) (d : list (list Z)) :
  sliceLess a b = Ok (lex_lt a b) ∧
  less (NewBytes d) a b = lex_lt a b ∧ less (NewRunes d) a b = lex_lt a b ∧
  StrictWeakOrder (less (NewBytes d)) ∧
  (eqv (less (NewBytes d)) a b = true ↔ a = b) ∧
  dataType (NewBytes d) = (if decide (d = []) then GenericType else SliceType).
Proof.
  split; [apply sliceLess_lex|]. split; [apply lessSlice_lex|].
  split; [apply lessSlice_lex|]. split; [apply lessSlice_swo|]. split.
  - change (less (NewBytes d)) with lessSlice. unfold eqv. rewrite !lessSlice_lex. split.
    + intros Hab. apply andb_true_iff in Hab as [Hab Hba].
      apply negb_true_iff in Hab, Hba. by apply lex_lt_total.
    + intros ->. by rewrite lex_lt_irrefl.
  - by destruct d.
Qed.

(** ** Buckets *)

Section Buckets.
Context {T : Type} (g : T → nat).
Implicit Types l P S : list T.
Implicit Types ks : list nat.

Lemma bucket_app k l1 l2 : bucket g k (l1 ++ l2) = bucket g k l1 ++ bucket g k l2.
Proof. apply List.filter_app. Qed.

Lemma bucket_cons_eq x l : bucket g (g x) (x :: l) = x :: bucket g (g x) l.
Proof. unfold bucket. simpl. by rewrite Nat.eqb_refl. Qed.

Lemma bucket_cons_ne k x l : g x ≠ k → bucket g k (x :: l) = bucket g k l.
Proof.
  intros Hne. unfold bucket. simpl.
  by destruct (Nat.eqb_spec (g x) k).
Qed.

Lemma bucket_snoc_ne k x l : g x ≠ k → bucket g k (l ++ [x]) = bucket g k l.
Proof.
  intros Hne. rewrite bucket_app, bucket_cons_ne by done. apply app_nil_r.
Qed.

Lemma bucket_snoc_eq x l : bucket g (g x) (l ++ [x]) = bucket g (g x) l ++ [x].
Proof. by rewrite bucket_app, bucket_cons_eq. Qed.

Lemma buckets_app ks1 ks2 l :
  buckets g (ks1 ++ ks2) l = buckets g ks1 l ++ buckets g ks2 l.
Proof. unfold buckets. by rewrite map_app, concat_app. Qed.

Lemma buckets_cons k ks l : buckets g (k :: ks) l = bucket g k l ++ buckets g ks l.
Proof. done. Qed.

Lemma buckets_cons_ne ks x l : g x ∉ ks → buckets g ks (x :: l) = buckets g ks l.
Proof.
  induction ks as [|k ks IH]; intros Hnotin; [done|].
  rewrite !buckets_cons, IH, bucket_cons_ne; [done| |].
  - intros Heq. apply Hnotin. rewrite Heq. by left.
  - intros Hin. apply Hnotin. by right.
Qed.

Lemma buckets_nil ks : buckets g ks [] = [].
Proof. induction ks as [|k ks IH]; [done|]. by rewrite buckets_cons, IH. Qed.

Lemma buckets_perm ks l :
  NoDup ks → (∀ x, x ∈ l → g x ∈ ks) → buckets g ks l ≡ₚ l.
Proof.
  intros Hnd. induction l as [|x l IH]; intros Hin.
  - by rewrite buckets_nil.
  - destruct (list_elem_of_split ks (g x)) as (ks1 & ks2 & ->); [apply Hin; by left|].
    apply NoDup_app in Hnd as (_ & Hnot1 & Hnd2).
    apply NoDup_cons in Hnd2 as [Hnot2 _].
    rewrite buckets_app, buckets_cons, bucket_cons_eq.
    rewrite !buckets_cons_ne by (done || (intros Hx; by apply (Hnot1 _ Hx); left)).
    rewrite <- app_comm_cons, <- Permutation_middle. apply Permutation_skip.
    rewrite <- buckets_cons, <- buckets_app. apply IH.
    intros y Hy. apply Hin. by right.
Qed.

Lemma blocks_app z ks1 ks2 P S :
  blocks g z (ks1 ++ ks2) P S = blocks g z ks1 P S ++ blocks g z ks2 P S.
Proof. unfold blocks. by rewrite map_app, concat_app. Qed.

Lemma blocks_cons z k ks P S :
  blocks g z (k :: ks) P S =
    (replicate (length (bucket g k P)) z ++ bucket g k S) ++ blocks g z ks P S.
Proof. done. Qed.

Lemma blocks_length z ks P S :
  length (blocks g z ks P S) = length (buckets g ks (P ++ S)).
Proof.
  induction ks as [|k ks IH]; [done|].
  rewrite blocks_cons, buckets_cons, !length_app, IH, bucket_app, length_app.
  by rewrite length_replicate.
Qed.

Lemma blocks_all_free z ks P :
  blocks g z ks P [] = replicate (length (buckets g ks P)) z.
Proof.
  induction ks as [|k ks IH]; [done|].
  rewrite blocks_cons, buckets_cons, IH, length_app, replicate_add.
  unfold bucket at 2. simpl. by rewrite app_nil_r.
Qed.

Lemma blocks_all_placed z ks S : blocks g z ks [] S = buckets g ks S.
Proof. induction ks as [|k ks IH]; [done|]. by rewrite blocks_cons, buckets_cons, IH. Qed.

Lemma blocks_move_ne z ks x P S :
  g x ∉ ks → blocks g z ks (P ++ [x]) S = blocks g z ks P (x :: S).
Proof.
  induction ks as [|k ks IH]; intros Hnotin; [done|].
  rewrite !blocks_cons, IH by (intros Hin; apply Hnotin; by right).
  rewrite bucket_snoc_ne, bucket_cons_ne; [done| |];
    intros Heq; apply Hnotin; rewrite Heq; by left.
Qed.

(** Placing [x], the last element still to be placed, in the last free
    slot of its bucket. *)
Lemma blocks_place z ks1 ks2 x P S :
  g x ∉ ks1 → g x ∉ ks2 →
  <[(length (buckets g ks1 (P ++ x :: S)) + length (bucket g (g x) P))%nat := x]>
    (blocks g z (ks1 ++ g x :: ks2) (P ++ [x]) S) =
  blocks g z (ks1 ++ g x :: ks2) P (x :: S).
Proof.
  intros Hnot1 Hnot2.
  rewrite !blocks_app, !blocks_cons, !blocks_move_ne by done.
  rewrite <- (blocks_length z ks1 P (x :: S)).
  rewrite insert_app_r. f_equal.
  rewrite bucket_snoc_eq, length_app, bucket_cons_eq. simpl.
  rewrite <- !app_assoc.
  replace (length (bucket g (g x) P)) with
    (length (replicate (length (bucket g (g x) P)) z) + 0)%nat at 1
    by (rewrite length_replicate; lia).
  rewrite replicate_add, <- app_assoc. by rewrite insert_app_r.
Qed.

Lemma blocks_place_lt z ks1 ks2 x P S :
  (length (buckets g ks1 (P ++ x :: S)) + length (bucket g (g x) P) <
     length (blocks g z (ks1 ++ g x :: ks2) (P ++ [x]) S))%nat.
Proof.
  rewrite blocks_length, <- app_assoc. cbn [app].
  rewrite buckets_app, buckets_cons, !length_app.
  rewrite !bucket_app, bucket_cons_eq, !length_app. simpl. lia.
Qed.

End Buckets.

(** ** Count tables *)

Section Tables.
Context (F : nat → Z) (n : nat).

Lemma get_table (k : nat) :
  (k < n)%nat → get (map F (seq 0 n)) (Z.of_nat k) = Ok (F k).
Proof.
  intros Hk. apply get_Ok_iff. split; [lia|]. rewrite Nat2Z.id.
  change (map F (seq 0 n)) with (F <$> seq 0 n).
  by rewrite list_lookup_fmap, lookup_seq_lt.
Qed.

Lemma get_table_inv z c :
  get (map F (seq 0 n)) z = Ok c →
  ∃ k : nat, z = Z.of_nat k ∧ (k < n)%nat ∧ c = F k.
Proof.
  intros Hget. pose proof (get_Ok_range _ _ _ Hget) as Hr.
  unfold len in Hr. rewrite length_map, length_seq in Hr.
  exists (Z.to_nat z). split; [lia|]. split; [lia|].
  replace z with (Z.of_nat (Z.to_nat z)) in Hget by lia.
  rewrite get_table in Hget by lia. congruence.
Qed.

Lemma set_table (k : nat) v :
  (k < n)%nat →
  set (map F (seq 0 n)) (Z.of_nat k) v =
    Ok (map (λ j, if decide (j = k) then v else F j) (seq 0 n)).
Proof.
  intros Hk. rewrite set_in_range by (unfold len; rewrite length_map, length_seq; lia).
  f_equal. rewrite Nat2Z.id. apply list_eq. intros j.
  change (map ?f ?l) with (f <$> l).
  destruct (decide (j = k)) as [->|Hne].
  - rewrite list_lookup_insert_eq by (rewrite length_fmap, length_seq; lia).
    rewrite list_lookup_fmap, lookup_seq_lt by lia. simpl. by rewrite decide_True.
  - rewrite list_lookup_insert_ne by done. rewrite !list_lookup_fmap.
    destruct (seq 0 n !! j) as [j'|] eqn:Hj; [|done]. simpl.
    apply lookup_seq in Hj as [-> _]. by rewrite decide_False.
Qed.

End Tables.

Lemma map_seq_ext (F G : nat → Z) n :
  (∀ k, (k < n)%nat → F k = G k) → map F (seq 0 n) = map G (seq 0 n).
Proof.
  intros Hext. apply map_ext_in. intros k Hk. apply Hext.
  apply in_seq in Hk. lia.
Qed.

Lemma seq_split (k n : nat) :
  (k < n)%nat → seq 0 n = seq 0 k ++ k :: seq (S k) (n - S k).
Proof.
  intros Hk. replace n with (k + S (n - S k))%nat at 1 by lia.
  by rewrite seq_app.
Qed.

(** ** One digit pass of the radix sort *)

Section DigitPass.
Context {T : Type} `{Reflect T}.
Variable exp : Z.

(** The counting loop adds the sizes of the buckets to the table. *)
Lemma digit_count_spec (d : list T) n rest :
  ∀ i F,
    (∀ (k : nat) y, rest !! k = Some y → get d (i + Z.of_nat k) = Ok y) →
    (∀ x, x ∈ rest → digitOf exp x = Ok (Z.of_nat (digit_key exp x)) ∧ (digit_key exp x < n)%nat) →
    digit_count (length rest) exp d i (map F (seq 0 n)) =
      Ok (map (λ k, F k + Z.of_nat (length (bucket (digit_key exp) k rest))) (seq 0 n)).
Proof.
  induction rest as [|x rest IH]; intros i F Hget Hdig.
  - cbn [length digit_count]. f_equal. apply map_seq_ext. intros k _. cbn. lia.
  - cbn [length digit_count].
    assert (get d i = Ok x) as ->.
    { pose proof (Hget 0%nat x eq_refl) as Hx. by rewrite Z.add_0_r in Hx. }
    res_simpl. destruct (Hdig x ltac:(by left)) as [-> Hgx]. res_simpl.
    rewrite get_table by done. res_simpl.
    rewrite set_table by done. res_simpl.
    rewrite IH.
    + f_equal. apply map_seq_ext. intros k Hk. destruct (decide (k = digit_key exp x)) as [->|Hne].
      * rewrite bucket_cons_eq. cbn [length]. lia.
      * rewrite bucket_cons_ne by lia. done.
    + intros k y Hk. replace (i + 1 + Z.of_nat k) with (i + Z.of_nat (S k)) by lia.
      by apply Hget.
    + intros y Hy. apply Hdig. by right.
Qed.

Lemma digit_prefix_explicit (c0 c1 c2 c3 c4 c5 c6 c7 c8 c9 : Z) :
  digit_prefix 9 1 [c0; c1; c2; c3; c4; c5; c6; c7; c8; c9] =
    Ok [c0; c1 + c0; c2 + (c1 + c0); c3 + (c2 + (c1 + c0));
        c4 + (c3 + (c2 + (c1 + c0))); c5 + (c4 + (c3 + (c2 + (c1 + c0))));
        c6 + (c5 + (c4 + (c3 + (c2 + (c1 + c0)))));
        c7 + (c6 + (c5 + (c4 + (c3 + (c2 + (c1 + c0))))));
        c8 + (c7 + (c6 + (c5 + (c4 + (c3 + (c2 + (c1 + c0)))))));
        c9 + (c8 + (c7 + (c6 + (c5 + (c4 + (c3 + (c2 + (c1 + c0))))))))].
Proof. reflexivity. Qed.

Lemma buckets_seq_S (L : list T) k :
  length (buckets (digit_key exp) (seq 0 (S k)) L) =
    (length (buckets (digit_key exp) (seq 0 k) L) + length (bucket (digit_key exp) k L))%nat.
Proof.
  rewrite seq_S, buckets_app, length_app. simpl.
  by rewrite buckets_cons, app_nil_r.
Qed.

(** After the prefix sums each entry is the end of its bucket. *)
Lemma digit_prefix_spec (L : list T) :
  digit_prefix 9 1 (map (λ k, 0 + Z.of_nat (length (bucket (digit_key exp) k L))) (seq 0 10)) =
    Ok (map (λ k, Z.of_nat (length (buckets (digit_key exp) (seq 0 k) L) + length (bucket (digit_key exp) k L)))
          (seq 0 10)).
Proof.
  cbn [map seq]. rewrite digit_prefix_explicit.
  pose proof (buckets_seq_S L 0). pose proof (buckets_seq_S L 1).
  pose proof (buckets_seq_S L 2). pose proof (buckets_seq_S L 3).
  pose proof (buckets_seq_S L 4). pose proof (buckets_seq_S L 5).
  pose proof (buckets_seq_S L 6). pose proof (buckets_seq_S L 7).
  pose proof (buckets_seq_S L 8).
  assert (length (buckets (digit_key exp) (seq 0 0) L) = 0%nat) by done.
  cbn [seq] in *. apply (f_equal Ok). repeat (apply f_equal2; [lia|]). done.
Qed.

(** The placing loop fills the buckets from their ends. *)
Lemma digit_place_spec (d : list T) (L : list T) P :
  ∀ S,
    L = P ++ S →
    (∀ (k : nat) y, L !! k = Some y → get d (Z.of_nat k) = Ok y) →
    (∀ x, x ∈ L → digitOf exp x = Ok (Z.of_nat (digit_key exp x)) ∧ (digit_key exp x < 10)%nat) →
    digit_place (length P) exp d (len P - 1)
      (map (λ k, Z.of_nat (length (buckets (digit_key exp) (seq 0 k) L) + length (bucket (digit_key exp) k P)))
         (seq 0 10))
      (blocks (digit_key exp) zero (seq 0 10) P S) =
    Ok (buckets (digit_key exp) (seq 0 10) L).
Proof.
  induction P as [|x P IH] using rev_ind; intros S HL Hget Hdig.
  - simpl. rewrite blocks_all_placed. by subst L.
  - rewrite length_app. cbn [length]. rewrite Nat.add_1_r. cbn [digit_place].
    assert (get d (len (P ++ [x]) - 1) = Ok x) as ->.
    { replace (len (P ++ [x]) - 1) with (Z.of_nat (length P)) by len_lia.
      apply Hget. subst L. rewrite <- app_assoc. by apply list_lookup_middle. }
    res_simpl.
    destruct (Hdig x) as [Hdx Hgx].
    { subst L. apply elem_of_app. left. apply elem_of_app. right. by left. }
    rewrite Hdx. res_simpl. rewrite get_table by done. res_simpl.
    rewrite bucket_snoc_eq, length_app. cbn [length].
    rewrite (seq_split (digit_key exp x) 10) by done.
    assert (digit_key exp x ∉ seq 0 (digit_key exp x)) as Hnot1 by (rewrite elem_of_seq; lia).
    assert (digit_key exp x ∉ seq (Datatypes.S (digit_key exp x)) (10 - Datatypes.S (digit_key exp x))) as Hnot2
      by (rewrite elem_of_seq; lia).
    pose proof (blocks_place (digit_key exp) zero _ _ x P S Hnot1 Hnot2) as Hplace.
    pose proof (blocks_place_lt (digit_key exp) zero (seq 0 (digit_key exp x))
                  (seq (Datatypes.S (digit_key exp x)) (10 - Datatypes.S (digit_key exp x))) x P S) as Hlt.
    assert (L = P ++ x :: S) as HL' by (subst L; by rewrite <- app_assoc).
    rewrite <- HL' in Hplace, Hlt.
    rewrite (set_in_range (blocks (digit_key exp) zero _ (P ++ [x]) S)) by (unfold len; lia).
    replace (Z.to_nat (Z.of_nat (length (buckets (digit_key exp) (seq 0 (digit_key exp x)) L) +
                                  (length (bucket (digit_key exp) (digit_key exp x) P) + 1)) - 1))
      with (length (buckets (digit_key exp) (seq 0 (digit_key exp x)) L) + length (bucket (digit_key exp) (digit_key exp x) P))%nat by lia.
    rewrite Hplace. res_simpl.
    rewrite <- (seq_split (digit_key exp x) 10) by done.
    rewrite set_table by done. res_simpl.
    replace (len (P ++ [x]) - 1 - 1) with (len P - 1) by len_lia.
    rewrite <- (IH (x :: S) HL' Hget Hdig). f_equal.
    apply map_seq_ext. intros k Hk. destruct (decide (k = digit_key exp x)) as [->|Hne].
    + lia.
    + by rewrite bucket_snoc_ne by done.
Qed.


(** One digit pass distributes the live prefix into the ten buckets, in
    the order of the digits, each bucket in the order of the input. *)
Lemma countingSortByDigit_spec sz (d : list T) :
  0 ≤ sz ≤ len d →
  (∀ x, x ∈ take (Z.to_nat sz) d →
     digitOf exp x = Ok (Z.of_nat (digit_key exp x)) ∧ (digit_key exp x < 10)%nat) →
  countingSortByDigit sz exp d =
    Ok (buckets (digit_key exp) (seq 0 10) (take (Z.to_nat sz) d) ++ drop (Z.to_nat sz) d).
Proof.
  intros Hsz Hdig. set (L := take (Z.to_nat sz) d) in *.
  assert (length L = Z.to_nat sz) as HL by (unfold L; rewrite length_take; len_lia).
  assert (∀ (k : nat) y, L !! k = Some y → get d (Z.of_nat k) = Ok y) as Hget.
  { intros k y Hk. apply get_Ok_iff. rewrite Nat2Z.id. split; [lia|].
    unfold L in Hk. by apply lookup_take_Some in Hk as [Hk _]. }
  assert (buckets (digit_key exp) (seq 0 10) L ≡ₚ L) as Hperm.
  { apply buckets_perm; [apply NoDup_seq|]. intros x Hx.
    apply elem_of_seq. destruct (Hdig x Hx). lia. }
  unfold countingSortByDigit, make, slice_to.
  rewrite !decide_True by lia. res_simpl.
  change (replicate (Z.to_nat 10) 0) with (map (λ _ : nat, 0) (seq 0 10)).
  rewrite <- HL at 1.
  rewrite (digit_count_spec d 10 L 0 (λ _, 0)); [|by intros k y Hk; rewrite Z.add_0_l; apply Hget|done].
  res_simpl. rewrite digit_prefix_spec. res_simpl.
  rewrite <- HL at 1.
  replace (sz - 1) with (len L - 1) by len_lia.
  replace (replicate (Z.to_nat sz) zero) with (blocks (digit_key exp) zero (seq 0 10) L []).
  2:{ rewrite blocks_all_free. f_equal. by rewrite (Permutation_length Hperm). }
  rewrite (digit_place_spec d L L []); [|by rewrite app_nil_r|done|done].
  res_simpl. f_equal. f_equal. fold L. unfold copy.
  rewrite <- (Permutation_length Hperm) at 1. rewrite firstn_all.
  rewrite drop_ge by (rewrite (Permutation_length Hperm); lia).
  apply app_nil_r.
Qed.

End DigitPass.

(** ** Radix sort sorts non-negative integers *)

Section BucketOrder.
Context {T : Type} (g : T → nat).

Lemma bucket_elem k (l : list T) x : x ∈ bucket g k l ↔ x ∈ l ∧ g x = k.
Proof.
  unfold bucket. rewrite list_elem_of_In, filter_In, <- list_elem_of_In.
  by rewrite Nat.eqb_eq.
Qed.

Lemma buckets_elem ks (l : list T) x : x ∈ buckets g ks l ↔ x ∈ l ∧ g x ∈ ks.
Proof.
  induction ks as [|k ks IH].
  - change (buckets g [] l) with (@nil T). split; [intros Hx; by apply elem_of_nil in Hx|].
    intros [_ Hx]. by apply elem_of_nil in Hx.
  - rewrite buckets_cons, elem_of_app, bucket_elem, IH, elem_of_cons. split.
    + intros [[Hx Hg]|[Hx Hg]]; (split; [done|]); [by left|by right].
    + intros [Hx [Hg|Hg]]; [left|right]; done.
Qed.

Lemma bucket_sorted (R R' : T → T → Prop) k (l : list T) :
  StronglySorted R l →
  (∀ x y, x ∈ l → y ∈ l → g x = g y → R x y → R' x y) →
  StronglySorted R' (bucket g k l).
Proof.
  intros Hs HR. induction Hs as [|x l Hs IH Hall]; [constructor|].
  assert (StronglySorted R' (bucket g k l)) as Hrest.
  { apply IH. intros y z Hy Hz. apply HR; by right. }
  destruct (decide (g x = k)) as [<-|Hne].
  - rewrite bucket_cons_eq. constructor; [done|].
    apply Forall_forall. intros y Hy. apply bucket_elem in Hy as [Hy Hgy].
    rewrite Forall_forall in Hall. apply HR; [by left | by right | done | by apply Hall].
  - by rewrite bucket_cons_ne.
Qed.

Lemma buckets_sorted (R R' : T → T → Prop) (l : list T) n :
  ∀ a,
    StronglySorted R l →
    (∀ x y, x ∈ l → y ∈ l → g x = g y → R x y → R' x y) →
    (∀ x y, x ∈ l → y ∈ l → (g x < g y)%nat → R' x y) →
    StronglySorted R' (buckets g (seq a n) l).
Proof.
  induction n as [|n IH]; intros a Hs Heq Hlt'.
  - change (buckets g (seq a 0) l) with (@nil T). constructor.
  - cbn [seq]. rewrite buckets_cons. apply StronglySorted_app. split; [|split].
    + intros x y Hx Hy. apply bucket_elem in Hx as [Hx Hgx].
      apply buckets_elem in Hy as [Hy Hgy]. apply elem_of_seq in Hgy.
      apply Hlt'; [done | done | lia].
    + by apply (bucket_sorted R).
    + by apply IH.
Qed.

End BucketOrder.

Section RadixSorts.
Context {T : Type} `{Reflect T}.
Implicit Types pq : PQueue T.

Lemma radix_ready_value (l : list T) x :
  radix_ready l → x ∈ l →
  valueInt x = Some (int_value x) ∧ 0 ≤ int_value x < 2 ^ 63 ∧
  getMaxInt_kind (kindOf x) = true.
Proof.
  intros Hready Hx. unfold radix_ready in Hready. rewrite Forall_forall in Hready.
  destruct (Hready x Hx) as (Hkind & v & Hv & Hrange).
  unfold int_value. rewrite Hv. done.
Qed.

Lemma radix_ready_perm (l l' : list T) : l' ≡ₚ l → radix_ready l → radix_ready l'.
Proof. intros Hp. unfold radix_ready. by rewrite Hp. Qed.

Lemma digitOf_nonneg exp x :
  valueInt x = Some (int_value x) → 0 ≤ int_value x < 2 ^ 63 → 0 < exp →
  digitOf exp x = Ok ((int_value x / exp) `mod` 10) ∧
  digit_key exp x = Z.to_nat ((int_value x / exp) `mod` 10) ∧
  (digit_key exp x < 10)%nat.
Proof.
  intros Hv Hrange Hexp.
  assert (digitOf exp x = Ok ((int_value x / exp) `mod` 10)) as Hd.
  { unfold digitOf. rewrite Hv. res_simpl. unfold int_div.
    rewrite decide_False by lia. res_simpl.
    rewrite Z.quot_div_nonneg by lia.
    assert (0 ≤ int_value x / exp ≤ int_value x) as Hq.
    { split; [apply Z.div_pos; lia|]. apply Z.div_le_upper_bound; [lia|]. nia. }
    rewrite wrap64_in_range by (unfold in_int64; lia).
    by rewrite Z.rem_mod_nonneg by lia. }
  pose proof (Z.mod_pos_bound (int_value x / exp) 10 ltac:(lia)).
  unfold digit_key. rewrite Hd. split; [done|]. split; [done|lia].
Qed.

(** A digit pass keeps the order of the lower digits inside each bucket,
    so afterwards the prefix is sorted on one more digit. *)
Lemma digit_pass_sorted (E : Z) (l : list T) :
  0 < E → radix_ready l → sorted_mod E l →
  sorted_mod (E * 10) (buckets (digit_key E) (seq 0 10) l).
Proof.
  intros HE Hready Hs. unfold sorted_mod in *.
  assert (∀ x, x ∈ l →
            int_value x `mod` (E * 10) =
              int_value x `mod` E + E * Z.of_nat (digit_key E x) ∧
            0 ≤ int_value x `mod` E < E) as Hsplit.
  { intros x Hx. destruct (radix_ready_value l x Hready Hx) as (Hv & Hrange & _).
    destruct (digitOf_nonneg E x Hv Hrange HE) as (_ & -> & _).
    pose proof (Z.mod_pos_bound (int_value x / E) 10 ltac:(lia)).
    rewrite Z2Nat.id by lia. split; [|apply Z.mod_pos_bound; lia].
    apply Z.rem_mul_r; lia. }
  eapply (buckets_sorted _ _ _ l 10 0%nat); [exact Hs| |].
  - intros x y Hx Hy Hg Hxy. cbn beta in *.
    destruct (Hsplit x Hx) as [-> _]. destruct (Hsplit y Hy) as [-> _].
    rewrite Hg. lia.
  - intros x y Hx Hy Hg. cbn beta.
    destruct (Hsplit x Hx) as [-> Hbx]. destruct (Hsplit y Hy) as [-> Hby]. nia.
Qed.

Lemma sorted_mod_ascending (E : Z) (l : list T) :
  (∀ x, x ∈ l → 0 ≤ int_value x < E) → sorted_mod E l → ascending l.
Proof.
  intros Hsmall Hs. unfold sorted_mod, ascending in *.
  induction Hs as [|x l Hs IH Hall]; [constructor|].
  constructor.
  - apply IH. intros y Hy. apply Hsmall. by right.
  - apply Forall_forall. intros y Hy. rewrite Forall_forall in Hall.
    specialize (Hall y Hy). cbn beta in Hall.
    rewrite !Z.mod_small in Hall; [done|apply Hsmall; by right|apply Hsmall; by left].
Qed.

Lemma sorted_mod_one (l : list T) : sorted_mod 1 l.
Proof.
  unfold sorted_mod. induction l as [|x l IH]; constructor; [done|].
  apply Forall_forall. intros y _. rewrite !Z.mod_1_r. lia.
Qed.

Lemma pow10_bounds (k : nat) :
  (k ≤ 18)%nat → 0 < 10 ^ Z.of_nat k ≤ 1000000000000000000.
Proof.
  intros Hk. split; [apply Z.pow_pos_nonneg; lia|].
  change 1000000000000000000 with (10 ^ 18). apply Z.pow_le_mono_r; lia.
Qed.

(** The digit loop, entered with [exp = 10^k] (as a 64-bit value) and a
    prefix sorted on its [k] lowest digits. *)
Lemma radix_loop_sorts (m : nat) :
  ∀ (k fuel : nat) sz maxVal (d : list T),
    (k + m = 19)%nat → (m < fuel)%nat →
    0 ≤ sz ≤ len d → 0 ≤ maxVal < 2 ^ 63 →
    radix_ready (take (Z.to_nat sz) d) →
    (∀ x, x ∈ take (Z.to_nat sz) d → int_value x ≤ maxVal) →
    sorted_mod (10 ^ Z.of_nat k) (take (Z.to_nat sz) d) →
    ∃ d', radix_loop fuel sz maxVal (wrap64 (10 ^ Z.of_nat k)) d = Ok d' ∧
      perm_in 0 (Z.to_nat sz) d d' ∧ ascending (take (Z.to_nat sz) d').
Proof.
  induction m as [|m IH];
    intros k fuel sz maxVal d Hk Hfuel Hsz Hmax Hready Hle Hs;
    (destruct fuel as [|fuel]; [lia|]); rewrite radix_loop_S.
  - assert (k = 19%nat) as -> by lia.
    change (wrap64 (10 ^ Z.of_nat 19)) with (- 8446744073709551616).
    unfold int_div. rewrite decide_False by lia. res_simpl.
    replace (maxVal `quot` (- 8446744073709551616))
      with (- (maxVal `quot` 8446744073709551616))
      by (symmetry; apply (Z.quot_opp_r maxVal 8446744073709551616); lia).
    rewrite Z.quot_div_nonneg by lia.
    assert (0 ≤ maxVal / 8446744073709551616 ≤ 1) as Hq.
    { split; [apply Z.div_pos; lia|].
      assert (maxVal / 8446744073709551616 < 2); [|lia].
      apply Z.div_lt_upper_bound; lia. }
    rewrite (wrap64_in_range (- (maxVal / 8446744073709551616)))
      by (unfold in_int64; lia).
    rewrite decide_False by lia.
    exists d. split; [done|]. split; [apply perm_in_refl|].
    apply (sorted_mod_ascending (10 ^ Z.of_nat 19)); [|done].
    intros x Hx. destruct (radix_ready_value _ x Hready Hx) as (_ & Hrange & _).
    change (10 ^ Z.of_nat 19) with 10000000000000000000. lia.
  - pose proof (pow10_bounds k ltac:(lia)) as HE.
    set (E := 10 ^ Z.of_nat k) in *.
    rewrite (wrap64_in_range E) by (unfold in_int64; lia).
    unfold int_div. rewrite decide_False by lia. res_simpl.
    rewrite Z.quot_div_nonneg by lia.
    assert (0 ≤ maxVal / E ≤ maxVal) as Hq.
    { split; [apply Z.div_pos; lia|]. apply Z.div_le_upper_bound; [lia|]. nia. }
    rewrite (wrap64_in_range (maxVal / E)) by (unfold in_int64; lia).
    destruct (decide (0 < maxVal / E)) as [Hpass|Hstop].
    + rewrite (countingSortByDigit_spec E sz d Hsz).
      2:{ intros x Hx. destruct (radix_ready_value _ x Hready Hx) as (Hv & Hrange & _).
          destruct (digitOf_nonneg E x Hv Hrange ltac:(lia)) as (Hd & Hkey & Hlt').
          split; [|done]. rewrite Hd, Hkey. f_equal.
          pose proof (Z.mod_pos_bound (int_value x / E) 10 ltac:(lia)). lia. }
      res_simpl.
      set (L := take (Z.to_nat sz) d) in *.
      set (L' := buckets (digit_key E) (seq 0 10) L).
      assert (L' ≡ₚ L) as Hperm.
      { apply buckets_perm; [apply NoDup_seq|]. intros x Hx. apply elem_of_seq.
        destruct (radix_ready_value _ x Hready Hx) as (Hv & Hrange & _).
        destruct (digitOf_nonneg E x Hv Hrange ltac:(lia)) as (_ & _ & Hlt'). lia. }
      assert (length L = Z.to_nat sz) as HL by (unfold L; rewrite length_take; len_lia).
      assert (perm_in 0 (Z.to_nat sz) d (L' ++ drop (Z.to_nat sz) d)) as Hp1.
      { apply perm_in_take_app; [len_lia|done]. }
      assert (take (Z.to_nat sz) (L' ++ drop (Z.to_nat sz) d) = L') as Htake.
      { apply take_app_length'. by rewrite (Permutation_length Hperm). }
      replace (wrap64 (E * 10)) with (wrap64 (10 ^ Z.of_nat (S k))).
      2:{ f_equal. unfold E. rewrite Nat2Z.inj_succ, Z.pow_succ_r by lia. lia. }
      destruct (IH (S k) fuel sz maxVal (L' ++ drop (Z.to_nat sz) d))
        as (d' & Hloop & Hp2 & Hasc); [lia | lia | | done | | | |].
      * pose proof (perm_in_length _ _ _ _ Hp1). len_lia.
      * rewrite Htake. by apply (radix_ready_perm L).
      * rewrite Htake. intros x Hx. apply Hle. by rewrite <- Hperm.
      * rewrite Htake.
        replace (10 ^ Z.of_nat (S k)) with (E * 10)
          by (unfold E; rewrite Nat2Z.inj_succ, Z.pow_succ_r by lia; lia).
        apply digit_pass_sorted; [lia|done|done].
      * exists d'. split; [done|]. split; [by eapply perm_in_trans|done].
    + exists d. split; [done|]. split; [apply perm_in_refl|].
      apply (sorted_mod_ascending E); [|done].
      intros x Hx. destruct (radix_ready_value _ x Hready Hx) as (_ & Hrange & _).
      specialize (Hle x Hx). assert (maxVal / E = 0) as Hz by lia.
      apply Z.div_small_iff in Hz; lia.
Qed.

Lemma seen_values_ready (l : list T) :
  radix_ready l → seen_values l = map int_value l.
Proof.
  intros Hready. induction l as [|x l IH]; [done|].
  destruct (radix_ready_value (x :: l) x Hready ltac:(by left)) as (Hv & _ & Hkind).
  apply Forall_cons in Hready as [_ Hready].
  unfold seen_values in *. cbn [omap list_omap map]. rewrite Hkind, Hv.
  cbn. by rewrite IH.
Qed.

Lemma radixSort_sorts pq :
  wf pq → dataType pq = IntegerType → radix_ready (live pq) →
  ∃ d', radixSort pq = Ok d' ∧ perm_in 0 (Z.to_nat (size pq)) (data pq) d' ∧
    ascending (take (Z.to_nat (size pq)) d').
Proof.
  intros Hwf Htag Hready. pose proof Hwf as [H0 H1]. unfold radixSort.
  rewrite decide_False by (intros Hne; by apply Hne).
  rewrite getMaxInt_spec by done. res_simpl.
  destruct (foldl_max_spec (seen_values (live pq)) 0) as (Hge & Hall & Hin).
  rewrite seen_values_ready in Hall, Hin |- * by done.
  set (m := foldl Z.max 0 (map int_value (live pq))) in *.
  assert (∀ x, x ∈ live pq → int_value x ≤ m) as Hle.
  { intros x Hx. apply Hall. apply list_elem_of_fmap. by exists x. }
  assert (0 ≤ m < 2 ^ 63) as Hm.
  { destruct Hin as [->|Hin]; [lia|].
    apply list_elem_of_fmap in Hin as (x & -> & Hx).
    by destruct (radix_ready_value _ x Hready Hx) as (_ & Hrange & _). }
  destruct (decide (m ≤ 0)) as [Hzero|Hpos].
  - exists (data pq). split; [done|]. split; [apply perm_in_refl|].
    apply (sorted_mod_ascending 1).
    + intros x Hx. destruct (radix_ready_value _ x Hready Hx) as (_ & Hrange & _).
      specialize (Hle x Hx). lia.
    + apply sorted_mod_one.
  - unfold radix_fuel.
    destruct (radix_loop_sorts 19 0 66 (size pq) m (data pq))
      as (d' & Hloop & Hp & Hasc); [lia | lia | done | done | done | done | |].
    + change (10 ^ Z.of_nat 0) with 1. apply sorted_mod_one.
    + change (wrap64 (10 ^ Z.of_nat 0)) with 1 in Hloop.
      exists d'. by split_and!.
Qed.

End RadixSorts.

(** ** Counting sort sorts integers of a small range *)

Lemma replicate_table (n : nat) (z : Z) : replicate n z = map (λ _ : nat, z) (seq 0 n).
Proof.
  generalize 0%nat. induction n as [|n IH]; intros a; [done|].
  cbn [replicate seq map]. f_equal. apply IH.
Qed.

Lemma StronglySorted_trivial {A} (l : list A) : StronglySorted (λ _ _, True) l.
Proof.
  induction l as [|x l IH]; constructor; [done|].
  apply Forall_forall. done.
Qed.

Section CountingSorts.
Context {T : Type} `{Reflect T}.
Implicit Types pq : PQueue T.
Variable mn : Z.

(** The counting loop adds the sizes of the buckets to the table. *)
Lemma counting_count_spec (d : list T) n rest :
  ∀ i F,
    (∀ (k : nat) y, rest !! k = Some y → get d (i + Z.of_nat k) = Ok y) →
    (∀ x, x ∈ rest → ∃ v, valueInt x = Some v ∧
       wrap64 (v - mn) = Z.of_nat (count_key mn x) ∧ (count_key mn x < n)%nat) →
    counting_count (length rest) mn d i (map F (seq 0 n)) =
      Ok (map (λ k, F k + Z.of_nat (length (bucket (count_key mn) k rest))) (seq 0 n)).
Proof.
  induction rest as [|x rest IH]; intros i F Hget Hkey.
  - cbn [length counting_count]. f_equal. apply map_seq_ext. intros k _. cbn. lia.
  - cbn [length counting_count].
    assert (get d i = Ok x) as ->.
    { pose proof (Hget 0%nat x eq_refl) as Hx. by rewrite Z.add_0_r in Hx. }
    res_simpl. destruct (Hkey x ltac:(by left)) as (v & Hv & Hw & Hlt).
    rewrite Hv. res_simpl. cbv zeta. rewrite Hw.
    rewrite get_table by done. res_simpl.
    rewrite set_table by done. res_simpl.
    rewrite IH.
    + f_equal. apply map_seq_ext. intros k Hk.
      destruct (decide (k = count_key mn x)) as [->|Hne].
      * rewrite bucket_cons_eq. cbn [length]. lia.
      * rewrite bucket_cons_ne by lia. done.
    + intros k y Hk. replace (i + 1 + Z.of_nat k) with (i + Z.of_nat (S k)) by lia.
      by apply Hget.
    + intros y Hy. apply Hkey. by right.
Qed.

(** The inner loop writes [count[i]] copies of the value [minVal + i]. *)
Lemma counting_emit_spec (e : T) (k n c : nat) :
  ∀ fuel F pre junk post,
    (k < n)%nat → F k = Z.of_nat c → (c < fuel)%nat → length junk = c →
    assertInt (wrap64 (mn + Z.of_nat k)) = Some e →
    counting_emit fuel mn (Z.of_nat k) (map F (seq 0 n)) (pre ++ junk ++ post) (len pre) =
      Ok (map (λ j, if decide (j = k) then 0 else F j) (seq 0 n),
          pre ++ replicate c e ++ post, len pre + Z.of_nat c).
Proof.
  induction c as [|c IH]; intros fuel F pre junk post Hk HF Hfuel Hjunk He;
    (destruct fuel as [|fuel]; [lia|]); cbn [counting_emit];
    rewrite get_table by done; res_simpl; rewrite HF.
  - rewrite decide_False by lia. destruct junk; [|done].
    apply (f_equal Ok). apply f_equal2; [apply f_equal2|]; [|done|lia].
    apply map_seq_ext. intros j _. case_decide; [by subst|done].
  - rewrite decide_True by lia. rewrite He. res_simpl.
    destruct junk as [|j0 junk]; [done|]. cbn [app].
    rewrite (set_app_mid pre (junk ++ post) j0 e) by done. res_simpl.
    rewrite set_table by done. res_simpl.
    replace (pre ++ e :: junk ++ post) with ((pre ++ [e]) ++ junk ++ post)
      by (by rewrite <- app_assoc).
    replace (len pre + 1) with (len (pre ++ [e])) by (rewrite len_app, len_cons, len_nil; lia).
    rewrite (IH fuel); [|done|by (rewrite decide_True by done; lia)|lia|by simplify_eq/=|done].
    apply (f_equal Ok). apply f_equal2; [apply f_equal2|].
    + apply map_seq_ext. intros j _. by case_decide.
    + by rewrite <- app_assoc.
    + rewrite len_app, len_cons, len_nil. lia.
Qed.

(** A bucket of the count table holds equal elements only. *)
Lemma bucket_replicate (L : list T) (k : nat) (e : T) :
  (∀ x, x ∈ L → ∃ v, valueInt x = Some v ∧ mn ≤ v) →
  valueInt e = Some (mn + Z.of_nat k) →
  bucket (count_key mn) k L = replicate (length (bucket (count_key mn) k L)) e.
Proof.
  intros Hval He. symmetry. apply replicate_as_elem_of. split; [done|].
  intros y Hy. apply bucket_elem in Hy as [Hy Hkey].
  destruct (Hval y Hy) as (v & Hv & Hge).
  apply (valueInt_inj y e (mn + Z.of_nat k)); [|done].
  rewrite Hv. f_equal. unfold count_key, int_value in Hkey. rewrite Hv in Hkey.
  simpl in Hkey. lia.
Qed.

(** The outer loop writes the buckets one after the other. *)
Lemma counting_rebuild_spec (L : list T) (n : nat) :
  (∀ j : nat, (j < n)%nat → is_Some (assertInt (wrap64 (mn + Z.of_nat j)))) →
  (∀ j : nat, (j < n)%nat → wrap64 (mn + Z.of_nat j) = mn + Z.of_nat j) →
  (∀ x, x ∈ L → ∃ v, valueInt x = Some v ∧ mn ≤ v) →
  ∀ (m k : nat) F pre junk post,
    (k + m = n)%nat →
    (∀ j, (k ≤ j < n)%nat → F j = Z.of_nat (length (bucket (count_key mn) j L))) →
    length junk = length (buckets (count_key mn) (seq k m) L) →
    counting_rebuild m mn (Z.of_nat k) (map F (seq 0 n)) (pre ++ junk ++ post) (len pre) =
      Ok (pre ++ buckets (count_key mn) (seq k m) L ++ post).
Proof.
  intros Hassert Hwrap Hval. induction m as [|m IH]; intros k F pre junk post Hkm HF Hjunk.
  - cbn [seq] in *. change (buckets (count_key mn) [] L) with (@nil T) in *.
    destruct junk; [|done]. done.
  - cbn [counting_rebuild seq] in *. rewrite buckets_cons in *.
    rewrite length_app in Hjunk.
    rewrite get_table by lia. res_simpl. rewrite HF by lia. rewrite Nat2Z.id.
    set (c := length (bucket (count_key mn) k L)) in *.
    destruct (Hassert k ltac:(lia)) as [e He].
    rewrite <- (take_drop c junk), <- (app_assoc (take c junk)).
    rewrite (counting_emit_spec e k n c (S c) F pre (take c junk) (drop c junk ++ post));
      [|lia|apply HF; lia|lia|rewrite length_take; lia|done].
    res_simpl.
    replace (Z.of_nat k + 1) with (Z.of_nat (S k)) by lia.
    replace (pre ++ replicate c e ++ drop c junk ++ post)
      with ((pre ++ replicate c e) ++ drop c junk ++ post) by (by rewrite <- app_assoc).
    replace (len pre + Z.of_nat c) with (len (pre ++ replicate c e))
      by (rewrite len_app; unfold len; rewrite length_replicate; lia).
    rewrite IH; [|lia| |rewrite length_drop; lia].
    + f_equal. rewrite <- !app_assoc. f_equal. f_equal.
      symmetry. apply bucket_replicate; [done|].
      apply assertInt_valueInt. rewrite <- (Hwrap k) by lia. done.
    + intros j Hj. rewrite decide_False by lia. apply HF. lia.
Qed.

End CountingSorts.

Section CountingSortSorts.
Context {T : Type} `{Reflect T}.
Implicit Types pq : PQueue T.

Lemma countingSort_sorts pq :
  wf pq → dataType pq = IntegerType →
  all_ints (live pq) → values_in_int64 (live pq) →
  (∀ x y, x ∈ live pq → y ∈ live pq → int_value y - int_value x ≤ 10000) →
  (∀ n, in_int64 n → is_Some (assertInt n)) →
  ∃ d', countingSort pq = Ok d' ∧ perm_in 0 (Z.to_nat (size pq)) (data pq) d' ∧
    ascending (take (Z.to_nat (size pq)) d').
Proof.
  intros Hwf Htag Hints H64 Hrange Hassert. pose proof Hwf as [H0 H1].
  pose proof (live_length pq Hwf) as Hlen.
  unfold countingSort. rewrite decide_False by (intros Hne; by apply Hne).
  destruct (getMinMaxInt_bounds pq Hwf Hints) as (mn & mx & -> & Hall & Hin & Hzero).
  res_simpl.
  destruct (decide (size pq = 0)) as [Hempty|Hne].
  { destruct (Hzero Hempty) as [-> ->]. rewrite Hempty.
    exists (data pq). split; [done|]. split; [apply perm_in_refl|]. constructor. }
  assert (∀ x, x ∈ live pq → ∃ v, valueInt x = Some v ∧ int_value x = v ∧
            mn ≤ v ≤ mx ∧ in_int64 v) as Hval.
  { intros x Hx. unfold all_ints in Hints. rewrite Forall_forall in Hints.
    destruct (Hints x Hx) as [v Hv]. exists v. split; [done|].
    split; [unfold int_value; by rewrite Hv|]. split.
    - apply Hall. apply list_elem_of_omap. by exists x.
    - unfold values_in_int64 in H64. rewrite Forall_forall in H64. by apply (H64 x). }
  destruct (Hin Hne) as [Hmn Hmx].
  apply list_elem_of_omap in Hmn as (xm & Hxm & Hvm).
  apply list_elem_of_omap in Hmx as (xM & HxM & HvM).
  destruct (Hval xm Hxm) as (v1 & Hv1 & Hm1 & _ & Hm64).
  rewrite Hvm in Hv1. injection Hv1 as <-.
  destruct (Hval xM HxM) as (v2 & Hv2 & HM1 & [HmM _] & HM64).
  rewrite HvM in Hv2. injection Hv2 as <-.
  pose proof (Hrange xm xM Hxm HxM) as Hr. rewrite Hm1, HM1 in Hr.
  unfold in_int64 in Hm64, HM64.
  rewrite (wrap64_in_range (mx - mn)) by (unfold in_int64; lia).
  rewrite decide_False by lia.
  rewrite (wrap64_in_range (mx - mn + 1)) by (unfold in_int64; lia).
  unfold make. rewrite decide_True by lia. res_simpl.
  set (n := Z.to_nat (mx - mn + 1)).
  set (L := live pq) in *.
  assert (length L = Z.to_nat (size pq)) as HL by (unfold len in Hlen; lia).
  assert (∀ x, x ∈ L → (count_key mn x < n)%nat) as Hkey.
  { intros x Hx. destruct (Hval x Hx) as (v & Hv & Hiv & Hb & _).
    unfold count_key. rewrite Hiv. unfold n. lia. }
  assert (buckets (count_key mn) (seq 0 n) L ≡ₚ L) as Hperm.
  { apply buckets_perm; [apply NoDup_seq|]. intros x Hx.
    apply elem_of_seq. specialize (Hkey x Hx). lia. }
  exists (buckets (count_key mn) (seq 0 n) L ++ drop (Z.to_nat (size pq)) (data pq)).
  split; [|split].
  - rewrite replicate_table. rewrite <- HL at 1.
    rewrite (counting_count_spec mn (data pq) n L 0 (λ _, 0)).
    2:{ intros k y Hk. rewrite Z.add_0_l. apply get_Ok_iff. rewrite Nat2Z.id.
        split; [lia|]. unfold L, live in Hk. by apply lookup_take_Some in Hk as [Hk _]. }
    2:{ intros x Hx. destruct (Hval x Hx) as (v & Hv & Hiv & Hb & _). exists v.
        split; [done|]. split; [|by apply Hkey]. unfold count_key. rewrite Hiv.
        rewrite wrap64_in_range by (unfold in_int64; lia). lia. }
    res_simpl. rewrite length_map, length_seq.
    rewrite <- (live_drop pq) at 1. fold L.
    apply (counting_rebuild_spec mn L n) with (k := 0%nat) (pre := []) (junk := L);
      [| | |unfold n; lia| |].
    + intros j Hj. rewrite wrap64_in_range by (unfold in_int64, n in *; lia).
      apply Hassert. unfold in_int64, n in *. lia.
    + intros j Hj. apply wrap64_in_range. unfold in_int64, n in *. lia.
    + intros x Hx. destruct (Hval x Hx) as (v & Hv & _ & Hb & _). exists v. split; [done|lia].
    + intros j Hj. lia.
    + by rewrite (Permutation_length Hperm).
  - rewrite <- HL. apply perm_in_take_app.
    + unfold len in Hlen, H1. lia.
    + fold (live pq). fold L. rewrite HL. done.
  - rewrite <- HL, <- (Permutation_length Hperm), take_app_length.
    apply (buckets_sorted (count_key mn) (λ _ _, True)); [apply StronglySorted_trivial| |].
    + intros x y Hx Hy Hg _.
      destruct (Hval x Hx) as (v & _ & Hiv & Hb & _).
      destruct (Hval y Hy) as (w & _ & Hiw & Hb' & _).
      unfold count_key in Hg. lia.
    + intros x y Hx Hy Hg.
      destruct (Hval x Hx) as (v & _ & Hiv & Hb & _).
      destruct (Hval y Hy) as (w & _ & Hiw & Hb' & _).
      unfold count_key in Hg. lia.
Qed.

End CountingSortSorts.

(** ** Sorting integers with any strategy *)

Lemma bucket_ext {T} (g g' : T → nat) k (l : list T) :
  (∀ x, x ∈ l → g x = g' x) → bucket g k l = bucket g' k l.
Proof.
  intros Hext. unfold bucket. apply List.filter_ext_in. intros x Hx.
  rewrite Hext; [done|]. by apply list_elem_of_In.
Qed.

Lemma buckets_ext {T} (g g' : T → nat) ks (l : list T) :
  (∀ x, x ∈ l → g x = g' x) → buckets g ks l = buckets g' ks l.
Proof.
  intros Hext. unfold buckets. f_equal. apply map_ext. intros k. by apply bucket_ext.
Qed.

Section IntegerDispatch.
Context {T : Type} `{Reflect T}.
Implicit Types pq : PQueue T.

Lemma int_order_swo (lt : T → T → bool) : int_order lt → StrictWeakOrder lt.
Proof.
  intros Hord.
  assert (∀ x y, lt x y = false ↔ ¬ int_value x < int_value y) as Hfalse.
  { intros x y. rewrite <- (Hord x y). symmetry. apply not_true_iff_false. }
  split; unfold eqv; intros; repeat
    match goal with
    | H : _ && _ = true |- _ => apply andb_true_iff in H as [? ?]
    | H : negb _ = true |- _ => apply negb_true_iff in H
    | |- _ && _ = true => apply andb_true_iff; split
    | |- negb _ = true => apply negb_true_iff
    | H : lt _ _ = true |- _ => apply Hord in H
    | H : lt _ _ = false |- _ => apply Hfalse in H
    | |- lt _ _ = true => apply Hord
    | |- lt _ _ = false => apply Hfalse
    end; lia.
Qed.

Lemma sorted_by_ascending (lt : T → T → bool) (l : list T) :
  int_order lt → sorted_by lt l → ascending l.
Proof.
  intros Hord. pose proof (int_order_swo lt Hord) as Hlt.
  induction l as [|a l IH]; intros Hs; [constructor|].
  constructor.
  - apply IH. by apply sorted_by_cons in Hs as [_ Hs].
  - apply Forall_forall. intros x Hx.
    pose proof (sorted_by_head_min lt Hlt a l x Hs ltac:(by right)) as Hxa.
    destruct (decide (int_value x < int_value a)) as [Hlt'|]; [|lia].
    apply Hord in Hlt'. congruence.
Qed.

Lemma ascending_short (l : list T) : (length l ≤ 1)%nat → ascending l.
Proof.
  destruct l as [|x [|y l]]; cbn; intros Hl; [constructor| |lia].
  constructor; [constructor|]. by apply Forall_nil.
Qed.

Lemma radix_ready_ints (l : list T) :
  radix_ready l → all_ints l ∧ values_in_int64 l.
Proof.
  intros Hready. unfold all_ints, values_in_int64. rewrite !Forall_forall.
  split; intros x Hx; destruct (radix_ready_value l x Hready Hx) as (Hv & Hrange & _).
  - by rewrite Hv.
  - intros v Hv'. rewrite Hv in Hv'. injection Hv' as <-. unfold in_int64. lia.
Qed.

Lemma chooseOptimalStrategy_total pq :
  wf pq → all_ints (live pq) →
  ∃ s, chooseOptimalStrategy pq = Ok s ∧ s ≠ AutoStrategy.
Proof.
  intros Hwf Hints. unfold chooseOptimalStrategy.
  destruct (decide (size pq ≤ 16)); [by eexists|].
  rewrite (isNearlySorted_near_sorted pq Hwf). res_simpl.
  destruct (near_sorted (less pq) (live pq)); [by eexists|].
  destruct (decide (dataType pq = IntegerType ∧ 100 < size pq)) as [[Htag Hn]|].
  - unfold hasSmallRange. rewrite decide_False by (intros [?|?]; [done|lia]).
    rewrite getMinMaxInt_spec by done. res_simpl.
    destruct (bool_decide _); by eexists.
  - repeat (destruct (decide _)); by eexists.
Qed.

Lemma SortWithStrategy_auto pq s :
  chooseOptimalStrategy pq = Ok s → s ≠ AutoStrategy →
  SortWithStrategy AutoStrategy pq = SortWithStrategy s pq.
Proof.
  intros Hs Hne. unfold SortWithStrategy.
  destruct (decide (size pq ≤ 1)); [done|].
  destruct (decide (AutoStrategy = AutoStrategy)); [|done].
  destruct (decide (s = AutoStrategy)); [done|]. by rewrite Hs.
Qed.

(** Over non-negative values the counting sort either counts or, when the
    range is above 10000, leaves the work to quicksort. *)
Lemma countingSort_nonneg pq :
  wf pq → radix_ready (live pq) → int_order (less pq) →
  (∀ n, in_int64 n → is_Some (assertInt n)) →
  ∃ d', countingSort pq = Ok d' ∧ perm_in 0 (Z.to_nat (size pq)) (data pq) d' ∧
    ascending (take (Z.to_nat (size pq)) d').
Proof.
  intros Hwf Hready Hord Hassert.
  destruct (radix_ready_ints _ Hready) as [Hints H64].
  assert (∃ d', quickSort pq = Ok d' ∧ perm_in 0 (Z.to_nat (size pq)) (data pq) d' ∧
            ascending (take (Z.to_nat (size pq)) d')) as Hquick.
  { destruct (quickSort_sorts pq Hwf) as (d' & Hq & Hp & Hs). exists d'.
    split; [done|]. split; [done|].
    apply (sorted_by_ascending (less pq)); [done|]. apply Hs. by apply int_order_swo. }
  destruct (decide (dataType pq = IntegerType)) as [Htag|Htag].
  2:{ unfold countingSort. by rewrite decide_True by done. }
  destruct (getMinMaxInt_bounds pq Hwf Hints) as (mn & mx & Hmm & Hall & Hin & Hzero).
  assert (∀ x, x ∈ live pq → mn ≤ int_value x ≤ mx) as Hb.
  { intros x Hx. destruct (radix_ready_value _ x Hready Hx) as (Hv & _ & _).
    apply Hall. apply list_elem_of_omap. by exists x. }
  destruct (decide (mx - mn ≤ 10000)) as [Hsmall|Hlarge].
  - apply countingSort_sorts; try done.
    intros x y Hx Hy. pose proof (Hb x Hx). pose proof (Hb y Hy). lia.
  - assert (0 ≤ mn ∧ mx < 2 ^ 63) as [Hmn Hmx].
    { destruct (decide (size pq = 0)) as [Hz|Hnz]; [destruct (Hzero Hz); lia|].
      destruct (Hin Hnz) as [H1 H2].
      apply list_elem_of_omap in H1 as (x1 & Hx1 & Hv1).
      apply list_elem_of_omap in H2 as (x2 & Hx2 & Hv2).
      destruct (radix_ready_value _ x1 Hready Hx1) as (Hv1' & Hr1 & _).
      destruct (radix_ready_value _ x2 Hready Hx2) as (Hv2' & Hr2 & _).
      rewrite Hv1 in Hv1'. rewrite Hv2 in Hv2'. simplify_eq. lia. }
    unfold countingSort. rewrite decide_False by (intros Hne; by apply Hne).
    rewrite Hmm. res_simpl.
    rewrite wrap64_in_range by (unfold in_int64; lia).
    by rewrite decide_True by lia.
Qed.

Lemma SortWithStrategy_explicit pq strategy :
  wf pq → radix_ready (live pq) → int_order (less pq) →
  (∀ n, in_int64 n → is_Some (assertInt n)) →
  strategy ≠ AutoStrategy →
  ∃ d', SortWithStrategy strategy pq = Ok (with_data pq d') ∧
    perm_in 0 (Z.to_nat (size pq)) (data pq) d' ∧
    ascending (take (Z.to_nat (size pq)) d').
Proof.
  intros Hwf Hready Hord Hassert Hne. pose proof (int_order_swo _ Hord) as Hlt.
  unfold SortWithStrategy.
  destruct (decide (size pq ≤ 1)) as [Hsmall|Hbig].
  { exists (data pq). rewrite with_data_same. split; [done|].
    split; [apply perm_in_refl|]. apply ascending_short. rewrite length_take. lia. }
  destruct (decide (strategy = AutoStrategy)); [done|]. res_simpl.
  assert (∀ r, sorts_result (less pq) (size pq) (data pq) r →
            ∃ d', (d ← r; Ok (with_data pq d)) = Ok (with_data pq d') ∧
              perm_in 0 (Z.to_nat (size pq)) (data pq) d' ∧
              ascending (take (Z.to_nat (size pq)) d')) as Hcmp.
  { intros r (d' & -> & Hp & Hs). exists d'. split; [done|]. split; [done|].
    apply (sorted_by_ascending (less pq)); [done|]. by apply Hs. }
  assert (∀ r, (∃ d', r = Ok d' ∧ perm_in 0 (Z.to_nat (size pq)) (data pq) d' ∧
                  ascending (take (Z.to_nat (size pq)) d')) →
            ∃ d', (d ← r; Ok (with_data pq d)) = Ok (with_data pq d') ∧
              perm_in 0 (Z.to_nat (size pq)) (data pq) d' ∧
              ascending (take (Z.to_nat (size pq)) d')) as Hint.
  { intros r (d' & -> & Hp & Hs). by exists d'. }
  destruct strategy; [done|..].
  - destruct (decide (dataType pq = IntegerType)) as [Htag|Htag].
    + apply Hint. by apply radixSort_sorts.
    + apply Hcmp. by apply quickSort_sorts.
  - destruct (decide (dataType pq = IntegerType)) as [Htag|Htag].
    + apply Hint. by apply countingSort_nonneg.
    + apply Hcmp. by apply quickSort_sorts.
  - apply Hcmp. by apply insertionSort_sorts.
  - apply Hcmp. by apply timsort_sorts.
  - apply Hcmp. by apply introsort_sorts.
  - apply Hcmp. by apply mergeSort_sorts.
  - apply Hcmp. by apply quickSort_sorts.
Qed.

Lemma SortWithStrategy_nonneg pq strategy :
  wf pq → radix_ready (live pq) → int_order (less pq) →
  (∀ n, in_int64 n → is_Some (assertInt n)) →
  ∃ d', SortWithStrategy strategy pq = Ok (with_data pq d') ∧
    perm_in 0 (Z.to_nat (size pq)) (data pq) d' ∧
    ascending (take (Z.to_nat (size pq)) d').
Proof.
  intros Hwf Hready Hord Hassert.
  destruct (decide (strategy = AutoStrategy)) as [->|Hne].
  - destruct (radix_ready_ints _ Hready) as [Hints _].
    destruct (chooseOptimalStrategy_total pq Hwf Hints) as (s & Hs & Hne).
    rewrite (SortWithStrategy_auto pq s Hs Hne). by apply SortWithStrategy_explicit.
  - by apply SortWithStrategy_explicit.
Qed.

End IntegerDispatch.

Lemma radix_ready_nonneg_ints (d : list Z) :
  Forall (λ v, 0 ≤ v < 2 ^ 63) d → radix_ready d.
Proof.
  unfold radix_ready. intros Hd. eapply Forall_impl; [exact Hd|].
  intros v Hv. split; [done|]. by exists v.
Qed.

Lemma Z_ltb_int_order : int_order Z.ltb.
Proof. intros x y. apply Z.ltb_lt. Qed.

(** X25. One pass of [countingSortByDigit] over non-negative values, for a
    positive [exp], returns and is a stable distribution on the decimal
    digit [(v / exp) % 10]: the live prefix becomes the elements with
    digit 0, then those with digit 1, and so on up to 9, each group in the
    order it had before; the slack after the prefix is untouched. *)
Theorem countingSortByDigit_distributes_stably {T} `{Reflect T} (pq : PQueue T) (exp : Z) :
  wf pq → radix_ready (live pq) → 0 < exp →
  countingSortByDigit (size pq) exp (data pq) =
    Ok (buckets (λ x, Z.to_nat ((int_value x / exp) `mod` 10)) (seq 0 10) (live pq) ++
        drop (Z.to_nat (size pq)) (data pq)).
Proof.
  intros Hwf Hready Hexp.
  assert (∀ x, x ∈ live pq →
            digitOf exp x = Ok (Z.of_nat (digit_key exp x)) ∧
            digit_key exp x = Z.to_nat ((int_value x / exp) `mod` 10) ∧
            (digit_key exp x < 10)%nat) as Hdig.
  { intros x Hx. destruct (radix_ready_value _ x Hready Hx) as (Hv & Hrange & _).
    destruct (digitOf_nonneg exp x Hv Hrange Hexp) as (Hd & Hk & Hlt).
    split; [|done]. rewrite Hd, Hk. f_equal.
    pose proof (Z.mod_pos_bound (int_value x / exp) 10). lia. }
  rewrite countingSortByDigit_spec.
  - fold (live pq). f_equal. f_equal. apply buckets_ext. intros x Hx.
    by destruct (Hdig x Hx) as (_ & Hk & _).
  - exact Hwf.
  - intros x Hx. destruct (Hdig x Hx) as (Hd & _ & Hlt). done.
Qed.

Lemma countingSortByDigit_distributes_stably_witness :
  countingSortByDigit 8 10 [170; 45; 75; 90; 2; 802; 24; 66] =
    Ok [2; 802; 24; 45; 66; 170; 75; 90].
Proof.
  pose proof (countingSortByDigit_distributes_stably
                (NewInts [170; 45; 75; 90; 2; 802; 24; 66]) 10) as Hpass.
  unfold NewInts in Hpass. rewrite New_live, New_data in Hpass. apply Hpass.
  - by vm_compute.
  - apply radix_ready_nonneg_ints.
    repeat (apply Forall_cons_2; [cbn beta; lia|]). apply Forall_nil_2.
  - lia.
Defined.

(** X26. [radixSort] on an integer queue whose elements are of kind
    [int], [int32] or [int64] with non-negative values returns, whatever
    the comparator is; the live prefix is a rearrangement of what it was,
    in non-decreasing order of the values; the slack is untouched. *)
Theorem radixSort_sorts_nonnegative {T} `{Reflect T} (pq : PQueue T) :
  wf pq → dataType pq = IntegerType → radix_ready (live pq) →
  ∃ d', radixSort pq = Ok d' ∧
    take (Z.to_nat (size pq)) d' ≡ₚ live pq ∧
    drop (Z.to_nat (size pq)) d' = drop (Z.to_nat (size pq)) (data pq) ∧
    ascending (take (Z.to_nat (size pq)) d').
Proof.
  intros Hwf Htag Hready.
  destruct (radixSort_sorts pq Hwf Htag Hready) as (d' & Hsort & Hp & Hasc).
  destruct (with_data_perm pq d' Hwf Hp) as (_ & _ & _ & Hlive & Htake & Hdrop).
  exists d'. rewrite <- Htake. by split_and!.
Qed.

Lemma scattered_ints_nonneg : Forall (λ v, 0 ≤ v < 2 ^ 63) scattered_ints.
Proof.
  apply Forall_forall. intros v Hv. unfold scattered_ints in Hv.
  apply list_elem_of_fmap in Hv as (i & -> & _).
  pose proof (Z.mod_pos_bound (Z.of_nat i * 7919) 5003). lia.
Qed.

Lemma radixSort_sorts_nonnegative_witness :
  ∃ d', radixSort (NewInts scattered_ints) = Ok d' ∧ ascending (take 120 d').
Proof.
  destruct (radixSort_sorts_nonnegative (NewInts scattered_ints))
    as (d' & Hsort & _ & _ & Hasc).
  - apply New_wf.
  - reflexivity.
  - unfold NewInts. rewrite New_live. apply radix_ready_nonneg_ints, scattered_ints_nonneg.
  - exists d'. split; [exact Hsort|exact Hasc].
Defined.





(** ** Counting sort and a range that overflows *)

Lemma wrap64_high z : 2 ^ 63 ≤ z < 2 ^ 64 → wrap64 z = z - 2 ^ 64.
Proof.
  intros Hz. unfold wrap64.
  assert ((z + 2 ^ 63) `mod` 2 ^ 64 = z + 2 ^ 63 - 2 ^ 64) as ->; [|lia].
  symmetry. apply (Z.mod_unique _ _ 1); lia.
Qed.

Section WideRange.
Context {T : Type} `{Reflect T}.
Implicit Types pq : PQueue T.

(** When the largest and the smallest value are [2^63] or more apart,
    [max - min] wraps to a negative number. *)
Lemma wide_range_wraps pq :
  wf pq → all_ints (live pq) → values_in_int64 (live pq) →
  (∃ x y, x ∈ live pq ∧ y ∈ live pq ∧ 2 ^ 63 ≤ int_value y - int_value x) →
  ∃ mn mx, getMinMaxInt pq = Ok (mn, mx) ∧ 1 < size pq ∧
    - 2 ^ 63 ≤ wrap64 (mx - mn) < 0.
Proof.
  intros Hwf Hints H64 (x & y & Hx & Hy & Hwide).
  pose proof (live_length pq Hwf) as Hlen.
  destruct (getMinMaxInt_bounds pq Hwf Hints) as (mn & mx & Hmm & Hall & Hin & _).
  assert (∀ z, z ∈ live pq →
            mn ≤ int_value z ≤ mx ∧ in_int64 (int_value z) ∧
            valueInt z = Some (int_value z)) as Hval.
  { intros z Hz. unfold all_ints, values_in_int64 in *. rewrite Forall_forall in Hints, H64.
    destruct (Hints z Hz) as [v Hv]. unfold int_value. rewrite Hv. cbn.
    split; [|split; [by apply (H64 z)|done]].
    apply Hall. apply list_elem_of_omap. by exists z. }
  assert (1 < size pq) as Hbig.
  { pose proof (Hval x Hx) as _. clear Hval Hall Hin Hints H64 Hmm.
    unfold len in Hlen. destruct (live pq) as [|a [|b l]].
    - by apply elem_of_nil in Hx.
    - apply list_elem_of_singleton in Hx, Hy. subst. lia.
    - simpl in Hlen. lia. }
  destruct Hin as [Hmn Hmx]; [lia|].
  apply list_elem_of_omap in Hmn as (x1 & Hx1 & Hv1).
  apply list_elem_of_omap in Hmx as (x2 & Hx2 & Hv2).
  destruct (Hval x1 Hx1) as (_ & H1 & Hv1'). rewrite Hv1 in Hv1'. injection Hv1' as Hv1'.
  destruct (Hval x2 Hx2) as (_ & H2 & Hv2'). rewrite Hv2 in Hv2'. injection Hv2' as Hv2'.
  rewrite <- Hv1' in H1. rewrite <- Hv2' in H2. unfold in_int64 in H1, H2.
  destruct (Hval x Hx) as (Hbx & _ & _). destruct (Hval y Hy) as (Hby & _ & _).
  exists mn, mx. split; [done|]. split; [done|].
  rewrite wrap64_high by lia. lia.
Qed.

Lemma countingSort_wide_range pq :
  wf pq → dataType pq = IntegerType →
  all_ints (live pq) → values_in_int64 (live pq) →
  (∃ x y, x ∈ live pq ∧ y ∈ live pq ∧ 2 ^ 63 ≤ int_value y - int_value x) →
  hasSmallRange pq = Ok true ∧ countingSort pq = Panic.
Proof.
  intros Hwf Htag Hints H64 Hwide.
  destruct (wide_range_wraps pq Hwf Hints H64 Hwide) as (mn & mx & Hmm & Hbig & Hw).
  split.
  - unfold hasSmallRange. rewrite decide_False by (intros [?|?]; [done|lia]).
    rewrite Hmm. res_simpl. f_equal. apply bool_decide_eq_true_2. lia.
  - unfold countingSort. rewrite decide_False by (intros Hn; by apply Hn).
    rewrite Hmm. res_simpl. rewrite decide_False by lia.
    rewrite (wrap64_in_range (wrap64 (mx - mn) + 1)) by (unfold in_int64; lia).
    unfold make. destruct (decide (0 ≤ wrap64 (mx - mn) + 1)) as [Hz|Hneg]; [|done].
    res_simpl. replace (wrap64 (mx - mn) + 1) with 0 by lia.
    change (replicate (Z.to_nat 0) 0) with (@nil Z).
    destruct (Z.to_nat (size pq)) as [|n] eqn:Hn; [lia|].
    cbn [counting_count].
    destruct (get_in_range (data pq) 0) as [x0 Hx0]; [destruct Hwf; lia|].
    rewrite Hx0. res_simpl.
    assert (x0 ∈ live pq) as Hin0.
    { apply get_Ok_iff in Hx0 as [_ Hx0]. apply (list_elem_of_lookup_2 _ 0%nat).
      unfold live. rewrite lookup_take_lt by lia. exact Hx0. }
    unfold all_ints in Hints. rewrite Forall_forall in Hints.
    destruct (Hints x0 Hin0) as [v ->]. res_simpl. cbv zeta.
    unfold get at 1. destruct (decide _); [|done]. by rewrite lookup_nil.
Qed.

Lemma Sort_wide_range pq :
  wf pq → dataType pq = IntegerType →
  all_ints (live pq) → values_in_int64 (live pq) →
  (∃ x y, x ∈ live pq ∧ y ∈ live pq ∧ 2 ^ 63 ≤ int_value y - int_value x) →
  SortWithStrategy CountingStrategy pq = Panic ∧
  (100 < size pq → near_sorted (less pq) (live pq) = false → Sort pq = Panic).
Proof.
  intros Hwf Htag Hints H64 Hwide.
  destruct (wide_range_wraps pq Hwf Hints H64 Hwide) as (mn & mx & _ & Hbig & _).
  destruct (countingSort_wide_range pq Hwf Htag Hints H64 Hwide) as [Hsmall Hcount].
  split.
  - unfold SortWithStrategy. destruct (decide (size pq ≤ 1)); [lia|].
    destruct (decide (CountingStrategy = AutoStrategy)); [done|]. res_simpl.
    destruct (decide (dataType pq = IntegerType)); [|done]. by rewrite Hcount.
  - intros Hn Hnear. unfold Sort, SortWithStrategy.
    destruct (decide (size pq ≤ 1)); [lia|].
    destruct (decide (AutoStrategy = AutoStrategy)); [|done].
    unfold chooseOptimalStrategy. destruct (decide (size pq ≤ 16)); [lia|].
    rewrite (isNearlySorted_near_sorted pq Hwf), Hnear. res_simpl.
    destruct (decide (dataType pq = IntegerType ∧ 100 < size pq)) as [_|Hno];
      [|by destruct Hno].
    rewrite Hsmall. res_simpl.
    destruct (decide (dataType pq = IntegerType)); [|done]. by rewrite Hcount.
Qed.

End WideRange.

(** X29. On an integer queue of readable 64-bit values that holds two
    values [2^63] or more apart, [max - min] wraps to a negative number:
    [hasSmallRange] answers true and [countingSort] panics (on the length
    of the count table or on its first index).  So
    [SortWithStrategy(Counting)] panics, and so does [Sort] when the queue
    has more than 100 elements and is not nearly sorted. *)
Theorem countingSort_panics_on_wide_range {T} `{Reflect T} (pq : PQueue T) :
  wf pq → dataType pq = IntegerType →
  all_ints (live pq) → values_in_int64 (live pq) →
  (∃ x y, x ∈ live pq ∧ y ∈ live pq ∧ 2 ^ 63 ≤ int_value y - int_value x) →
  hasSmallRange pq = Ok true ∧
  countingSort pq = Panic ∧
  SortWithStrategy CountingStrategy pq = Panic ∧
  (100 < size pq → near_sorted (less pq) (live pq) = false → Sort pq = Panic).
Proof.
  intros Hwf Htag Hints H64 Hwide.
  destruct (countingSort_wide_range pq Hwf Htag Hints H64 Hwide) as [Hsmall Hcount].
  destruct (Sort_wide_range pq Hwf Htag Hints H64 Hwide) as [Hstrategy Hauto].
  by split_and!.
Qed.

Lemma countingSort_panics_on_wide_range_witness :
  SortWithStrategy CountingStrategy (NewInts wide_ints) = Panic ∧
  Sort (NewInts wide_ints) = Panic.
Proof.
  destruct (countingSort_panics_on_wide_range (NewInts wide_ints))
    as (_ & _ & Hstrategy & Hauto).
  - apply New_wf.
  - reflexivity.
  - unfold NewInts. rewrite New_live. apply Forall_forall. intros x _. by exists x.
  - unfold NewInts. rewrite New_live. apply Forall_forall. intros x Hx v [= <-].
    unfold wide_ints in Hx. apply list_elem_of_fmap in Hx as (i & -> & _).
    unfold in_int64. destruct (Nat.even i); lia.
  - exists (-4611686018427387904), 4611686018427387904.
    unfold NewInts. rewrite New_live. split; [|split].
    + apply list_elem_of_fmap. exists 1%nat. split; [done|]. apply elem_of_seq. lia.
    + apply list_elem_of_fmap. exists 0%nat. split; [done|]. apply elem_of_seq. lia.
    + change (int_value 4611686018427387904) with 4611686018427387904.
      change (int_value (-4611686018427387904)) with (-4611686018427387904). lia.
  - split; [exact Hstrategy|]. apply Hauto; by vm_compute.
Defined.
